(** * tesla_lite.hpp: renderer, glyph cache, element tree and navigation stack

    A shallow embedding of [src/libtesla/include/tesla_lite.hpp].  Machine
    integers are [Z] with the wrap-around of their C++ type written out,
    [float] is IEEE binary32 through the Standard Library's [SpecFloat],
    the frame buffer is a list of packed 16-bit colours, [std::map] is a
    [gmap], heap objects live in finite maps from addresses, and the
    ownership tree of elements is an inductive type whose nodes are
    designated by paths. *)

From Stdlib Require Import ZArith Lia Bool.
From Stdlib Require Import Strings.Ascii Strings.String Strings.Byte.
From Stdlib Require Import Floats.SpecFloat.
From stdpp Require Import base option list gmap strings.

Set Warnings "-register-all".

Open Scope Z_scope.

(** ** Fixed-width integers *)

Module Int.

Definition u8 (z : Z) : Z := z mod 2 ^ 8.
Definition u16 (z : Z) : Z := z mod 2 ^ 16.
Definition u32 (z : Z) : Z := z mod 2 ^ 32.
Definition u64 (z : Z) : Z := z mod 2 ^ 64.

(** Two's complement reading of the low 32 bits. *)
Definition s32 (z : Z) : Z := (z + 2 ^ 31) mod 2 ^ 32 - 2 ^ 31.

End Int.
Export Int.

(** ** namespace cfg

    [cfg::FramebufferWidth] and [cfg::FramebufferHeight] are [u16] globals
    written by the host before rendering; the range facts are the type's. *)

Class Config := {
  FramebufferWidth : Z;
  FramebufferHeight : Z;
  FramebufferWidth_u16 : 0 <= FramebufferWidth < 2 ^ 16;
  FramebufferHeight_u16 : 0 <= FramebufferHeight < 2 ^ 16
}.

(** ** struct Color

    A [u16] word [rgba]; the bit-fields [r], [g], [b], [a] are four bits
    each, [r] in the low nibble. *)

Module Color.

Abbreviation t := Z.

Definition r (c : t) : Z := Z.land c 15.
Definition g (c : t) : Z := Z.land (Z.shiftr c 4) 15.
Definition b (c : t) : Z := Z.land (Z.shiftr c 8) 15.
Definition a (c : t) : Z := Z.land (Z.shiftr c 12) 15.

(** [Color(u16 raw)] *)
Definition raw (w : Z) : t := u16 w.

(** [Color(u8 r, u8 g, u8 b, u8 a)]: every initialiser is truncated to its
    four-bit field. *)
Definition make (r g b a : Z) : t :=
  Z.lor (Z.lor (Z.lor (Z.land (u8 r) 15)
                      (Z.shiftl (Z.land (u8 g) 15) 4))
               (Z.shiftl (Z.land (u8 b) 15) 8))
        (Z.shiftl (Z.land (u8 a) 15) 12).

(** [c.a = v] on a copy of [c]. *)
Definition set_a (c : t) (v : Z) : t := make (r c) (g c) (b c) v.

End Color.

Module style.
Definition ColorFrameBackground : Color.t := Color.make 0x0 0x0 0x0 0xD.
Definition ColorTransparent : Color.t := Color.make 0x0 0x0 0x0 0x0.
Definition ColorHighlight : Color.t := Color.make 0x0 0xF 0xD 0xF.
Definition ColorFrame : Color.t := Color.make 0x7 0x7 0x7 0x7.
Definition ColorText : Color.t := Color.make 0xF 0xF 0xF 0xF.
Definition ColorDescription : Color.t := Color.make 0xA 0xA 0xA 0xF.
Definition ColorClickAnimation : Color.t := Color.make 0x0 0x2 0x2 0xF.
Definition ListItemDefaultHeight : Z := 70.
End style.

(** ** The pixel surface

    [currFb] points at an array of [Color]; the model is the array's
    content.  A read or write at an offset that is not a cell of the array
    is a fault, [None]. *)

Module Surface.

Abbreviation t := (list Z).

Definition load (fb : t) (off : Z) : option Color.t :=
  if (0 <=? off) && (off <? Z.of_nat (length fb)) then fb !! Z.to_nat off
  else None.

Definition store (fb : t) (off : Z) (c : Color.t) : option t :=
  if (0 <=? off) && (off <? Z.of_nat (length fb))
  then Some (<[Z.to_nat off := c]> fb)
  else None.

End Surface.

(** A counted [for] loop over [lo, lo+1, ..., hi-1] threading a state
    through a body that may fault. *)
Definition for_range {S : Type} (lo hi : Z) (body : Z -> S -> option S)
    (s : S) : option S :=
  foldl (fun acc i => s' ← acc; body i s') (Some s) (seqZ lo (hi - lo)).

(** ** Renderer: pixel primitives *)

Section PixelPrimitives.
Context {cfg : Config}.

Definition setPixel (x y : Z) (color : Color.t) (fb : Surface.t)
    : option Surface.t :=
  if (x >=? FramebufferWidth) || (y >=? FramebufferHeight) then Some fb
  else Surface.store fb (u32 (u32 (y * FramebufferWidth) + x)) color.

(** One channel of the blend: [(dst * inv_a + src * a) >> 4] with
    [u8 inv_a = 15 - a]. *)
Definition blendChannel (dst src alpha : Z) : Z :=
  let inv_a := u8 (15 - alpha) in
  Z.shiftr (dst * inv_a + src * alpha) 4.

Definition setPixelBlend (x y : Z) (color : Color.t) (fb : Surface.t)
    : option Surface.t :=
  if (x >=? FramebufferWidth) || (y >=? FramebufferHeight)
     || (Color.a color =? 0)
  then Some fb
  else
    let off := u32 (u32 (y * FramebufferWidth) + x) in
    src ← Surface.load fb off;
    Surface.store fb off
      (Color.make
         (blendChannel (Color.r src) (Color.r color) (Color.a color))
         (blendChannel (Color.g src) (Color.g color) (Color.a color))
         (blendChannel (Color.b src) (Color.b color) (Color.a color))
         (Color.a src)).

Definition drawRect (x y w h : Z) (color : Color.t) (fb : Surface.t)
    : option Surface.t :=
  let x_start := Z.max 0 x in
  let y_start := Z.max 0 y in
  let x_end := Z.min FramebufferWidth (s32 (x + w)) in
  let y_end := Z.min FramebufferHeight (s32 (y + h)) in
  for_range y_start y_end (fun yi =>
    for_range x_start x_end (fun xi =>
      setPixelBlend (u32 xi) (u32 yi) color)) fb.

End PixelPrimitives.

(** ** namespace hlp: UTF-8 decoding

    A C string is the list of its bytes; reading at or past the end yields
    the terminating NUL. *)

Module hlp.

Definition byte_at (p : list byte) (k : nat) : Z :=
  default 0 ((fun c => Z.of_N (Byte.to_N c)) <$> p !! k).

Definition is_cont (c : Z) : bool := Z.land c 0xC0 =? 0x80.

(** [decode_utf8(&cp, in)]: [Some (cp, len)] for a return value [len > 0],
    [None] for the return value [-1] (where [*out_cp] is not written). *)
Definition decode_utf8 (p : list byte) : option (Z * Z) :=
  let code_unit := byte_at p 0 in
  if code_unit <? 0x80 then Some (code_unit, 1)
  else if code_unit <? 0xC2 then None
  else if code_unit <? 0xE0 then
    if negb (is_cont (byte_at p 1)) then None
    else Some (Z.lor (Z.shiftl (Z.land (byte_at p 0) 0x1F) 6)
                     (Z.land (byte_at p 1) 0x3F), 2)
  else if code_unit <? 0xF0 then
    if negb (is_cont (byte_at p 1)) || negb (is_cont (byte_at p 2)) then None
    else Some (Z.lor (Z.lor (Z.shiftl (Z.land (byte_at p 0) 0x0F) 12)
                            (Z.shiftl (Z.land (byte_at p 1) 0x3F) 6))
                     (Z.land (byte_at p 2) 0x3F), 3)
  else if code_unit <? 0xF5 then
    if negb (is_cont (byte_at p 1)) || negb (is_cont (byte_at p 2))
       || negb (is_cont (byte_at p 3)) then None
    else Some (Z.lor (Z.lor (Z.lor (Z.shiftl (Z.land (byte_at p 0) 0x07) 18)
                                   (Z.shiftl (Z.land (byte_at p 1) 0x3F) 12))
                            (Z.shiftl (Z.land (byte_at p 2) 0x3F) 6))
                     (Z.land (byte_at p 3) 0x3F), 4)
  else None.

End hlp.

(** ** [float]: IEEE binary32 *)

Module f32.

Abbreviation t := spec_float.

Definition prec : Z := 24.
Definition emax : Z := 128.

(** Integer to [float], round to nearest even. *)
Definition of_Z (z : Z) : t := binary_normalize prec emax z 0 false.

Definition add : t -> t -> t := SFadd prec emax.
Definition mul : t -> t -> t := SFmul prec emax.

Definition clamp (lo hi z : Z) : Z := Z.max lo (Z.min hi z).

(** [float] to integer: truncation toward zero; out of range the
    conversion saturates and NaN gives 0, as the AArch64 instructions
    FCVTZS and FCVTZU of the target do. *)
Definition to_int (lo hi : Z) (f : t) : Z :=
  match f with
  | S754_zero _ => clamp lo hi 0
  | S754_nan => clamp lo hi 0
  | S754_infinity s => if s then lo else hi
  | S754_finite s m e =>
      let mag := if 0 <=? e then Z.shiftl (Z.pos m) e
                 else Z.shiftr (Z.pos m) (- e) in
      clamp lo hi (if s then - mag else mag)
  end.

Definition to_u32 : t -> Z := to_int 0 (2 ^ 32 - 1).
Definition to_s32 : t -> Z := to_int (- 2 ^ 31) (2 ^ 31 - 1).

End f32.

(** ** The font engine (stb_truetype), an external collaborator

    The calls the glyph cache makes on the loaded face [s_stdFont]. *)

Class FontEngine := {
  stbtt_ScaleForPixelHeight : f32.t -> f32.t;
  stbtt_FindGlyphIndex : Z -> Z;
  (** [(x0, y0, x1, y1)] *)
  stbtt_GetGlyphBitmapBox : Z -> f32.t -> f32.t -> Z * Z * Z * Z;
  (** [advanceWidth] *)
  stbtt_GetGlyphHMetrics : Z -> Z;
  (** the bytes written into the [out_w * out_h] output bitmap *)
  stbtt_MakeGlyphBitmap :
    forall (out_w out_h out_stride : Z) (scale_x scale_y : f32.t) (glyph : Z),
      list Z
}.

(** ** class FontManager *)

Module FontManager.

Record Glyph := {
  glyphBmp : option (list Z);
  width : Z;
  height : Z;
  xOffset : Z;
  yOffset : Z;
  xAdvance : f32.t;
  currFontSize : Z
}.

(** [std::shared_ptr<Glyph>]: the address of the allocation together with
    the object it designates (no field of a glyph is written after it has
    been put in the cache).  Two pointers are reference-identical when
    their addresses are equal. *)
Record GlyphPtr := { addr : nat; obj : Glyph }.

(** [s_glyphCache] and the allocator's next unused address. *)
Record state := {
  s_glyphCache : gmap Z GlyphPtr;
  next_addr : nat
}.

Definition empty : state := {| s_glyphCache := ∅; next_addr := 0 |}.

Definition cacheKey (character : Z) (monospace : bool) (fontSize : Z) : Z :=
  let key := Z.lor (u64 (Z.shiftl character 32)) fontSize in
  if monospace then Z.lor key (Z.shiftl 1 63) else key.

Section Rasterize.
Context {font : FontEngine}.

(** The object built on a cache miss.  [glyphBmp] is the array as
    [stbtt_MakeGlyphBitmap] leaves it; that it has the
    [u32 (width * height)] bytes of [new u8[width * height]] is a property
    of the engine at hand ([DrawSpec.fits]), and exhausted memory is not
    part of the model. *)
Definition makeGlyph (character fontSize : Z) : Glyph :=
  let scale := stbtt_ScaleForPixelHeight (f32.of_Z fontSize) in
  let glyphIndex := stbtt_FindGlyphIndex (s32 character) in
  let '(x0, y0, x1, y1) := stbtt_GetGlyphBitmapBox glyphIndex scale scale in
  let w := u32 (x1 - x0) in
  let h := u32 (y1 - y0) in
  let advance := stbtt_GetGlyphHMetrics glyphIndex in
  {| glyphBmp :=
       if (0 <? w) && (0 <? h)
       then Some (stbtt_MakeGlyphBitmap w h w scale scale glyphIndex)
       else None;
     width := w;
     height := h;
     xOffset := x0;
     yOffset := y0;
     xAdvance := f32.mul scale (f32.of_Z advance);
     currFontSize := fontSize |}.

Definition getOrCreateGlyph (character : Z) (monospace : bool) (fontSize : Z)
    (st : state) : GlyphPtr * state :=
  let key := cacheKey character monospace fontSize in
  match s_glyphCache st !! key with
  | Some it => (it, st)
  | None =>
      let glyph := {| addr := next_addr st;
                      obj := makeGlyph character fontSize |} in
      (glyph, {| s_glyphCache := <[key := glyph]> (s_glyphCache st);
                 next_addr := S (next_addr st) |})
  end.

End Rasterize.
End FontManager.

(** ** Renderer: text *)

Module Renderer.

(** What the renderer's methods read and write: the surface behind
    [currFb] ([None] once an access has faulted) and the glyph cache. *)
Record state := {
  fb : option Surface.t;
  fonts : FontManager.state
}.

(** The loop shared by [drawString] and [getTextDimensions]:
    while the byte under [p] is not NUL, decode one code point from [p],
    leave the loop when the length returned is not positive, advance [p]
    by that length and run the body.  [fuel] bounds the number of
    iterations. *)
Fixpoint text_loop {S : Type} (fuel : nat) (body : Z -> S -> S)
    (p : list byte) (s : S) : S :=
  match fuel with
  | O => s
  | Datatypes.S fuel' =>
      if hlp.byte_at p 0 =? 0 then s
      else match hlp.decode_utf8 p with
           | None => s
           | Some (cp, len) =>
               text_loop fuel' body (drop (Z.to_nat len) p) (body cp s)
           end
  end.

Section Text.
Context {cfg : Config} {font : FontEngine}.

(** The two nested loops of [drawString] over a glyph's coverage bitmap.
    [bmp] is the array behind [glyphBmp]; its bytes are read at
    [gy * width + gx], computed in [u32].  A read past the end of [bmp]
    yields 0 here: the surface is the only memory whose faults the model
    tracks, and what is proved about the absence of faults asks for
    glyphs whose reads all lie inside their arrays
    ([DrawSpec.readsInside]). *)
Definition blitGlyph (glyph : FontManager.Glyph) (bmp : list Z)
    (currX y fontSize : Z) (color : Color.t) : Surface.t -> option Surface.t :=
  for_range 0 (FontManager.height glyph) (fun gy =>
    for_range 0 (FontManager.width glyph) (fun gx fb =>
      let alpha :=
        u8 (default 0 (bmp !! Z.to_nat (u32 (u32 (gy * FontManager.width glyph) + gx)))) in
      if 0 <? alpha then
        let c := Color.set_a color
                   (Z.shiftr (u8 (Color.a color) * Z.shiftr alpha 4) 4) in
        setPixelBlend (u32 (currX + gx + FontManager.xOffset glyph))
                      (u32 (y + gy + FontManager.yOffset glyph + fontSize))
                      c fb
      else Some fb)).

(** The locals of [drawString] that live across iterations. *)
Record pen := {
  currX : Z;
  penY : Z;
  out : state
}.

Definition drawString_body (monospace : bool) (x fontSize : Z)
    (color : Color.t) (cp : Z) (s : pen) : pen :=
  if cp =? 10 then
    {| currX := x; penY := s32 (penY s + fontSize); out := out s |}
  else
    let '(glyph, fonts') :=
      FontManager.getOrCreateGlyph cp monospace fontSize (fonts (out s)) in
    let fb' :=
      match FontManager.glyphBmp (FontManager.obj glyph) with
      | Some bmp =>
          fb (out s) ≫=
            blitGlyph (FontManager.obj glyph) bmp (currX s) (penY s)
                      fontSize color
      | None => fb (out s)
      end in
    {| currX := f32.to_s32 (f32.add (f32.of_Z (currX s))
                                    (FontManager.xAdvance (FontManager.obj glyph)));
       penY := penY s;
       out := {| fb := fb'; fonts := fonts' |} |}.

(** [drawString] with its locals still visible at the end of the loop. *)
Definition drawString_pen (text : string) (monospace : bool) (x y fontSize : Z)
    (color : Color.t) (st : state) : pen :=
  let p := list_byte_of_string text in
  text_loop (length p) (drawString_body monospace x fontSize color) p
    {| currX := x; penY := y; out := st |}.

Definition drawString (text : string) (monospace : bool) (x y fontSize : Z)
    (color : Color.t) (st : state) : state :=
  out (drawString_pen text monospace x y fontSize color st).

(** The locals of [getTextDimensions]. *)
Record extent := {
  width : Z;
  height : Z;
  maxWidth : Z;
  cache : FontManager.state
}.

Definition getTextDimensions_body (monospace : bool) (fontSize : Z)
    (cp : Z) (s : extent) : extent :=
  if cp =? 10 then
    {| width := 0;
       height := u32 (height s + fontSize);
       maxWidth := if width s >? maxWidth s then width s else maxWidth s;
       cache := cache s |}
  else
    let '(glyph, fonts') :=
      FontManager.getOrCreateGlyph cp monospace fontSize (cache s) in
    {| width := f32.to_u32 (f32.add (f32.of_Z (width s))
                                    (FontManager.xAdvance (FontManager.obj glyph)));
       height := height s;
       maxWidth := maxWidth s;
       cache := fonts' |}.

(** Returns [{maxWidth, height}] and the glyph cache as the call leaves
    it. *)
Definition getTextDimensions (text : string) (monospace : bool)
    (fontSize : Z) (st : FontManager.state) : (Z * Z) * FontManager.state :=
  let p := list_byte_of_string text in
  let s := text_loop (length p) (getTextDimensions_body monospace fontSize) p
             {| width := 0; height := fontSize; maxWidth := 0; cache := st |} in
  let maxWidth' := if width s >? maxWidth s then width s else maxWidth s in
  ((maxWidth', height s), cache s).

(** Calls a drawing element makes on the renderer it is handed: the
    renderer's drawing methods.  The coordinates of [setPixel] and
    [setPixelBlend] are converted to the [u32] of the parameters where
    the call is made.  [drawRoundedRect] and [drawBorderedRoundedRect]
    ignore the radius and the border width and draw the plain
    rectangle. *)
Inductive call :=
| DrawRect (x y w h : Z) (color : Color.t)
| DrawString (text : string) (monospace : bool) (x y fontSize : Z)
             (color : Color.t)
| SetPixel (x y : Z) (color : Color.t)
| SetPixelBlend (x y : Z) (color : Color.t)
| DrawRoundedRect (x y w h : Z) (radius : f32.t) (color : Color.t)
| DrawBorderedRoundedRect (x y w h : Z) (radius borderWidth : f32.t)
                          (color : Color.t).

Definition exec (c : call) (st : state) : state :=
  match c with
  | DrawRect x y w h color =>
      {| fb := fb st ≫= drawRect x y w h color; fonts := fonts st |}
  | DrawString text monospace x y fontSize color =>
      drawString text monospace x y fontSize color st
  | SetPixel x y color =>
      {| fb := fb st ≫= setPixel (u32 x) (u32 y) color; fonts := fonts st |}
  | SetPixelBlend x y color =>
      {| fb := fb st ≫= setPixelBlend (u32 x) (u32 y) color;
         fonts := fonts st |}
  | DrawRoundedRect x y w h _ color =>
      {| fb := fb st ≫= drawRect x y w h color; fonts := fonts st |}
  | DrawBorderedRoundedRect x y w h _ _ color =>
      {| fb := fb st ≫= drawRect x y w h color; fonts := fonts st |}
  end.

Definition run (cs : list call) (st : state) : state :=
  foldl (fun s c => exec c s) st cs.

End Text.
End Renderer.

Module FocusDirection.
Inductive t := None | Up | Down | Left | Right.
End FocusDirection.

(** ** namespace elm: the element tree

    A parent exclusively owns its children, so a tree of elements is a
    value of an inductive type.  An [Element*] into a tree is the path
    from the root to the node: [[]] is the root, [i :: p] continues with
    [p] in child [i] (item [i] of a [List], the content of an
    [OverlayFrame] for [i = 0]).  A path that leads to no node of the tree
    stands for a pointer to an object that is not part of it. *)

Module elm.

(** The data members of [Element] ([m_parent], read by [invalidate]
    only, is left out). *)
Record ElementBase := {
  m_x : Z;
  m_y : Z;
  m_width : Z;
  m_height : Z;
  m_focused : bool;
  m_isItem : bool
}.

(** [Element::Element()] *)
Definition Element_new : ElementBase :=
  {| m_x := 0; m_y := 0; m_width := 0; m_height := 0;
     m_focused := false; m_isItem := false |}.

(** [Element] is abstract.  [Leaf] stands for a concrete class without
    children: it supplies the pure virtual [draw], as the calls it makes
    on the drawing methods of the renderer given its own members, and may
    override the virtual [getHeight] with a constant. *)
Inductive Element :=
| Leaf (base : ElementBase) (heightOverride : option Z)
       (paint : ElementBase -> list Renderer.call)
| List (base : ElementBase) (m_items : list Element) (m_scrollOffset : Z)
| OverlayFrame (base : ElementBase) (m_title m_subtitle : string)
               (m_contentElement : option Element).

Abbreviation ptr := (list nat).

Definition base (e : Element) : ElementBase :=
  match e with
  | Leaf b _ _ => b
  | List b _ _ => b
  | OverlayFrame b _ _ _ => b
  end.

Definition with_base (f : ElementBase -> ElementBase) (e : Element) : Element :=
  match e with
  | Leaf b o d => Leaf (f b) o d
  | List b items s => List (f b) items s
  | OverlayFrame b t s c => OverlayFrame (f b) t s c
  end.

Definition getX (e : Element) : Z := m_x (base e).
Definition getY (e : Element) : Z := m_y (base e).
Definition getWidth (e : Element) : Z := m_width (base e).

Definition getHeight (e : Element) : Z :=
  match e with
  | Leaf _ (Some h) _ => h
  | _ => m_height (base e)
  end.

Definition isFocused (e : Element) : bool := m_focused (base e).

(** [setBoundaries] and the base [Element::layout] assign the same four
    members. *)
Definition setBoundaries (x y w h : Z) (b : ElementBase) : ElementBase :=
  {| m_x := x; m_y := y; m_width := w; m_height := h;
     m_focused := m_focused b; m_isItem := m_isItem b |}.

Definition Element_setFocused (focused : bool) (b : ElementBase) : ElementBase :=
  {| m_x := m_x b; m_y := m_y b; m_width := m_width b; m_height := m_height b;
     m_focused := focused; m_isItem := m_isItem b |}.

(** [List::List()] and [OverlayFrame::OverlayFrame(title, subtitle)] *)
Definition List_new : Element := List Element_new [] 0.
Definition OverlayFrame_new (title subtitle : string) : Element :=
  OverlayFrame Element_new title subtitle None.

Definition addItem (item : Element) (l : Element) : Element :=
  match l with
  | List b items s => List b (items ++ [item]) s
  | _ => l
  end.

Definition setContent (content : Element) (f : Element) : Element :=
  match f with
  | OverlayFrame b t s _ => OverlayFrame b t s (Some content)
  | _ => f
  end.

(** The virtual [layout].  The parameters are [u16]; an argument computed
    in [int] is converted where the call is made. *)
Fixpoint layout (e : Element) (x y w h : Z) : Element :=
  match e with
  | Leaf b o d => Leaf (setBoundaries x y w h b) o d
  | List b items s =>
      List (setBoundaries x y w h b)
           ((fix each (items : list Element) (currY : Z) : list Element :=
               match items with
               | [] => []
               | item :: rest =>
                   let item' := layout item x currY w (u16 (getHeight item)) in
                   item' :: each rest (u16 (currY + getHeight item'))
               end) items (u16 (y - s)))
           s
  | OverlayFrame b t s c =>
      OverlayFrame (setBoundaries x y w h b) t s
        (match c with
         | Some content =>
             Some (layout content (u16 (x + 20)) (u16 (y + 100))
                          (u16 (w - 40)) (u16 (h - 150)))
         | None => None
         end)
  end.

(** The loop of [List::layout] on its own. *)
Fixpoint layoutItems (items : list Element) (x currY w : Z) : list Element :=
  match items with
  | [] => []
  | item :: rest =>
      let item' := layout item x currY w (u16 (getHeight item)) in
      item' :: layoutItems rest x (u16 (currY + getHeight item')) w
  end.

Section Draw.
Context {cfg : Config}.

(** The virtual [draw], as the sequence of calls made on the renderer. *)
Fixpoint draw (e : Element) : list Renderer.call :=
  match e with
  | Leaf b _ paint => paint b
  | List _ items _ => flat_map draw items
  | OverlayFrame _ title subtitle c =>
      Renderer.DrawRect 0 0 FramebufferWidth FramebufferHeight
                        style.ColorFrameBackground
      :: Renderer.DrawString title false 20 50 32 style.ColorText
      :: Renderer.DrawString subtitle false 20 85 15 style.ColorDescription
      :: match c with Some content => draw content | None => [] end
  end.

Definition frame (e : Element) : list Renderer.call :=
  (if m_focused (base e) && m_isItem (base e)
   then [Renderer.DrawRect (getX e - 2) (getY e - 2) (getWidth e + 4)
                           (s32 (getHeight e + 4)) style.ColorHighlight]
   else []) ++ draw e.

End Draw.

(** The base [requestFocus(direction)]: the element itself. *)
Definition requestFocus (self : ptr) (direction : FocusDirection.t) : ptr := self.

(** The node a pointer designates. *)
Fixpoint node_at (p : ptr) (e : Element) : option Element :=
  match p with
  | [] => Some e
  | i :: p' =>
      match e with
      | List _ items _ => items !! i ≫= node_at p'
      | OverlayFrame _ _ _ (Some content) =>
          match i with O => node_at p' content | _ => None end
      | _ => None
      end
  end.

(** [p->isFocused()] for a pointer into the tree [e]. *)
Definition isFocused_at (p : ptr) (e : Element) : bool :=
  match node_at p e with
  | Some n => isFocused n
  | None => false
  end.

(** [p->setFocused(focused)]: the tree afterwards. *)
Fixpoint setFocused_at (p : ptr) (focused : bool) (e : Element) : Element :=
  match p with
  | [] => with_base (Element_setFocused focused) e
  | i :: p' =>
      match e with
      | List b items s => List b (alter (setFocused_at p' focused) i items) s
      | OverlayFrame b t s (Some content) =>
          match i with
          | O => OverlayFrame b t s (Some (setFocused_at p' focused content))
          | _ => e
          end
      | _ => e
      end
  end.

End elm.

(** ** class Gui *)

Module Gui.

(** [createUI] is the value the subclass's hook returns. *)
Record t := {
  createUI : option elm.Element;
  m_root : option elm.Element;
  m_focusedElement : option elm.ptr
}.

Definition new (hook : option elm.Element) : t :=
  {| createUI := hook; m_root := None; m_focusedElement := None |}.

Section WithConfig.
Context {cfg : Config}.

(** [update()] is the empty base hook. *)
Definition updateGui (g : t) : t :=
  match m_root g with
  | Some _ => g
  | None =>
      {| createUI := createUI g;
         m_root := (fun root => elm.layout root 0 0 FramebufferWidth
                                           FramebufferHeight) <$> createUI g;
         m_focusedElement := m_focusedElement g |}
  end.

Definition draw (g : t) : list Renderer.call :=
  match m_root g with
  | Some root => elm.draw root
  | None => []
  end.

End WithConfig.

Definition requestFocus (element : option elm.ptr)
    (direction : FocusDirection.t) (g : t) : t :=
  let root1 :=
    match m_focusedElement g with
    | Some old => elm.setFocused_at old false <$> m_root g
    | None => m_root g
    end in
  let root2 :=
    match element with
    | Some e => elm.setFocused_at e true <$> root1
    | None => root1
    end in
  {| createUI := createUI g; m_root := root2; m_focusedElement := element |}.

Definition getFocusedElement (g : t) : option elm.ptr := m_focusedElement g.

End Gui.

(** ** class Overlay: the navigation stack

    A [Gui*] is an address in the store of live [Gui] objects;
    [m_guiStack] lists the addresses, top first.  [delete] removes the
    object from the store and faults on an address that holds none. *)

Module Overlay.

Record t := {
  m_guiStack : list nat;
  guis : gmap nat Gui.t;
  m_shouldClose : bool
}.

Definition delete_gui (gui : nat) (o : t) : option t :=
  match guis o !! gui with
  | Some _ => Some {| m_guiStack := m_guiStack o;
                      guis := delete gui (guis o);
                      m_shouldClose := m_shouldClose o |}
  | None => None
  end.

(** [m_guiStack.top()] and [m_guiStack.pop()] fault on an empty stack. *)
Definition top (o : t) : option nat := head (m_guiStack o).

Definition pop (o : t) : option t :=
  match m_guiStack o with
  | [] => None
  | _ :: rest => Some {| m_guiStack := rest; guis := guis o;
                         m_shouldClose := m_shouldClose o |}
  end.

Definition push (gui : nat) (o : t) : t :=
  {| m_guiStack := gui :: m_guiStack o; guis := guis o;
     m_shouldClose := m_shouldClose o |}.

(** [delete m_guiStack.top(); m_guiStack.pop();], the statement pair of
    [changeGui] and of the destructor's loop. *)
Definition dropTop (o : t) : option t :=
  gui ← top o; o' ← delete_gui gui o; pop o'.

Definition pushGui (gui : nat) (o : t) : t := push gui o.

Definition changeGui (gui : nat) (o : t) : option t :=
  o' ← (if bool_decide (m_guiStack o = []) then Some o else dropTop o);
  Some (push gui o').

Definition getCurrentGui (o : t) : option nat :=
  if bool_decide (m_guiStack o = []) then None else top o.

Definition close (o : t) : t :=
  {| m_guiStack := m_guiStack o; guis := guis o; m_shouldClose := true |}.

Definition shouldClose (o : t) : bool := m_shouldClose o.

(** The loop of [~Overlay()]: while the stack is not empty, delete the
    top and pop it.  Every iteration pops one entry, so as many
    iterations as the stack has entries empty it. *)
Fixpoint drain (fuel : nat) (o : t) : option t :=
  match fuel with
  | O => Some o
  | S fuel' =>
      if bool_decide (m_guiStack o = []) then Some o
      else o' ← dropTop o; drain fuel' o'
  end.

Definition destroy (o : t) : option t := drain (length (m_guiStack o)) o.

Section Frame.
Context {cfg : Config} {font : FontEngine}.

(** [loop()], one frame.  [initial] is what [loadInitialGui()] returns
    when it is asked: the address and the object of a new screen, or
    nothing.  [next] is the buffer [framebufferBegin] hands out; the
    renderer state returned holds what [framebufferEnd] presents.  When
    the stack is empty and no initial screen is offered the frame does
    nothing. *)
Definition loop (initial : option (nat * Gui.t)) (next : Surface.t)
    (o : t) (rst : Renderer.state) : option (t * Renderer.state) :=
  let entered :=
    if bool_decide (m_guiStack o = []) then
      match initial with
      | Some (a, g) =>
          Some (pushGui a {| m_guiStack := m_guiStack o;
                             guis := <[a := g]> (guis o);
                             m_shouldClose := m_shouldClose o |})
      | None => None
      end
    else Some o in
  match entered with
  | None => Some (o, rst)
  | Some o1 =>
      gui ← top o1;
      g ← guis o1 !! gui;
      let g' := Gui.updateGui g in
      let rst1 := {| Renderer.fb := Some next;
                     Renderer.fonts := Renderer.fonts rst |} in
      let rst2 :=
        {| Renderer.fb :=
             Renderer.fb rst1 ≫=
               drawRect 0 0 FramebufferWidth FramebufferHeight
                        style.ColorFrameBackground;
           Renderer.fonts := Renderer.fonts rst1 |} in
      Some ({| m_guiStack := m_guiStack o1;
               guis := <[gui := g']> (guis o1);
               m_shouldClose := m_shouldClose o1 |},
            Renderer.run (Gui.draw g') rst2)
  end.

End Frame.

End Overlay.

(** ** Notions used to state the properties *)

Module GlyphCache.
Import FontManager.

(** A call [getOrCreateGlyph(character, monospace, fontSize)]. *)
Definition request : Type := Z * bool * Z.

(** The key a call looks up, and the calls whose character is below
    [2 ^ 31] (every code point is) and whose size is a [u32]. *)
Definition key (r : request) : Z :=
  let '(c, m, sz) := r in cacheKey c m sz.

Definition inRange (r : request) : Prop :=
  let '(c, _, sz) := r in 0 <= c < 2 ^ 31 /\ 0 <= sz < 2 ^ 32.

Section Requests.
Context {font : FontEngine}.

(** The cache after a sequence of calls, the first call first. *)
Definition requests (rs : list request) (st : state) : state :=
  foldl (fun s '(c, m, sz) => snd (getOrCreateGlyph c m sz s)) st rs.

(** Every cached entry under the key of an in-range triple is the glyph
    rasterised for that triple. *)
Definition consistent (st : state) : Prop :=
  forall c m sz p,
    0 <= c < 2 ^ 31 -> 0 <= sz < 2 ^ 32 ->
    s_glyphCache st !! cacheKey c m sz = Some p ->
    obj p = makeGlyph c sz.

End Requests.

(** Cached pointers are allocated, and two keys never share an
    allocation. *)
Record wf (st : state) : Prop := {
  wf_bound : forall k p, s_glyphCache st !! k = Some p -> (addr p < next_addr st)%nat;
  wf_inj : forall k1 k2 p1 p2,
    s_glyphCache st !! k1 = Some p1 -> s_glyphCache st !! k2 = Some p2 ->
    addr p1 = addr p2 -> k1 = k2
}.

End GlyphCache.

Module Layout.

(** The sum of [getHeight()] over the items before index [i]. *)
Definition heightsBefore (i : nat) (items : list elm.Element) : Z :=
  foldr Z.add 0 (elm.getHeight <$> take i items).

End Layout.

Module Focus.
Import elm.

(** Child [i] of a node. *)
Definition child (i : nat) (e : Element) : option Element :=
  match e with
  | Leaf _ _ _ => None
  | List _ items _ => items !! i
  | OverlayFrame _ _ _ c => match i with O => c | _ => None end
  end.

(** No node of the tree has its focus flag set. *)
Fixpoint allUnfocused (e : Element) : bool :=
  negb (isFocused e) &&
  match e with
  | Leaf _ _ _ => true
  | List _ items _ => forallb allUnfocused items
  | OverlayFrame _ _ _ c =>
      match c with Some content => allUnfocused content | None => true end
  end.

(** A sequence of [Gui::requestFocus] calls, the first call first. *)
Definition requests (rs : list (option ptr * FocusDirection.t)) (g : Gui.t)
    : Gui.t :=
  foldl (fun g '(e, d) => Gui.requestFocus e d g) g rs.

(** Every set focus flag is the one the screen's focus pointer names. *)
Definition tracked (g : Gui.t) : Prop :=
  forall root q,
    Gui.m_root g = Some root -> isFocused_at q root = true ->
    Gui.m_focusedElement g = Some q.

End Focus.

Module TextMeasure.

(** The code points [text_loop] hands to its body within [fuel]
    iterations: the decoded prefix of the text. *)
Fixpoint decoded_upto (fuel : nat) (p : list byte) : list Z :=
  match fuel with
  | O => []
  | S fuel' =>
      if hlp.byte_at p 0 =? 0 then []
      else match hlp.decode_utf8 p with
           | None => []
           | Some (cp, len) => cp :: decoded_upto fuel' (drop (Z.to_nat len) p)
           end
  end.

Definition decoded (text : string) : list Z :=
  decoded_upto (length (list_byte_of_string text)) (list_byte_of_string text).

(** The number of newline code points. *)
Definition newlines (cps : list Z) : Z :=
  Z.of_nat (length (filter (fun c => c = 10) cps)).

(** The lines of a text, split at its newline code points. *)
Fixpoint lines (cps : list Z) : list (list Z) :=
  match cps with
  | [] => [[]]
  | c :: rest =>
      if c =? 10 then [] :: lines rest
      else match lines rest with
           | l :: ls => (c :: l) :: ls
           | [] => [[c]]
           end
  end.

Section WithFont.
Context {font : FontEngine}.

(** The advance of the glyph the face gives a code point at a size. *)
Definition advance (fontSize cp : Z) : f32.t :=
  FontManager.xAdvance (FontManager.makeGlyph cp fontSize).

(** The width of a line by the spec's words: the glyph advances summed
    one after the other from [w0], the sum being cut to an integer after
    every glyph. *)
Definition lineWidthFrom (fontSize w0 : Z) (line : list Z) : Z :=
  foldl (fun w cp => f32.to_u32 (f32.add (f32.of_Z w) (advance fontSize cp)))
        w0 line.

Definition lineWidth (fontSize : Z) (line : list Z) : Z :=
  lineWidthFrom fontSize 0 line.

(** The greatest line width of a text whose first line already has the
    width [w]. *)
Fixpoint maxLineFrom (fontSize w : Z) (cps : list Z) : Z :=
  match cps with
  | [] => w
  | c :: rest =>
      if c =? 10 then Z.max w (maxLineFrom fontSize 0 rest)
      else maxLineFrom fontSize
             (f32.to_u32 (f32.add (f32.of_Z w) (advance fontSize c))) rest
  end.

Section WithConfig.
Context {cfg : Config}.

(** The locals of [drawString] after [k] iterations of its loop (or at
    its end, when it ends earlier). *)
Definition penAfter (k : nat) (text : string) (monospace : bool)
    (x y fontSize : Z) (color : Color.t) (st : Renderer.state) : Renderer.pen :=
  Renderer.text_loop k (Renderer.drawString_body monospace x fontSize color)
    (list_byte_of_string text)
    {| Renderer.currX := x; Renderer.penY := y; Renderer.out := st |}.

End WithConfig.

(** The locals of [getTextDimensions] after [k] iterations of its loop. *)
Definition extentAfter (k : nat) (text : string) (monospace : bool)
    (fontSize : Z) (st : FontManager.state) : Renderer.extent :=
  Renderer.text_loop k (Renderer.getTextDimensions_body monospace fontSize)
    (list_byte_of_string text)
    {| Renderer.width := 0; Renderer.height := fontSize;
       Renderer.maxWidth := 0; Renderer.cache := st |}.

End WithFont.
End TextMeasure.

Module PixelSpec.

Section WithConfig.
Context {cfg : Config}.

(** The index of the cell [(x, y)] in the row-major surface. *)
Definition offset (x y : Z) : nat := Z.to_nat (y * FramebufferWidth + x).

(** A surface that has one cell per pixel of the frame buffer. *)
Definition wellSized (fb : Surface.t) : Prop :=
  Z.of_nat (length fb) = FramebufferWidth * FramebufferHeight.

(** What [setPixelBlend] leaves in a cell that held [dst]. *)
Definition blendPixel (color dst : Color.t) : Color.t :=
  if Color.a color =? 0 then dst
  else Color.make
         (blendChannel (Color.r dst) (Color.r color) (Color.a color))
         (blendChannel (Color.g dst) (Color.g color) (Color.a color))
         (blendChannel (Color.b dst) (Color.b color) (Color.a color))
         (Color.a dst).

(** The cells [drawRect(x, y, w, h, _)] covers: the rectangle clipped to
    the surface, with the bounds the code computes. *)
Definition inRect (x y w h xi yi : Z) : bool :=
  (Z.max 0 x <=? xi) && (xi <? Z.min FramebufferWidth (s32 (x + w))) &&
  (Z.max 0 y <=? yi) && (yi <? Z.min FramebufferHeight (s32 (y + h))).

End WithConfig.

(** The alpha channel of every cell. *)
Definition alphaPlane (fb : Surface.t) : list Z := Color.a <$> fb.

End PixelSpec.

Module DrawSpec.

Section WithConfig.
Context {cfg : Config}.



End WithConfig.






(** The surface [drawRect(0, 0, width, height, color)] makes of [fb]. *)
Definition cleared (color : Color.t) (fb : Surface.t) : Surface.t :=
  PixelSpec.blendPixel color <$> fb.

End DrawSpec.

Module Utf8Spec.
Import hlp.

(** A continuation byte, [10xxxxxx]. *)
Definition cont (c : Z) : bool := (0x80 <=? c) && (c <? 0xC0).

(** The decoder read arithmetically: the lead byte selects the length,
    every following byte must be a continuation byte, and the value is
    the payload of the lead followed by six bits per continuation. *)
Definition decode (p : list byte) : option (Z * Z) :=
  let b0 := byte_at p 0 in
  let b1 := byte_at p 1 in
  let b2 := byte_at p 2 in
  let b3 := byte_at p 3 in
  if b0 <? 0x80 then Some (b0, 1)
  else if (0xC2 <=? b0) && (b0 <? 0xE0) && cont b1 then
    Some ((b0 - 0xC0) * 64 + (b1 - 0x80), 2)
  else if (0xE0 <=? b0) && (b0 <? 0xF0) && cont b1 && cont b2 then
    Some ((b0 - 0xE0) * 4096 + (b1 - 0x80) * 64 + (b2 - 0x80), 3)
  else if (0xF0 <=? b0) && (b0 <? 0xF5) && cont b1 && cont b2 && cont b3 then
    Some ((b0 - 0xF0) * 262144 + (b1 - 0x80) * 4096 + (b2 - 0x80) * 64
          + (b3 - 0x80), 4)
  else None.

End Utf8Spec.

Module Ownership.

(** The stack owns its screens: no address is stacked twice and every
    stacked address holds a live screen. *)
Definition owned (o : Overlay.t) : Prop :=
  NoDup (Overlay.m_guiStack o) /\
  forall gui, gui ∈ Overlay.m_guiStack o -> is_Some (Overlay.guis o !! gui).

End Ownership.

(** ** Concrete configurations used by the examples below *)

Module Examples.

(** A 2 x 2 surface. *)
#[local] Instance cfg2x2 : Config :=
  {| FramebufferWidth := 2; FramebufferHeight := 2;
     FramebufferWidth_u16 := ltac:(lia);
     FramebufferHeight_u16 := ltac:(lia) |}.

(** The 1280 x 720 layer. *)
#[local] Instance cfg1280x720 : Config :=
  {| FramebufferWidth := 1280; FramebufferHeight := 720;
     FramebufferWidth_u16 := ltac:(lia);
     FramebufferHeight_u16 := ltac:(lia) |}.

Definition black4 : Surface.t := [0; 0; 0; 0].

(** A face whose scale is 1/2 at every size, whose glyphs all have an
    advance width of 11 units (5.5 pixels) and an empty bounding box. *)
#[local] Instance halfFont : FontEngine :=
  {| stbtt_ScaleForPixelHeight := fun _ => S754_finite false 8388608 (-24);
     stbtt_FindGlyphIndex := fun c => c;
     stbtt_GetGlyphBitmapBox := fun _ _ _ => (0, 0, 0, 0);
     stbtt_GetGlyphHMetrics := fun _ => 11;
     stbtt_MakeGlyphBitmap := fun _ _ _ _ _ _ => [] |}.

(** A face at scale 1 whose glyphs are all one fully covered pixel,
    one pixel above the baseline, with an advance of one pixel. *)
#[local] Instance blockFont : FontEngine :=
  {| stbtt_ScaleForPixelHeight := fun _ => S754_finite false 8388608 (-23);
     stbtt_FindGlyphIndex := fun c => c;
     stbtt_GetGlyphBitmapBox := fun _ _ _ => (0, -1, 1, 0);
     stbtt_GetGlyphHMetrics := fun _ => 1;
     stbtt_MakeGlyphBitmap := fun _ _ _ _ _ _ => [255] |}.

(** The two lines [A] and [BC]. *)
Definition twoLines : string :=
  String "A"%char (String "010"%char "BC"%string).

Definition blankScreen : Renderer.state :=
  {| Renderer.fb := Some black4; Renderer.fonts := FontManager.empty |}.

(** A few calls: a highlighted cell, a letter beside it and a blended
    point below. *)
Definition sketch : list Renderer.call :=
  [Renderer.DrawRoundedRect 0 0 1 1 (f32.of_Z 4) style.ColorHighlight;
   Renderer.DrawString "A" false 1 0 1 style.ColorText;
   Renderer.SetPixelBlend 0 1 style.ColorDescription].

(** A leaf that draws nothing and reports the default item height. *)
Definition item : elm.Element :=
  elm.Leaf elm.Element_new (Some style.ListItemDefaultHeight) (fun _ => []).

(** [OverlayFrame("Title", "Sub")] whose content is a [List] of three
    items. *)
Definition titleFrame : elm.Element :=
  elm.setContent
    (elm.addItem item (elm.addItem item (elm.addItem item elm.List_new)))
    (elm.OverlayFrame_new "Title" "Sub").

Definition titleGui : Gui.t := Gui.new (Some titleFrame).

(** A surface with something on it. *)
Definition grey4 : Surface.t := [0xF888; 0x8FFF; 0x0F0F; 0xF000].

(** A screen whose frame holds a list of one item that draws [sketch]. *)
Definition sketchItem : elm.Element :=
  elm.Leaf elm.Element_new (Some 1) (fun _ => sketch).

Definition sketchGui : Gui.t :=
  Gui.new (Some (elm.setContent (elm.addItem sketchItem elm.List_new)
                                (elm.OverlayFrame_new "T" "S"))).

(** A navigation stack holding one screen at address 7, and two further
    live screens at 8 and 9. *)
Definition oneScreen : Overlay.t :=
  {| Overlay.m_guiStack := [7%nat];
     Overlay.guis := {[ 7%nat := Gui.new None; 8%nat := Gui.new None;
                        9%nat := Gui.new None ]};
     Overlay.m_shouldClose := false |}.


Definition noScreen : Overlay.t :=
  {| Overlay.m_guiStack := [];
     Overlay.guis := {[ 7%nat := Gui.new None ]};
     Overlay.m_shouldClose := false |}.

End Examples.

(** * Properties *)

(** ** Integer and bit-field facts *)

Lemma u8_small z : 0 <= z < 256 -> u8 z = z.
Proof. intros; unfold u8; apply Z.mod_small; lia. Qed.

Lemma u16_small z : 0 <= z < 65536 -> u16 z = z.
Proof. intros; unfold u16; apply Z.mod_small; lia. Qed.

Lemma u32_small z : 0 <= z < 4294967296 -> u32 z = z.
Proof. intros; unfold u32; apply Z.mod_small; lia. Qed.

Lemma testbit_small lo k n :
  0 <= k -> 0 <= lo < 2 ^ k -> k <= n -> Z.testbit lo n = false.
Proof.
  intros Hk Hlo Hn.
  rewrite <- (Z.mod_small lo (2 ^ k)) by lia.
  apply Z.mod_pow2_bits_high; lia.
Qed.

Lemma lor_shiftl_add lo hi k :
  0 <= k -> 0 <= lo < 2 ^ k -> Z.lor lo (Z.shiftl hi k) = lo + hi * 2 ^ k.
Proof.
  intros Hk Hlo.
  rewrite <- Z.add_nocarry_lor.
  { rewrite Z.shiftl_mul_pow2 by lia. reflexivity. }
  apply Z.bits_inj'; intros n Hn.
  rewrite Z.land_spec, Z.bits_0.
  destruct (Z.lt_ge_cases n k).
  - rewrite (Z.shiftl_spec_low hi k n) by lia. apply andb_false_r.
  - rewrite (testbit_small lo k n) by lia. reflexivity.
Qed.

Lemma land_15 z : Z.land z 15 = z mod 16.
Proof. change 15 with (Z.ones 4). rewrite Z.land_ones by lia. reflexivity. Qed.

Module ColorFacts.

Lemma r_mod c : Color.r c = c mod 16.
Proof. unfold Color.r. apply land_15. Qed.

Lemma g_mod c : Color.g c = (c / 16) mod 16.
Proof. unfold Color.g. rewrite land_15, Z.shiftr_div_pow2 by lia. reflexivity. Qed.

Lemma b_mod c : Color.b c = (c / 256) mod 16.
Proof. unfold Color.b. rewrite land_15, Z.shiftr_div_pow2 by lia. reflexivity. Qed.

Lemma a_mod c : Color.a c = (c / 4096) mod 16.
Proof. unfold Color.a. rewrite land_15, Z.shiftr_div_pow2 by lia. reflexivity. Qed.

Lemma r_range c : 0 <= Color.r c < 16.
Proof. rewrite r_mod. apply Z.mod_pos_bound; lia. Qed.

Lemma g_range c : 0 <= Color.g c < 16.
Proof. rewrite g_mod. apply Z.mod_pos_bound; lia. Qed.

Lemma b_range c : 0 <= Color.b c < 16.
Proof. rewrite b_mod. apply Z.mod_pos_bound; lia. Qed.

Lemma a_range c : 0 <= Color.a c < 16.
Proof. rewrite a_mod. apply Z.mod_pos_bound; lia. Qed.

(** The packed word of the four-component constructor. *)
Lemma make_sum r g b a :
  Color.make r g b a
  = r mod 16 + 16 * (g mod 16) + 256 * (b mod 16) + 4096 * (a mod 16).
Proof.
  unfold Color.make, u8.
  rewrite !land_15.
  assert (Hm : forall z, (z mod 2 ^ 8) mod 16 = z mod 16).
  { intros z. change (2 ^ 8) with (16 * 16).
    rewrite Z.rem_mul_r, Z.mul_comm, Z.mod_add by lia. apply Z.mod_mod; lia. }
  rewrite !Hm.
  pose proof (Z.mod_pos_bound r 16 ltac:(lia)).
  pose proof (Z.mod_pos_bound g 16 ltac:(lia)).
  pose proof (Z.mod_pos_bound b 16 ltac:(lia)).
  pose proof (Z.mod_pos_bound a 16 ltac:(lia)).
  rewrite (lor_shiftl_add (r mod 16)) by (change (2 ^ 4) with 16; lia).
  rewrite (lor_shiftl_add _ (b mod 16) 8) by (change (2 ^ 4) with 16; change (2 ^ 8) with 256; lia).
  rewrite (lor_shiftl_add _ (a mod 16) 12)
    by (change (2 ^ 4) with 16; change (2 ^ 8) with 256; change (2 ^ 12) with 4096; lia).
  change (2 ^ 4) with 16; change (2 ^ 8) with 256; change (2 ^ 12) with 4096.
  lia.
Qed.

Lemma make_fields r g b a :
  0 <= r < 16 -> 0 <= g < 16 -> 0 <= b < 16 -> 0 <= a < 16 ->
  Color.r (Color.make r g b a) = r /\ Color.g (Color.make r g b a) = g /\
  Color.b (Color.make r g b a) = b /\ Color.a (Color.make r g b a) = a.
Proof.
  intros Hr Hg Hb Ha.
  rewrite r_mod, g_mod, b_mod, a_mod, make_sum.
  rewrite (Z.mod_small r 16), (Z.mod_small g 16), (Z.mod_small b 16),
    (Z.mod_small a 16) by lia.
  repeat split; Z.div_mod_to_equations; lia.
Qed.

End ColorFacts.

(** ** Pixel primitives *)

Section PixelFacts.
Context {cfg : Config}.

Lemma pixel_offset x y :
  0 <= x < FramebufferWidth -> 0 <= y < FramebufferHeight ->
  u32 (u32 (y * FramebufferWidth) + x) = y * FramebufferWidth + x /\
  0 <= y * FramebufferWidth + x < FramebufferWidth * FramebufferHeight.
Proof.
  intros Hx Hy.
  pose proof FramebufferWidth_u16. pose proof FramebufferHeight_u16.
  assert (0 <= y * FramebufferWidth + x < FramebufferWidth * FramebufferHeight)
    by nia.
  split; [|assumption].
  rewrite (u32_small (y * FramebufferWidth)) by nia.
  apply u32_small. nia.
Qed.

Lemma in_bounds_test x y :
  0 <= x < FramebufferWidth -> 0 <= y < FramebufferHeight ->
  (x >=? FramebufferWidth) || (y >=? FramebufferHeight) = false.
Proof.
  intros. apply orb_false_iff.
  split; rewrite Z.geb_leb; apply Z.leb_gt; lia.
Qed.

Lemma out_of_bounds_test x y :
  x >= FramebufferWidth \/ y >= FramebufferHeight ->
  (x >=? FramebufferWidth) || (y >=? FramebufferHeight) = true.
Proof.
  intros [Hx | Hy]; apply orb_true_iff; [left | right];
    rewrite Z.geb_leb; apply Z.leb_le; lia.
Qed.

Lemma blendChannel_eq dst src alpha :
  0 <= alpha < 16 ->
  blendChannel dst src alpha = Z.shiftr (dst * (15 - alpha) + src * alpha) 4.
Proof. intros. unfold blendChannel. rewrite u8_small by lia. reflexivity. Qed.

Lemma blendChannel_range dst src alpha :
  0 <= dst < 16 -> 0 <= src < 16 -> 0 <= alpha < 16 ->
  0 <= blendChannel dst src alpha < 16.
Proof.
  intros. rewrite blendChannel_eq by lia.
  rewrite Z.shiftr_div_pow2 by lia. change (2 ^ 4) with 16.
  assert (0 <= dst * (15 - alpha) + src * alpha <= 225) by nia.
  split; [apply Z.div_pos; lia | apply Z.div_lt_upper_bound; lia].
Qed.

Lemma blendChannel_opaque dst src :
  0 <= src < 16 ->
  blendChannel dst src 15 = Z.shiftr (src * 15) 4 /\
  Z.shiftr (src * 15) 4 = Z.max 0 (src - 1).
Proof.
  intros. rewrite blendChannel_eq by lia.
  replace (dst * (15 - 15) + src * 15) with (src * 15) by lia.
  split; [reflexivity|].
  rewrite Z.shiftr_div_pow2 by lia. change (2 ^ 4) with 16.
  Z.div_mod_to_equations; lia.
Qed.

(** What [setPixelBlend] does at a cell of the surface when the source is
    not transparent. *)
Lemma setPixelBlend_in_bounds x y color fb :
  0 <= x < FramebufferWidth -> 0 <= y < FramebufferHeight ->
  Z.of_nat (length fb) = FramebufferWidth * FramebufferHeight ->
  Color.a color <> 0 ->
  exists dst,
    fb !! Z.to_nat (y * FramebufferWidth + x) = Some dst /\
    setPixelBlend x y color fb
    = Some (<[Z.to_nat (y * FramebufferWidth + x) :=
               Color.make
                 (blendChannel (Color.r dst) (Color.r color) (Color.a color))
                 (blendChannel (Color.g dst) (Color.g color) (Color.a color))
                 (blendChannel (Color.b dst) (Color.b color) (Color.a color))
                 (Color.a dst)]> fb).
Proof.
  intros Hx Hy Hlen Ha.
  destruct (pixel_offset x y Hx Hy) as [Hoff Hrange].
  unfold setPixelBlend.
  rewrite in_bounds_test by assumption.
  apply Z.eqb_neq in Ha. rewrite Ha. cbn [orb]. cbv zeta.
  rewrite Hoff. unfold Surface.load, Surface.store.
  assert (Hin : (0 <=? y * FramebufferWidth + x)
                && (y * FramebufferWidth + x <? Z.of_nat (length fb)) = true).
  { apply andb_true_iff. split; [apply Z.leb_le | apply Z.ltb_lt]; lia. }
  rewrite Hin.
  destruct (lookup_lt_is_Some_2 fb (Z.to_nat (y * FramebufferWidth + x)))
    as [dst Hdst]; [lia|].
  exists dst. split; [exact Hdst|]. rewrite Hdst. reflexivity.
Qed.

End PixelFacts.

(** C1. At a cell of the surface, a source colour whose alpha is not zero
    makes [setPixelBlend] write, in each of r, g and b,
    [(dst * (15 - srcA) + src * srcA) >> 4] and keep the alpha already
    there, every other cell being left as it was; a source colour whose
    alpha is zero leaves the whole surface as it was. *)
Theorem setPixelBlend_blends {cfg : Config} :
  (forall x y color (fb : Surface.t),
     0 <= x < FramebufferWidth -> 0 <= y < FramebufferHeight ->
     Z.of_nat (length fb) = FramebufferWidth * FramebufferHeight ->
     Color.a color <> 0 ->
     exists dst px,
       fb !! Z.to_nat (y * FramebufferWidth + x) = Some dst /\
       setPixelBlend x y color fb
       = Some (<[Z.to_nat (y * FramebufferWidth + x) := px]> fb) /\
       Color.r px
       = Z.shiftr (Color.r dst * (15 - Color.a color)
                   + Color.r color * Color.a color) 4 /\
       Color.g px
       = Z.shiftr (Color.g dst * (15 - Color.a color)
                   + Color.g color * Color.a color) 4 /\
       Color.b px
       = Z.shiftr (Color.b dst * (15 - Color.a color)
                   + Color.b color * Color.a color) 4 /\
       Color.a px = Color.a dst) /\
  (forall x y color (fb : Surface.t),
     Color.a color = 0 -> setPixelBlend x y color fb = Some fb).
Proof.
  split.
  - intros x y color fb Hx Hy Hlen Ha.
    destruct (setPixelBlend_in_bounds x y color fb Hx Hy Hlen Ha)
      as (dst & Hdst & Hres).
    eexists dst, _. split; [exact Hdst|]. split; [exact Hres|].
    pose proof (ColorFacts.a_range color) as Hra.
    pose proof (ColorFacts.make_fields _ _ _ _
      (blendChannel_range _ _ _ (ColorFacts.r_range dst) (ColorFacts.r_range color) Hra)
      (blendChannel_range _ _ _ (ColorFacts.g_range dst) (ColorFacts.g_range color) Hra)
      (blendChannel_range _ _ _ (ColorFacts.b_range dst) (ColorFacts.b_range color) Hra)
      (ColorFacts.a_range dst)) as (Hr & Hg & Hb & Ha').
    rewrite Hr, Hg, Hb, Ha', !blendChannel_eq by assumption.
    repeat split.
  - intros x y color fb Ha. unfold setPixelBlend.
    rewrite Ha. cbn [Z.eqb]. rewrite orb_true_r. reflexivity.
Qed.

Lemma setPixelBlend_blends_witness :
  exists dst px,
    Examples.black4 !! Z.to_nat (1 * 2 + 1) = Some dst /\
    setPixelBlend (cfg := Examples.cfg2x2) 1 1 0x8F5A Examples.black4
    = Some (<[Z.to_nat (1 * 2 + 1) := px]> Examples.black4) /\
    Color.r px = Z.shiftr (Color.r dst * (15 - 8) + 10 * 8) 4 /\
    Color.a px = Color.a dst.
Proof.
  destruct (proj1 (setPixelBlend_blends (cfg := Examples.cfg2x2))
              1 1 0x8F5A Examples.black4)
    as (dst & px & Hd & Hs & Hr & _ & _ & Ha).
  - cbn. lia.
  - cbn. lia.
  - reflexivity.
  - vm_compute. discriminate.
  - exists dst, px. repeat split; assumption.
Defined.

(** C9. Outside the surface ([x] not below the width or [y] not below the
    height) [setPixel] and [setPixelBlend] finish without a fault, that
    is without having read or written any cell, and the surface they
    leave is the one they were given. *)
Theorem out_of_bounds_is_noop {cfg : Config} x y color (fb : Surface.t) :
  x >= FramebufferWidth \/ y >= FramebufferHeight ->
  setPixel x y color fb = Some fb /\ setPixelBlend x y color fb = Some fb.
Proof.
  intros Hout. unfold setPixel, setPixelBlend.
  rewrite out_of_bounds_test by assumption. split; reflexivity.
Qed.

Lemma out_of_bounds_is_noop_witness :
  setPixel (cfg := Examples.cfg2x2) 2 0 0xFFFF Examples.black4
    = Some Examples.black4 /\
  setPixelBlend (cfg := Examples.cfg2x2) 2 0 0xFFFF Examples.black4
    = Some Examples.black4.
Proof.
  apply (out_of_bounds_is_noop (cfg := Examples.cfg2x2) 2 0 0xFFFF Examples.black4).
  left. cbn. lia.
Defined.

(** C2, as the code has it.  With a fully opaque source (alpha 15) each of
    r, g and b becomes [(src * 15) >> 4], which is [src - 1] for a source
    channel that is not zero and 0 for one that is; the value does not
    depend on what the cell held, and the cell keeps its alpha. *)
Theorem setPixelBlend_opaque {cfg : Config} x y color (fb : Surface.t) :
  0 <= x < FramebufferWidth -> 0 <= y < FramebufferHeight ->
  Z.of_nat (length fb) = FramebufferWidth * FramebufferHeight ->
  Color.a color = 15 ->
  exists dst px,
    fb !! Z.to_nat (y * FramebufferWidth + x) = Some dst /\
    setPixelBlend x y color fb
    = Some (<[Z.to_nat (y * FramebufferWidth + x) := px]> fb) /\
    Color.r px = Z.shiftr (Color.r color * 15) 4 /\
    Color.g px = Z.shiftr (Color.g color * 15) 4 /\
    Color.b px = Z.shiftr (Color.b color * 15) 4 /\
    Color.r px = Z.max 0 (Color.r color - 1) /\
    Color.g px = Z.max 0 (Color.g color - 1) /\
    Color.b px = Z.max 0 (Color.b color - 1) /\
    Color.a px = Color.a dst.
Proof.
  intros Hx Hy Hlen Ha.
  destruct (setPixelBlend_in_bounds x y color fb Hx Hy Hlen) as (dst & Hdst & Hres).
  { rewrite Ha. discriminate. }
  eexists dst, _. split; [exact Hdst|]. split; [exact Hres|].
  rewrite Ha.
  assert (H15 : 0 <= 15 < 16) by lia.
  pose proof (ColorFacts.make_fields _ _ _ _
    (blendChannel_range _ _ _ (ColorFacts.r_range dst) (ColorFacts.r_range color) H15)
    (blendChannel_range _ _ _ (ColorFacts.g_range dst) (ColorFacts.g_range color) H15)
    (blendChannel_range _ _ _ (ColorFacts.b_range dst) (ColorFacts.b_range color) H15)
    (ColorFacts.a_range dst)) as (Hr & Hg & Hb & Ha').
  rewrite Hr, Hg, Hb, Ha'.
  destruct (blendChannel_opaque (Color.r dst) _ (ColorFacts.r_range color)) as [-> Er].
  destruct (blendChannel_opaque (Color.g dst) _ (ColorFacts.g_range color)) as [-> Eg].
  destruct (blendChannel_opaque (Color.b dst) _ (ColorFacts.b_range color)) as [-> Eb].
  repeat split; assumption.
Qed.

Lemma setPixelBlend_opaque_witness :
  exists dst px,
    Examples.black4 !! Z.to_nat (0 * 2 + 0) = Some dst /\
    setPixelBlend (cfg := Examples.cfg2x2) 0 0 0xFFFF Examples.black4
    = Some (<[Z.to_nat (0 * 2 + 0) := px]> Examples.black4) /\
    Color.r px = 14 /\ Color.a px = Color.a dst.
Proof.
  destruct (setPixelBlend_opaque (cfg := Examples.cfg2x2) 0 0 0xFFFF Examples.black4)
    as (dst & px & Hd & Hs & Hr & _ & _ & _ & _ & _ & Ha).
  - cbn. lia.
  - cbn. lia.
  - reflexivity.
  - reflexivity.
  - exists dst, px. repeat split; assumption.
Defined.

(** C2 as it is worded fails: a white, fully opaque source written over a
    black cell leaves r = g = b = 14, not the source's 15. *)
Lemma setPixelBlend_opaque_not_exact :
  Color.a 0xFFFF = 15 /\
  exists px,
    setPixelBlend (cfg := Examples.cfg2x2) 0 0 0xFFFF Examples.black4
    = Some [px; 0; 0; 0] /\
    Color.r px = 14 /\ Color.g px = 14 /\ Color.b px = 14 /\
    Color.r 0xFFFF = 15 /\ Color.g 0xFFFF = 15 /\ Color.b 0xFFFF = 15 /\
    Color.r px <> Color.r 0xFFFF.
Proof.
  split; [reflexivity|].
  eexists. split; [vm_compute; reflexivity|].
  vm_compute. repeat split; discriminate.
Qed.

(** ** Glyph cache *)

Module GlyphCacheFacts.
Import FontManager GlyphCache.

(** The packed key as a sum, for a character below [2 ^ 31]. *)
Lemma cacheKey_sum c m sz :
  0 <= c < 2 ^ 31 -> 0 <= sz < 2 ^ 32 ->
  cacheKey c m sz = sz + c * 2 ^ 32 + (if m then 2 ^ 63 else 0).
Proof.
  intros Hc Hsz. unfold cacheKey.
  assert (E : Z.lor (u64 (Z.shiftl c 32)) sz = sz + c * 2 ^ 32).
  { unfold u64. rewrite (Z.mod_small (Z.shiftl c 32)).
    - rewrite Z.lor_comm. apply lor_shiftl_add; lia.
    - rewrite Z.shiftl_mul_pow2; lia. }
  rewrite E. destruct m; [|lia].
  rewrite (lor_shiftl_add _ 1 63) by lia. lia.
Qed.

Lemma cacheKey_inj c m sz c' m' sz' :
  0 <= c < 2 ^ 31 -> 0 <= sz < 2 ^ 32 ->
  0 <= c' < 2 ^ 31 -> 0 <= sz' < 2 ^ 32 ->
  cacheKey c m sz = cacheKey c' m' sz' -> c = c' /\ m = m' /\ sz = sz'.
Proof.
  intros Hc Hsz Hc' Hsz'. rewrite !cacheKey_sum by assumption.
  destruct m, m'; intros E; repeat split; lia.
Qed.

(** Bit 31 of the character and the monospace flag land on the same bit
    of the key. *)
Lemma cacheKey_bit63_shared sz :
  cacheKey (2 ^ 31) false sz = cacheKey (2 ^ 31) true sz.
Proof.
  unfold cacheKey. change (u64 (Z.shiftl (2 ^ 31) 32)) with (Z.shiftl 1 63).
  rewrite <- Z.lor_assoc, (Z.lor_comm sz), Z.lor_assoc, Z.lor_diag. reflexivity.
Qed.

#[local] Arguments cacheKey : simpl never.
#[local] Arguments makeGlyph : simpl never.

Section WithFont.
Context {font : FontEngine}.

Lemma getOrCreateGlyph_cached c m sz st :
  s_glyphCache (snd (getOrCreateGlyph c m sz st)) !! cacheKey c m sz
  = Some (fst (getOrCreateGlyph c m sz st)).
Proof.
  unfold getOrCreateGlyph.
  destruct (s_glyphCache st !! cacheKey c m sz) eqn:E; cbn.
  - exact E.
  - apply lookup_insert_eq.
Qed.

Lemma getOrCreateGlyph_keeps c m sz st k p :
  s_glyphCache st !! k = Some p ->
  s_glyphCache (snd (getOrCreateGlyph c m sz st)) !! k = Some p.
Proof.
  intros Hk. unfold getOrCreateGlyph.
  destruct (s_glyphCache st !! cacheKey c m sz) eqn:E; cbn; [exact Hk|].
  rewrite lookup_insert_ne; [exact Hk|]. congruence.
Qed.

Lemma getOrCreateGlyph_hit c m sz st p :
  s_glyphCache st !! cacheKey c m sz = Some p ->
  getOrCreateGlyph c m sz st = (p, st).
Proof. intros E. unfold getOrCreateGlyph. rewrite E. reflexivity. Qed.

Lemma getOrCreateGlyph_wf c m sz st :
  wf st -> wf (snd (getOrCreateGlyph c m sz st)).
Proof.
  intros [Hb Hi]. unfold getOrCreateGlyph.
  destruct (s_glyphCache st !! cacheKey c m sz) eqn:E; cbn; [split; assumption|].
  split; cbn.
  - intros k p. rewrite lookup_insert.
    destruct (decide (cacheKey c m sz = k)) as [Ek|Hne]; cbn.
    + intros [= <-]. cbn. lia.
    + intros Hk. specialize (Hb _ _ Hk). lia.
  - intros k1 k2 p1 p2. rewrite !lookup_insert.
    destruct (decide (cacheKey c m sz = k1)) as [E1|N1],
             (decide (cacheKey c m sz = k2)) as [E2|N2]; cbn.
    + congruence.
    + intros [= <-] H2 Ha. cbn in Ha. specialize (Hb _ _ H2). lia.
    + intros H1 [= <-] Ha. cbn in Ha. specialize (Hb _ _ H1). lia.
    + apply Hi.
Qed.

Lemma empty_wf : wf FontManager.empty.
Proof. split; cbn; intros *; rewrite lookup_empty; discriminate. Qed.

Lemma requests_wf rs st : wf st -> wf (requests rs st).
Proof.
  revert st. induction rs as [|[[c m] sz] rs IH]; intros st Hst; [exact Hst|].
  apply IH. apply getOrCreateGlyph_wf, Hst.
Qed.

Lemma requests_keeps rs st k p :
  s_glyphCache st !! k = Some p -> s_glyphCache (requests rs st) !! k = Some p.
Proof.
  revert st. induction rs as [|[[c m] sz] rs IH]; intros st Hk; [exact Hk|].
  apply IH. apply getOrCreateGlyph_keeps, Hk.
Qed.

Lemma empty_consistent : consistent FontManager.empty.
Proof. intros c m sz p _ _. cbn. rewrite lookup_empty. discriminate. Qed.

Lemma getOrCreateGlyph_consistent c m sz st :
  0 <= c < 2 ^ 31 -> 0 <= sz < 2 ^ 32 -> consistent st ->
  obj (fst (getOrCreateGlyph c m sz st)) = makeGlyph c sz /\
  consistent (snd (getOrCreateGlyph c m sz st)).
Proof.
  intros Hc Hsz Hst. unfold getOrCreateGlyph.
  destruct (s_glyphCache st !! cacheKey c m sz) as [p|] eqn:E; cbn.
  - split; [eapply Hst; eassumption | exact Hst].
  - split; [reflexivity|].
    intros c' m' sz' p Hc' Hsz'. cbn. rewrite lookup_insert.
    destruct (decide (cacheKey c m sz = cacheKey c' m' sz')) as [Ek|Hne]; cbn.
    + intros [= <-]. cbn.
      destruct (cacheKey_inj _ _ _ _ _ _ Hc Hsz Hc' Hsz' Ek) as (-> & _ & ->).
      reflexivity.
    + apply Hst; assumption.
Qed.

(** Calls whose arguments are in range keep the cache consistent, so
    every cache built by such calls from the empty one is. *)
Lemma requests_consistent rs st :
  Forall (fun '(c, _, sz) => 0 <= c < 2 ^ 31 /\ 0 <= sz < 2 ^ 32) rs ->
  consistent st -> consistent (requests rs st).
Proof.
  intros Hrs. revert st.
  induction Hrs as [|[[c m] sz] rs [Hc Hsz] Hrs IH]; intros st Hst; [exact Hst|].
  apply IH. apply getOrCreateGlyph_consistent; assumption.
Qed.

End WithFont.
End GlyphCacheFacts.

(** The keys in the cache are the keys that were looked up, one entry
    for each. *)
Module GlyphCountFacts.
Import FontManager GlyphCache.

#[local] Arguments cacheKey : simpl never.
#[local] Arguments makeGlyph : simpl never.

Lemma key_inj r1 r2 : inRange r1 -> inRange r2 -> key r1 = key r2 -> r1 = r2.
Proof.
  destruct r1 as [[c1 m1] sz1], r2 as [[c2 m2] sz2]. cbn.
  intros [Hc1 Hs1] [Hc2 Hs2] E.
  destruct (GlyphCacheFacts.cacheKey_inj _ _ _ _ _ _ Hc1 Hs1 Hc2 Hs2 E)
    as (-> & -> & ->).
  reflexivity.
Qed.

Section WithFont.
Context {font : FontEngine}.

Lemma dom_getOrCreateGlyph c m sz st :
  dom (s_glyphCache (snd (getOrCreateGlyph c m sz st)))
  = {[cacheKey c m sz]} ∪ dom (s_glyphCache st).
Proof.
  unfold getOrCreateGlyph.
  destruct (s_glyphCache st !! cacheKey c m sz) eqn:E; cbn.
  - symmetry. apply subseteq_union_1_L, singleton_subseteq_l.
    apply elem_of_dom. rewrite E. eauto.
  - apply dom_insert_L.
Qed.

Lemma dom_requests rs st :
  dom (s_glyphCache (requests rs st))
  = list_to_set (key <$> rs) ∪ dom (s_glyphCache st).
Proof.
  revert st. induction rs as [|[[c m] sz] rs IH]; intros st.
  - cbn. rewrite (left_id_L ∅ (∪)). reflexivity.
  - change (requests (((c, m), sz) :: rs) st)
      with (requests rs (snd (getOrCreateGlyph c m sz st))).
    rewrite IH, dom_getOrCreateGlyph. cbn [fmap list_fmap list_to_set key].
    rewrite (assoc_L (∪)).
    rewrite (comm_L (∪) (list_to_set (key <$> rs)) {[cacheKey c m sz]}).
    reflexivity.
Qed.

End WithFont.

Lemma size_keys (rs : list request) :
  Forall inRange rs ->
  size (list_to_set (key <$> rs) : gset Z) = length (remove_dups rs).
Proof.
  induction 1 as [|r rs Hr Hrs IH]; [reflexivity|].
  cbn [fmap list_fmap list_to_set remove_dups].
  destruct (decide_rel elem_of r rs) as [Hin|Hout].
  - rewrite <- IH. f_equal.
    apply subseteq_union_1_L, singleton_subseteq_l.
    apply elem_of_list_to_set, list_elem_of_fmap. eauto.
  - cbn [length]. rewrite <- IH.
    rewrite size_union, size_singleton; [reflexivity|].
    apply disjoint_singleton_l. intros Hk.
    apply elem_of_list_to_set, list_elem_of_fmap in Hk.
    destruct Hk as (r' & Ek & Hr').
    apply Hout. rewrite (key_inj r r' Hr); [exact Hr' | | exact Ek].
    rewrite Forall_forall in Hrs. apply Hrs, Hr'.
Qed.

End GlyphCountFacts.

(** C8. From any state the cache can be in (the one any sequence [pre] of
    calls leaves), a call for a triple puts the glyph it returns into the
    cache under the key of the triple; a later call for the same triple,
    whatever calls are made in between, returns that same pointer and
    adds nothing to the cache.  A call for any other triple, be it
    another code point, another [monospace] or another [fontSize], has
    another key and returns a pointer to another allocation, and both
    entries are in the cache afterwards.  After any calls, the cache has
    exactly one entry for each distinct triple that was asked for.  The
    packing of the key is injective on triples whose character is below
    [2 ^ 31], which every code point is. *)
Theorem glyph_cache_one_entry_per_triple {font : FontEngine}
    (pre mid : list GlyphCache.request) (c : Z) (m : bool) (sz : Z)
    (c' : Z) (m' : bool) (sz' : Z) :
  0 <= c < 2 ^ 31 -> 0 <= sz < 2 ^ 32 ->
  0 <= c' < 2 ^ 31 -> 0 <= sz' < 2 ^ 32 ->
  let st := GlyphCache.requests pre FontManager.empty in
  let first := FontManager.getOrCreateGlyph c m sz st in
  let st2 := GlyphCache.requests mid (snd first) in
  let other := FontManager.getOrCreateGlyph c' m' sz' st2 in
  FontManager.s_glyphCache (snd first) !! FontManager.cacheKey c m sz
  = Some (fst first) /\
  FontManager.getOrCreateGlyph c m sz st2 = (fst first, st2) /\
  ((c', m', sz') <> (c, m, sz) ->
   FontManager.cacheKey c' m' sz' <> FontManager.cacheKey c m sz /\
   FontManager.addr (fst other) <> FontManager.addr (fst first) /\
   FontManager.s_glyphCache (snd other) !! FontManager.cacheKey c' m' sz'
   = Some (fst other) /\
   FontManager.s_glyphCache (snd other) !! FontManager.cacheKey c m sz
   = Some (fst first)) /\
  (forall rs,
     Forall GlyphCache.inRange rs ->
     size (FontManager.s_glyphCache (GlyphCache.requests rs FontManager.empty))
     = length (remove_dups rs)) /\
  (forall c2 m2 sz2,
     0 <= c2 < 2 ^ 31 -> 0 <= sz2 < 2 ^ 32 ->
     FontManager.cacheKey c m sz = FontManager.cacheKey c2 m2 sz2 ->
     (c, m, sz) = (c2, m2, sz2)).
Proof.
  intros Hc Hsz Hc' Hsz' st first st2 other.
  assert (Hcached : FontManager.s_glyphCache st2 !! FontManager.cacheKey c m sz
                    = Some (fst first)).
  { apply GlyphCacheFacts.requests_keeps, GlyphCacheFacts.getOrCreateGlyph_cached. }
  split; [apply GlyphCacheFacts.getOrCreateGlyph_cached|].
  split; [apply GlyphCacheFacts.getOrCreateGlyph_hit, Hcached|].
  split; [|split].
  - intros Hne.
    assert (Hk : FontManager.cacheKey c' m' sz' <> FontManager.cacheKey c m sz).
    { intros Ek.
      destruct (GlyphCacheFacts.cacheKey_inj _ _ _ _ _ _ Hc' Hsz' Hc Hsz Ek)
        as (-> & -> & ->).
      apply Hne. reflexivity. }
    assert (Hwf : GlyphCache.wf (snd other)).
    { apply GlyphCacheFacts.getOrCreateGlyph_wf, GlyphCacheFacts.requests_wf,
        GlyphCacheFacts.getOrCreateGlyph_wf, GlyphCacheFacts.requests_wf,
        GlyphCacheFacts.empty_wf. }
    pose proof (GlyphCacheFacts.getOrCreateGlyph_cached c' m' sz' st2) as Ho.
    pose proof (GlyphCacheFacts.getOrCreateGlyph_keeps c' m' sz' st2 _ _ Hcached)
      as Hf.
    split; [exact Hk|]. split; [|split; [exact Ho | exact Hf]].
    intros Haddr. apply Hk.
    exact (GlyphCache.wf_inj _ Hwf _ _ _ _ Ho Hf Haddr).
  - intros rs Hrs.
    rewrite <- size_dom, GlyphCountFacts.dom_requests.
    change (FontManager.s_glyphCache FontManager.empty) with (∅ : gmap Z FontManager.GlyphPtr).
    rewrite dom_empty_L, (right_id_L ∅ (∪)).
    apply GlyphCountFacts.size_keys, Hrs.
  - intros c2 m2 sz2 Hc2 Hsz2 Ek.
    destruct (GlyphCacheFacts.cacheKey_inj _ _ _ _ _ _ Hc Hsz Hc2 Hsz2 Ek)
      as (-> & -> & ->).
    reflexivity.
Qed.

Lemma glyph_cache_one_entry_per_triple_witness :
  let st := GlyphCache.requests (font := Examples.halfFont) [] FontManager.empty in
  let first := FontManager.getOrCreateGlyph (font := Examples.halfFont) 65 false 12 st in
  let st2 := GlyphCache.requests (font := Examples.halfFont) [(66, false, 12)] (snd first) in
  let mono := FontManager.getOrCreateGlyph (font := Examples.halfFont) 65 true 12 st2 in
  FontManager.s_glyphCache (snd first) !! FontManager.cacheKey 65 false 12
  = Some (fst first) /\
  FontManager.getOrCreateGlyph (font := Examples.halfFont) 65 false 12 st2
  = (fst first, st2) /\
  FontManager.addr (fst mono) <> FontManager.addr (fst first) /\
  FontManager.addr
    (fst (FontManager.getOrCreateGlyph (font := Examples.halfFont) 66 false 12 st2))
  <> FontManager.addr (fst first) /\
  FontManager.s_glyphCache (snd mono) !! FontManager.cacheKey 65 false 12
  = Some (fst first) /\
  size (FontManager.s_glyphCache
          (GlyphCache.requests (font := Examples.halfFont)
             [(65, false, 12); (66, false, 12); (65, false, 12); (65, true, 12)]
             FontManager.empty)) = 3%nat.
Proof.
  destruct (glyph_cache_one_entry_per_triple (font := Examples.halfFont)
              [] [(66, false, 12)] 65 false 12 65 true 12)
    as (Hin & Hsame & Hother & Hsize & _); [lia | lia | lia | lia |].
  destruct Hother as (_ & Haddr & _ & Hkept); [discriminate|].
  destruct (glyph_cache_one_entry_per_triple (font := Examples.halfFont)
              [] [(66, false, 12)] 65 false 12 66 false 12)
    as (_ & _ & Hletter & _); [lia | lia | lia | lia |].
  destruct Hletter as (_ & Haddr' & _); [discriminate|].
  split; [exact Hin|]. split; [exact Hsame|]. split; [exact Haddr|].
  split; [exact Haddr'|]. split; [exact Hkept|].
  apply (Hsize [(65, false, 12); (66, false, 12); (65, false, 12); (65, true, 12)]).
  repeat constructor; cbn; lia.
Defined.

(** ** Navigation stack *)

Module OverlayFacts.
Import Overlay.

Lemma dropTop_cons gui rest o g :
  m_guiStack o = gui :: rest -> guis o !! gui = Some g ->
  dropTop o = Some {| m_guiStack := rest; guis := delete gui (guis o);
                      m_shouldClose := m_shouldClose o |}.
Proof.
  intros Hs Hg. unfold dropTop, top, delete_gui, pop.
  rewrite Hs. cbn. rewrite Hg. cbn. reflexivity.
Qed.

Lemma getCurrentGui_cons gui rest o :
  m_guiStack o = gui :: rest -> getCurrentGui o = Some gui.
Proof.
  intros Hs. unfold getCurrentGui, top. rewrite Hs.
  rewrite bool_decide_eq_false_2 by discriminate. reflexivity.
Qed.

End OverlayFacts.

(** C5. After [pushGui(A)] and [pushGui(B)] the store of screens is the
    one before the pushes, so neither push destroys or changes a screen;
    dropping the top (by [pop] alone, or by the [delete]-and-[pop] pair)
    leaves [A] current and [A]'s object as it was.  With [B] on top,
    [changeGui(C)] destroys [B], makes [C] current, leaves the entries
    beneath in place and leaves every other screen object as it was.
    [B] is a live screen distinct from [A] and from the screens beneath. *)
Theorem navigation_push_drop_change (o : Overlay.t) (A B C : nat) (gB : Gui.t) :
  Overlay.guis o !! B = Some gB ->
  B ∉ A :: Overlay.m_guiStack o ->
  let o2 := Overlay.pushGui B (Overlay.pushGui A o) in
  Overlay.guis o2 = Overlay.guis o /\
  Overlay.getCurrentGui o2 = Some B /\
  Overlay.pop o2 = Some (Overlay.pushGui A o) /\
  Overlay.getCurrentGui (Overlay.pushGui A o) = Some A /\
  (exists o3,
     Overlay.dropTop o2 = Some o3 /\
     Overlay.getCurrentGui o3 = Some A /\
     Overlay.m_guiStack o3 = A :: Overlay.m_guiStack o /\
     Overlay.guis o3 !! A = Overlay.guis o !! A) /\
  (exists o4,
     Overlay.changeGui C o2 = Some o4 /\
     Overlay.guis o4 !! B = None /\
     Overlay.getCurrentGui o4 = Some C /\
     Overlay.m_guiStack o4 = C :: A :: Overlay.m_guiStack o /\
     (forall g, g <> B -> Overlay.guis o4 !! g = Overlay.guis o !! g) /\
     (forall g, g ∈ A :: Overlay.m_guiStack o ->
                Overlay.guis o4 !! g = Overlay.guis o !! g)).
Proof.
  intros HB Hfresh o2.
  assert (HAB : A <> B) by (intros ->; apply Hfresh; left).
  assert (Hdrop : Overlay.dropTop o2
                  = Some {| Overlay.m_guiStack := A :: Overlay.m_guiStack o;
                            Overlay.guis := delete B (Overlay.guis o);
                            Overlay.m_shouldClose := Overlay.m_shouldClose o |}).
  { apply (OverlayFacts.dropTop_cons B _ o2 gB); [reflexivity | exact HB]. }
  split; [reflexivity|]. split; [reflexivity|].
  split; [destruct o; reflexivity|]. split; [reflexivity|]. split.
  - eexists. split; [exact Hdrop|]. cbn.
    split; [reflexivity|]. split; [reflexivity|].
    apply lookup_delete_ne. congruence.
  - eexists. split.
    { unfold Overlay.changeGui.
      rewrite bool_decide_eq_false_2 by discriminate.
      rewrite Hdrop. reflexivity. }
    cbn. split; [apply lookup_delete_eq|].
    split; [reflexivity|]. split; [reflexivity|]. split.
    + intros g Hg. apply lookup_delete_ne. congruence.
    + intros g Hg. apply lookup_delete_ne. intros ->. apply Hfresh, Hg.
Qed.

Lemma navigation_push_drop_change_witness :
  let o2 := Overlay.pushGui 9 (Overlay.pushGui 8 Examples.oneScreen) in
  (exists o3,
     Overlay.dropTop o2 = Some o3 /\ Overlay.getCurrentGui o3 = Some 8%nat) /\
  (exists o4,
     Overlay.changeGui 10 o2 = Some o4 /\
     Overlay.guis o4 !! 9%nat = None /\
     Overlay.getCurrentGui o4 = Some 10%nat).
Proof.
  destruct (navigation_push_drop_change Examples.oneScreen 8 9 10 (Gui.new None))
    as (_ & _ & _ & _ & (o3 & H3 & H3c & _) & (o4 & H4 & H4b & H4c & _)).
  - vm_compute. reflexivity.
  - apply (bool_decide_eq_true_1 (9%nat ∉ 8%nat :: Overlay.m_guiStack Examples.oneScreen)).
    vm_compute. reflexivity.
  - split; [exists o3 | exists o4]; repeat split; assumption.
Defined.

(** C10. On an empty stack [changeGui] completes without a fault, leaves
    the store of screens as it was (nothing is destroyed), and the screen
    it is given is then the only entry and the current screen. *)
Theorem changeGui_on_empty_stack (o : Overlay.t) (gui : nat) :
  Overlay.m_guiStack o = [] ->
  exists o',
    Overlay.changeGui gui o = Some o' /\
    Overlay.guis o' = Overlay.guis o /\
    Overlay.m_guiStack o' = [gui] /\
    Overlay.getCurrentGui o' = Some gui.
Proof.
  intros Hempty. eexists. split.
  - unfold Overlay.changeGui.
    rewrite bool_decide_eq_true_2 by exact Hempty. reflexivity.
  - cbn. rewrite Hempty. repeat split.
Qed.

Lemma changeGui_on_empty_stack_witness :
  exists o',
    Overlay.changeGui 7 Examples.noScreen = Some o' /\
    Overlay.guis o' = Overlay.guis Examples.noScreen /\
    Overlay.m_guiStack o' = [7%nat] /\
    Overlay.getCurrentGui o' = Some 7%nat.
Proof.
  apply (changeGui_on_empty_stack Examples.noScreen 7). reflexivity.
Defined.

(** ** Layout *)

Module LayoutFacts.
Import elm Layout.

Lemma base_layout e x y w h :
  base (layout e x y w h) = setBoundaries x y w h (base e).
Proof. destruct e; reflexivity. Qed.

(** [getHeight()] of an item just laid out with its own height differs
    from the height before by a multiple of [2 ^ 16] at most. *)
Lemma getHeight_layout e x y w :
  u16 (getHeight (layout e x y w (u16 (getHeight e)))) = u16 (getHeight e).
Proof.
  destruct e as [b [k|] d | b items s | b t s c]; cbn;
    try reflexivity; unfold u16; apply Z.mod_mod; lia.
Qed.

Lemma layout_List b items s x y w h :
  layout (List b items s) x y w h
  = List (setBoundaries x y w h b) (layoutItems items x (u16 (y - s)) w) s.
Proof.
  cbn. f_equal. generalize (u16 (y - s)).
  induction items as [|item rest IH]; intros currY; [reflexivity|].
  cbn. f_equal. apply IH.
Qed.

Lemma layout_OverlayFrame b t s content x y w h :
  layout (OverlayFrame b t s (Some content)) x y w h
  = OverlayFrame (setBoundaries x y w h b) t s
      (Some (layout content (u16 (x + 20)) (u16 (y + 100))
                    (u16 (w - 40)) (u16 (h - 150)))).
Proof. reflexivity. Qed.

Lemma u16_add_u16 a b : u16 (u16 a + b) = u16 (a + b).
Proof. unfold u16. apply Z.add_mod_idemp_l. lia. Qed.

Lemma u16_add_r a b b' : u16 b' = u16 b -> u16 (a + b') = u16 (a + b).
Proof.
  unfold u16. intros E.
  rewrite <- (Z.add_mod_idemp_r a b'), E, Z.add_mod_idemp_r by lia. reflexivity.
Qed.

(** The loop of [List::layout]: item [i] is laid out at the list's [x]
    and width, at the start position plus the heights of the items before
    it (in [u16]), with its own height. *)
Lemma layoutItems_lookup items x start w i c :
  items !! i = Some c ->
  layoutItems items x (u16 start) w !! i
  = Some (layout c x (u16 (start + heightsBefore i items)) w (u16 (getHeight c))).
Proof.
  revert start i. induction items as [|item rest IH]; intros start i Hi.
  - rewrite lookup_nil in Hi. discriminate.
  - destruct i as [|i].
    + cbn in Hi. injection Hi as ->. cbn.
      unfold heightsBefore. cbn. rewrite Z.add_0_r. reflexivity.
    + cbn in Hi. cbn [layoutItems]. cbv zeta. rewrite lookup_cons_ne_0 by lia.
      cbn [Nat.pred].
      rewrite (u16_add_r _ (getHeight item)) by apply getHeight_layout.
      rewrite u16_add_u16.
      rewrite (IH (start + getHeight item) i Hi).
      unfold heightsBefore. cbn. do 3 f_equal. lia.
Qed.

Lemma length_layoutItems items x currY w :
  length (layoutItems items x currY w) = length items.
Proof.
  revert currY. induction items as [|item rest IH]; intros currY; cbn;
    [reflexivity | f_equal; apply IH].
Qed.

End LayoutFacts.

(** C7, as the code has it.  A [List] with three children whose
    [getHeight()] is [h1], [h2], [h3], laid out at [(x, y)] with width [w]
    and scroll offset [s]: the children are placed at [y - s],
    [y - s + h1], [y - s + h1 + h2], these sums being taken in the [u16]
    of the coordinates, each at the list's [x], with the list's width and
    its own height (in [u16]).  When [y - s] and the heights are not
    negative and the sums stay below [2 ^ 16] they are the positions
    themselves; for [s = 0] these are [y], [y + h1], [y + h1 + h2]. *)
Theorem list_layout_stacks_children (b : elm.ElementBase)
    (c1 c2 c3 : elm.Element) (s x y w h : Z) :
  let h1 := elm.getHeight c1 in
  let h2 := elm.getHeight c2 in
  let h3 := elm.getHeight c3 in
  exists c1' c2' c3',
    elm.layout (elm.List b [c1; c2; c3] s) x y w h
    = elm.List (elm.setBoundaries x y w h b) [c1'; c2'; c3'] s /\
    (elm.getY c1' = u16 (y - s) /\
     elm.getY c2' = u16 (y - s + h1) /\
     elm.getY c3' = u16 (y - s + h1 + h2)) /\
    (elm.getX c1' = x /\ elm.getX c2' = x /\ elm.getX c3' = x) /\
    (elm.getWidth c1' = w /\ elm.getWidth c2' = w /\ elm.getWidth c3' = w) /\
    (elm.m_height (elm.base c1') = u16 h1 /\
     elm.m_height (elm.base c2') = u16 h2 /\
     elm.m_height (elm.base c3') = u16 h3) /\
    (0 <= y - s -> 0 <= h1 -> 0 <= h2 -> y - s + h1 + h2 < 2 ^ 16 ->
     elm.getY c1' = y - s /\
     elm.getY c2' = y - s + h1 /\
     elm.getY c3' = y - s + h1 + h2).
Proof.
  intros h1 h2 h3.
  pose proof (LayoutFacts.layoutItems_lookup [c1; c2; c3] x (y - s) w 0 c1 eq_refl) as E1.
  pose proof (LayoutFacts.layoutItems_lookup [c1; c2; c3] x (y - s) w 1 c2 eq_refl) as E2.
  pose proof (LayoutFacts.layoutItems_lookup [c1; c2; c3] x (y - s) w 2 c3 eq_refl) as E3.
  unfold Layout.heightsBefore in E1, E2, E3. cbn in E1, E2, E3.
  injection E1 as E1. injection E2 as E2. injection E3 as E3.
  eexists _, _, _. split.
  { rewrite LayoutFacts.layout_List. reflexivity. }
  cbn [elm.layoutItems]. cbv zeta.
  unfold elm.getX, elm.getY, elm.getWidth.
  rewrite E3, E2, !LayoutFacts.base_layout. cbn.
  replace (y - s + (elm.getHeight c1 + 0)) with (y - s + h1) by (subst h1; lia).
  replace (y - s + (elm.getHeight c1 + (elm.getHeight c2 + 0)))
    with (y - s + h1 + h2) by (subst h1 h2; lia).
  repeat split; try reflexivity.
  - apply u16_small. lia.
  - apply u16_small. lia.
  - apply u16_small. lia.
Qed.

Lemma list_layout_stacks_children_witness :
  exists c1' c2' c3',
    elm.layout (elm.List elm.Element_new
                  [Examples.item; Examples.item; Examples.item] 0) 20 100 1240 570
    = elm.List (elm.setBoundaries 20 100 1240 570 elm.Element_new) [c1'; c2'; c3'] 0 /\
    elm.getY c1' = 100 /\ elm.getY c2' = 170 /\ elm.getY c3' = 240.
Proof.
  destruct (list_layout_stacks_children elm.Element_new
              Examples.item Examples.item Examples.item 0 20 100 1240 570)
    as (c1' & c2' & c3' & Hl & _ & _ & _ & _ & Hy).
  destruct Hy as (Hy1 & Hy2 & Hy3); [unfold Examples.item, style.ListItemDefaultHeight; cbn; lia ..|].
  exists c1', c2', c3'. split; [exact Hl|].
  split; [exact Hy1|]. split; [exact Hy2 | exact Hy3].
Defined.

(** C7 as it is worded fails where the [u16] of the coordinates wraps
    around.  A list at [y = 10] scrolled by 30 has its first child at
    65516, not at [10 - 30], while the second and third are at 50 and
    120; an unscrolled list at [y = 65500] has its second child at 34,
    not at [65500 + 70]. *)
Lemma list_children_wrap_around :
  exists c1' c2' c3' d1' d2' d3',
    elm.layout (elm.List elm.Element_new
                  [Examples.item; Examples.item; Examples.item] 30) 20 10 1240 570
    = elm.List (elm.setBoundaries 20 10 1240 570 elm.Element_new) [c1'; c2'; c3'] 30 /\
    (elm.getY c1', elm.getY c2', elm.getY c3') = (65516, 50, 120) /\
    elm.getY c1' <> 10 - 30 /\
    elm.layout (elm.List elm.Element_new
                  [Examples.item; Examples.item; Examples.item] 0) 20 65500 1240 570
    = elm.List (elm.setBoundaries 20 65500 1240 570 elm.Element_new) [d1'; d2'; d3'] 0 /\
    (elm.getY d1', elm.getY d2', elm.getY d3') = (65500, 34, 104) /\
    elm.getY d2' <> 65500 + elm.getHeight Examples.item.
Proof.
  eexists _, _, _, _, _, _.
  split; [reflexivity|]. split; [reflexivity|]. split; [discriminate|].
  split; [reflexivity|]. split; [reflexivity | discriminate].
Qed.

(** C4, as the code has it.  For the screen whose tree is
    [OverlayFrame("Title", "Sub")] holding a [List] of three items, built
    and laid out by [updateGui] on the 1280 x 720 surface: drawing makes
    the calls [drawRect] for the background, [drawString] for the title at
    (20, 50) with size 32 and [drawString] for the subtitle at (20, 85)
    with size 15, in that order, before anything else; the list is laid
    out at (20, 100), 1240 wide and 570 high, and its first item's bounds
    start at (20, 100). *)
Theorem overlay_frame_end_to_end (c1 c2 c3 : elm.Element) :
  let tree :=
    elm.setContent
      (elm.addItem c3 (elm.addItem c2 (elm.addItem c1 elm.List_new)))
      (elm.OverlayFrame_new "Title" "Sub") in
  let g := Gui.updateGui (cfg := Examples.cfg1280x720) (Gui.new (Some tree)) in
  exists root list first rest,
    Gui.m_root g = Some root /\
    Gui.draw (cfg := Examples.cfg1280x720) g
    = Renderer.DrawRect 0 0 1280 720 style.ColorFrameBackground
      :: Renderer.DrawString "Title" false 20 50 32 style.ColorText
      :: Renderer.DrawString "Sub" false 20 85 15 style.ColorDescription
      :: rest /\
    elm.node_at [0%nat] root = Some list /\
    (elm.getX list, elm.getY list, elm.getWidth list, elm.getHeight list)
    = (20, 100, 1240, 570) /\
    elm.node_at [0%nat; 0%nat] root = Some first /\
    (elm.getX first, elm.getY first) = (20, 100) /\
    elm.getWidth first = 1240.
Proof.
  intros tree g. subst g tree.
  unfold Gui.updateGui, Gui.new, Gui.draw. cbn [Gui.m_root Gui.createUI fmap option_fmap option_map].
  unfold elm.setContent, elm.addItem, elm.OverlayFrame_new, elm.List_new.
  cbn [app].
  rewrite LayoutFacts.layout_OverlayFrame, LayoutFacts.layout_List.
  cbn [FramebufferWidth FramebufferHeight Examples.cfg1280x720].
  eexists _, _, _, _. split; [reflexivity|].
  split; [reflexivity|].
  split; [reflexivity|].
  split; [reflexivity|].
  split; [reflexivity|].
  unfold elm.getX, elm.getY, elm.getWidth.
  rewrite !LayoutFacts.base_layout. split; reflexivity.
Qed.

(** C4 as it is worded fails: the first item's bounds start at x = 20,
    not 40. *)
Lemma first_item_not_at_x40 :
  exists root first,
    Gui.m_root (Gui.updateGui (cfg := Examples.cfg1280x720) Examples.titleGui)
    = Some root /\
    elm.node_at [0%nat; 0%nat] root = Some first /\
    (elm.getX first, elm.getY first) = (20, 100) /\
    (elm.getX first, elm.getY first) <> (40, 100).
Proof.
  eexists _, _. split; [reflexivity|]. split; [reflexivity|].
  split; [reflexivity | discriminate].
Qed.

(** ** Focus *)

Module FocusFacts.
Import elm Focus.

Lemma node_at_cons i p t : node_at (i :: p) t = child i t ≫= node_at p.
Proof. destruct t as [| |b ti s [c|]]; try reflexivity; destruct i; reflexivity. Qed.

Lemma isFocused_at_nil t : isFocused_at [] t = isFocused t.
Proof. reflexivity. Qed.

Lemma isFocused_at_cons i p t :
  isFocused_at (i :: p) t
  = match child i t with Some c => isFocused_at p c | None => false end.
Proof.
  unfold isFocused_at. rewrite node_at_cons.
  destruct (child i t); reflexivity.
Qed.

Lemma child_with_base f t j : child j (with_base f t) = child j t.
Proof. destruct t; reflexivity. Qed.

Lemma base_setFocused_cons i p v t : base (setFocused_at (i :: p) v t) = base t.
Proof. destruct t as [| |b ti s [c|]]; try reflexivity; destruct i; reflexivity. Qed.

Lemma child_setFocused_cons i p v t j :
  child j (setFocused_at (i :: p) v t)
  = if decide (i = j) then setFocused_at p v <$> child i t else child j t.
Proof.
  destruct t as [b o d|b items s|b ti s [c|]]; cbn.
  - destruct (decide (i = j)); reflexivity.
  - apply list_lookup_alter.
  - destruct i, j; cbn; try reflexivity.
    destruct (decide (S i = S j)); reflexivity.
  - destruct i, j; cbn; try reflexivity;
      destruct (decide (_ = _)); reflexivity.
Qed.

(** Reading a focus flag after a [setFocused] through a pointer. *)
Lemma isFocused_at_set p v t q :
  isFocused_at q (setFocused_at p v t)
  = if decide (q = p)
    then match node_at p t with Some _ => v | None => false end
    else isFocused_at q t.
Proof.
  revert t q. induction p as [|i p IH]; intros t q.
  - destruct q as [|j q].
    + rewrite decide_True by reflexivity. destruct t; reflexivity.
    + rewrite decide_False by discriminate.
      rewrite !isFocused_at_cons. cbn [setFocused_at].
      rewrite child_with_base. reflexivity.
  - destruct q as [|j q].
    + rewrite decide_False by discriminate.
      rewrite !isFocused_at_nil. unfold isFocused.
      rewrite base_setFocused_cons. reflexivity.
    + rewrite !isFocused_at_cons, child_setFocused_cons, node_at_cons.
      destruct (decide (i = j)) as [->|Hne].
      * destruct (child j t) as [c|]; cbn.
        -- rewrite IH. repeat case_decide; try congruence; reflexivity.
        -- case_decide; reflexivity.
      * case_decide; [congruence | reflexivity].
Qed.

(** [setFocused] changes no pointer's validity. *)
Lemma node_at_set_is_Some p v t q :
  is_Some (node_at q (setFocused_at p v t)) <-> is_Some (node_at q t).
Proof.
  revert p t. induction q as [|j q IH]; intros p t.
  - cbn. split; intros _; eexists; reflexivity.
  - rewrite !node_at_cons. destruct p as [|i p].
    + cbn [setFocused_at]. rewrite child_with_base. reflexivity.
    + rewrite child_setFocused_cons.
      destruct (decide (i = j)) as [->|Hne]; [|reflexivity].
      destruct (child j t) as [c|]; cbn; [apply IH | reflexivity].
Qed.

Lemma allUnfocused_child i t c :
  allUnfocused t = true -> child i t = Some c -> allUnfocused c = true.
Proof.
  destruct t as [b o d|b items s|b ti s [c'|]]; cbn;
    intros Hall Hc; apply andb_true_iff in Hall as [_ Hall].
  - discriminate.
  - rewrite forallb_forall in Hall. apply Hall.
    apply list_elem_of_In. eapply list_elem_of_lookup_2, Hc.
  - destruct i; [congruence | discriminate].
  - destruct i; discriminate.
Qed.

Lemma allUnfocused_at p t : allUnfocused t = true -> isFocused_at p t = false.
Proof.
  revert t. induction p as [|i p IH]; intros t Hall.
  - rewrite isFocused_at_nil. destruct t; cbn in Hall;
      apply andb_true_iff in Hall as [Hn _]; apply negb_true_iff in Hn; exact Hn.
  - rewrite isFocused_at_cons. destruct (child i t) as [c|] eqn:Hc; [|reflexivity].
    apply IH. eapply allUnfocused_child; eassumption.
Qed.

Lemma requestFocus_tracked e d g :
  tracked g ->
  tracked (Gui.requestFocus e d g) /\
  (forall root e',
     e = Some e' -> Gui.m_root (Gui.requestFocus e d g) = Some root ->
     is_Some (node_at e' root) -> isFocused_at e' root = true).
Proof.
  intros Hg. unfold Gui.requestFocus, tracked. cbn.
  destruct (Gui.m_root g) as [root|] eqn:Hroot.
  2: { destruct (Gui.m_focusedElement g), e; cbn; split; intros; discriminate. }
  set (root1 := match Gui.m_focusedElement g with
                | Some old => setFocused_at old false root
                | None => root
                end).
  assert (Hclear : forall q, isFocused_at q root1 = false).
  { intros q. subst root1. destruct (Gui.m_focusedElement g) as [old|] eqn:Hold.
    - rewrite isFocused_at_set. destruct (decide (q = old)) as [->|Hne].
      + destruct (node_at old root); reflexivity.
      + destruct (isFocused_at q root) eqn:Hq; [|reflexivity].
        specialize (Hg root q Hroot Hq). congruence.
    - destruct (isFocused_at q root) eqn:Hq; [|reflexivity].
      specialize (Hg root q Hroot Hq). congruence. }
  assert (Er : (match Gui.m_focusedElement g with
                | Some old => setFocused_at old false <$> Some root
                | None => Some root
                end) = Some root1).
  { subst root1. destruct (Gui.m_focusedElement g); reflexivity. }
  rewrite Er. destruct e as [e0|]; cbn; split.
  - intros r q [= <-]. rewrite isFocused_at_set, Hclear.
    destruct (decide (q = e0)) as [->|Hne]; [reflexivity | discriminate].
  - intros r e' [= <-] [= <-] Hvalid. rewrite isFocused_at_set.
    rewrite decide_True by reflexivity.
    apply node_at_set_is_Some in Hvalid. destruct Hvalid as [n ->]. reflexivity.
  - intros r q [= <-]. rewrite Hclear. discriminate.
  - intros r e' [=].
Qed.

Lemma requests_tracked rs g : tracked g -> tracked (requests rs g).
Proof.
  revert g. induction rs as [|[e d] rs IH]; intros g Hg; [exact Hg|].
  apply IH. apply requestFocus_tracked, Hg.
Qed.

End FocusFacts.

(** C6. A screen none of whose elements is focused, then any sequence of
    [requestFocus] calls: at most one element of the tree reports
    [isFocused()], and when the last call named an element of the tree,
    that element reports it (so it is the only one) and is the screen's
    focused element. *)
Theorem focus_is_unique (g0 : Gui.t)
    (rs : list (option elm.ptr * FocusDirection.t)) :
  (forall root, Gui.m_root g0 = Some root -> Focus.allUnfocused root = true) ->
  let g := Focus.requests rs g0 in
  (forall root p q,
     Gui.m_root g = Some root ->
     elm.isFocused_at p root = true -> elm.isFocused_at q root = true ->
     p = q) /\
  (forall root e d,
     Gui.m_root g = Some root ->
     last rs = Some (Some e, d) -> is_Some (elm.node_at e root) ->
     elm.isFocused_at e root = true /\
     Gui.getFocusedElement g = Some e /\
     forall q, elm.isFocused_at q root = true -> q = e).
Proof.
  intros Hstart g.
  assert (H0 : Focus.tracked g0).
  { intros root q Hroot Hq.
    rewrite (FocusFacts.allUnfocused_at q root (Hstart root Hroot)) in Hq.
    discriminate. }
  assert (Hg : Focus.tracked g) by apply FocusFacts.requests_tracked, H0.
  split.
  - intros root p q Hroot Hp Hq.
    pose proof (Hg root p Hroot Hp) as Ep.
    pose proof (Hg root q Hroot Hq) as Eq.
    congruence.
  - intros root e d Hroot Hlast Hvalid.
    apply last_Some in Hlast as [rs' ->].
    subst g. unfold Focus.requests in *. rewrite foldl_app in *. cbn in *.
    destruct (FocusFacts.requestFocus_tracked (Some e) d
                (foldl (fun g '(e, d) => Gui.requestFocus e d g) g0 rs'))
      as [_ Hset].
    { apply (FocusFacts.requests_tracked rs' g0 H0). }
    split; [apply Hset; [reflexivity | exact Hroot | exact Hvalid]|].
    split; [reflexivity|].
    intros q Hq. specialize (Hg root q Hroot Hq). cbn in Hg. congruence.
Qed.

Lemma focus_is_unique_witness :
  let g0 := Gui.updateGui (cfg := Examples.cfg1280x720) Examples.titleGui in
  let g :=
    Focus.requests [(Some [0%nat; 0%nat], FocusDirection.Down);
                    (Some [0%nat; 1%nat], FocusDirection.Down)] g0 in
  exists root,
    Gui.m_root g = Some root /\
    elm.isFocused_at [0%nat; 1%nat] root = true /\
    elm.isFocused_at [0%nat; 0%nat] root = false /\
    Gui.getFocusedElement g = Some [0%nat; 1%nat].
Proof.
  intros g0 g.
  destruct (Gui.m_root g) as [root|] eqn:Hroot; [|vm_compute in Hroot; discriminate].
  exists root. split; [reflexivity|].
  destruct (proj2 (focus_is_unique g0
                     [(Some [0%nat; 0%nat], FocusDirection.Down);
                      (Some [0%nat; 1%nat], FocusDirection.Down)]
                     ltac:(intros r Hr; vm_compute in Hr; injection Hr as <-;
                           vm_compute; reflexivity))
                  root [0%nat; 1%nat] FocusDirection.Down Hroot eq_refl)
    as (Hon & Hptr & Honly).
  - vm_compute in Hroot. injection Hroot as <-. vm_compute. eexists. reflexivity.
  - split; [exact Hon|]. split; [|exact Hptr].
    destruct (elm.isFocused_at [0%nat; 0%nat] root) eqn:Hoff; [|reflexivity].
    specialize (Honly _ Hoff). discriminate.
Defined.

(** ** Text: decoding, measuring, drawing *)

Module DecodeFacts.
Import hlp.

Lemma byte_at_range p k : 0 <= byte_at p k < 256.
Proof.
  unfold byte_at. destruct (p !! k) as [c|]; cbn; [|lia].
  pose proof (Byte.to_N_bounded c). lia.
Qed.

Lemma byte_at_nil k : byte_at [] k = 0.
Proof. unfold byte_at. rewrite lookup_nil. reflexivity. Qed.

Lemma lor_range a b n :
  0 <= n -> 0 <= a < 2 ^ n -> 0 <= b < 2 ^ n -> 0 <= Z.lor a b < 2 ^ n.
Proof.
  intros Hn Ha Hb. split; [apply Z.lor_nonneg; lia|].
  assert (E : Z.lor a b mod 2 ^ n = Z.lor a b).
  { apply Z.bits_inj'. intros i Hi.
    destruct (Z.lt_ge_cases i n).
    - apply Z.mod_pow2_bits_low. lia.
    - rewrite Z.mod_pow2_bits_high by lia.
      rewrite Z.lor_spec, (testbit_small a n i), (testbit_small b n i) by lia.
      reflexivity. }
  rewrite <- E. apply Z.mod_pos_bound. lia.
Qed.

Lemma mask_shift_range x k s :
  0 <= k -> 0 <= s -> k + s <= 21 ->
  0 <= Z.shiftl (Z.land x (Z.ones k)) s < 2 ^ 21.
Proof.
  intros Hk Hs Hks.
  rewrite Z.land_ones, Z.shiftl_mul_pow2 by lia.
  pose proof (Z.mod_pos_bound x (2 ^ k) ltac:(lia)) as Hm.
  assert (Hp : 2 ^ k * 2 ^ s <= 2 ^ 21).
  { rewrite <- Z.pow_add_r by lia. apply Z.pow_le_mono_r; lia. }
  assert (0 < 2 ^ s) by lia.
  nia.
Qed.

Lemma mask_range x k : 0 <= k <= 21 -> 0 <= Z.land x (Z.ones k) < 2 ^ 21.
Proof.
  intros Hk. pose proof (mask_shift_range x k 0 ltac:(lia) ltac:(lia) ltac:(lia)) as Hm.
  rewrite Z.shiftl_0_r in Hm. exact Hm.
Qed.

(** A successful decode consumes one to four bytes and yields a value
    below [2 ^ 21]. *)
Lemma decode_utf8_Some p cp len :
  decode_utf8 p = Some (cp, len) -> 1 <= len <= 4 /\ 0 <= cp < 2 ^ 21.
Proof.
  unfold decode_utf8. pose proof (byte_at_range p 0) as H0.
  repeat match goal with
         | |- context [if ?c then _ else _] => destruct c eqn:?
         end; intros E; try discriminate; injection E as <- <-;
    (split; [lia|]).
  - apply Z.ltb_lt in Heqb. lia.
  - change 0x1F with (Z.ones 5). change 0x3F with (Z.ones 6).
    apply lor_range; [lia | apply mask_shift_range; lia | apply mask_range; lia].
  - change 0x0F with (Z.ones 4). change 0x3F with (Z.ones 6).
    repeat (apply lor_range; [lia | | ]);
      first [apply mask_shift_range; lia | apply mask_range; lia].
  - change 0x07 with (Z.ones 3). change 0x3F with (Z.ones 6).
    repeat (apply lor_range; [lia | | ]);
      first [apply mask_shift_range; lia | apply mask_range; lia].
Qed.

End DecodeFacts.

Module TextLoopFacts.
Import Renderer TextMeasure.

(** The loop applies its body, in order, to the decoded code points. *)
Lemma text_loop_fold {S : Type} (body : Z -> S -> S) fuel p s :
  text_loop fuel body p s = foldl (fun s cp => body cp s) s (decoded_upto fuel p).
Proof.
  revert p s. induction fuel as [|fuel IH]; intros p s; [reflexivity|].
  cbn. destruct (hlp.byte_at p 0 =? 0); [reflexivity|].
  destruct (hlp.decode_utf8 p) as [[cp len]|]; [|reflexivity].
  cbn. apply IH.
Qed.

(** The loop ends by itself within as many iterations as the text has
    bytes: more fuel changes nothing. *)
Lemma decoded_upto_enough n m p :
  (length p <= n)%nat -> (n <= m)%nat -> decoded_upto m p = decoded_upto n p.
Proof.
  revert m p. induction n as [|n IH]; intros m p Hp Hm.
  - destruct p; [|cbn in Hp; lia].
    destruct m; reflexivity.
  - destruct m as [|m]; [lia|]. cbn.
    destruct (hlp.byte_at p 0 =? 0) eqn:E0; [reflexivity|].
    destruct (hlp.decode_utf8 p) as [[cp len]|] eqn:Ed; [|reflexivity].
    f_equal. apply IH; [|lia].
    destruct (DecodeFacts.decode_utf8_Some _ _ _ Ed) as [Hlen _].
    rewrite length_drop.
    destruct p; [rewrite DecodeFacts.byte_at_nil in E0; discriminate|].
    cbn in Hp |- *. lia.
Qed.

Lemma text_loop_enough {S : Type} (body : Z -> S -> S) fuel p s :
  (length p <= fuel)%nat ->
  text_loop fuel body p s = text_loop (length p) body p s.
Proof.
  intros Hf. rewrite !text_loop_fold.
  rewrite (decoded_upto_enough (length p) fuel p) by lia. reflexivity.
Qed.

(** Fewer iterations see a prefix of the code points. *)
Lemma decoded_upto_take j k p :
  (j <= k)%nat -> decoded_upto j p = take j (decoded_upto k p).
Proof.
  revert k p. induction j as [|j IH]; intros k p Hjk; [reflexivity|].
  destruct k as [|k]; [lia|]. cbn.
  destruct (hlp.byte_at p 0 =? 0); [reflexivity|].
  destruct (hlp.decode_utf8 p) as [[cp len]|]; [|reflexivity].
  cbn. f_equal. apply IH. lia.
Qed.

Lemma decoded_upto_length fuel p : (length (decoded_upto fuel p) <= fuel)%nat.
Proof.
  revert p. induction fuel as [|fuel IH]; intros p; [reflexivity|].
  cbn. destruct (hlp.byte_at p 0 =? 0); [cbn; lia|].
  destruct (hlp.decode_utf8 p) as [[cp len]|]; [|cbn; lia].
  cbn. specialize (IH (drop (Z.to_nat len) p)). lia.
Qed.

Lemma decoded_upto_range fuel p :
  Forall (fun c => 0 <= c < 2 ^ 31) (decoded_upto fuel p).
Proof.
  revert p. induction fuel as [|fuel IH]; intros p; [constructor|].
  cbn. destruct (hlp.byte_at p 0 =? 0); [constructor|].
  destruct (hlp.decode_utf8 p) as [[cp len]|] eqn:Ed; [|constructor].
  constructor; [|apply IH].
  destruct (DecodeFacts.decode_utf8_Some _ _ _ Ed) as [_ Hcp]. lia.
Qed.

End TextLoopFacts.

Module F32Facts.
Import f32.

Lemma to_u32_nonneg f : 0 <= to_u32 f.
Proof.
  unfold to_u32, to_int, clamp. destruct f as [s|s| |s m e]; try destruct s; lia.
Qed.

(** Where the signed conversion does not saturate and is not negative,
    the unsigned conversion gives the same integer. *)
Lemma to_u32_to_s32 f : 0 <= to_s32 f < 2 ^ 31 - 1 -> to_u32 f = to_s32 f.
Proof.
  unfold to_u32, to_s32, to_int, clamp.
  destruct f as [s|s| |s m e]; try destruct s; lia.
Qed.

End F32Facts.

Module TextFacts.
Import Renderer TextMeasure GlyphCache.

Lemma u32_add_u32 a b : u32 (u32 a + b) = u32 (a + b).
Proof. unfold u32. apply Z.add_mod_idemp_l. lia. Qed.

Lemma u32_range z : 0 <= u32 z < 2 ^ 32.
Proof. unfold u32. apply Z.mod_pos_bound. lia. Qed.

Lemma gtb_max a b : (if a >? b then a else b) = Z.max a b.
Proof. rewrite Z.gtb_ltb. destruct (Z.ltb_spec b a); lia. Qed.

Lemma newlines_cons c cps :
  newlines (c :: cps) = (if c =? 10 then 1 else 0) + newlines cps.
Proof.
  unfold newlines. rewrite filter_cons.
  destruct (Z.eqb_spec c 10) as [E|E].
  - rewrite decide_True by exact E. cbn [length]. lia.
  - rewrite decide_False by exact E. lia.
Qed.

Section WithFont.
Context {font : FontEngine}.

Lemma measure_newline mono size s :
  getTextDimensions_body mono size 10 s
  = {| width := 0; height := u32 (height s + size);
       maxWidth := Z.max (width s) (maxWidth s); cache := cache s |}.
Proof. unfold getTextDimensions_body. cbn. rewrite gtb_max. reflexivity. Qed.

Lemma measure_glyph mono size c s :
  c <> 10 -> 0 <= c < 2 ^ 31 -> 0 <= size < 2 ^ 32 -> consistent (cache s) ->
  width (getTextDimensions_body mono size c s)
  = f32.to_u32 (f32.add (f32.of_Z (width s)) (advance size c)) /\
  height (getTextDimensions_body mono size c s) = height s /\
  maxWidth (getTextDimensions_body mono size c s) = maxWidth s /\
  consistent (cache (getTextDimensions_body mono size c s)).
Proof.
  intros Hc Hr Hsz Hst. unfold getTextDimensions_body.
  apply Z.eqb_neq in Hc. rewrite Hc.
  destruct (GlyphCacheFacts.getOrCreateGlyph_consistent c mono size (cache s) Hr Hsz Hst)
    as [Hobj Hst'].
  destruct (FontManager.getOrCreateGlyph c mono size (cache s)) as [glyph fonts'].
  cbn in *. rewrite Hobj. repeat split. exact Hst'.
Qed.

Lemma lineWidthFrom_nonneg size w line : 0 <= w -> 0 <= lineWidthFrom size w line.
Proof.
  revert w. induction line as [|c line IH]; intros w Hw; [exact Hw|].
  cbn. apply IH, F32Facts.to_u32_nonneg.
Qed.

(** The loop of [getTextDimensions] over a list of code points. *)
Lemma measure_fold mono size cps s :
  0 <= size < 2 ^ 32 -> Forall (fun c => 0 <= c < 2 ^ 31) cps ->
  consistent (cache s) -> 0 <= height s < 2 ^ 32 ->
  let s' := foldl (fun s cp => getTextDimensions_body mono size cp s) s cps in
  height s' = u32 (height s + size * newlines cps) /\
  Z.max (width s') (maxWidth s')
  = Z.max (maxWidth s) (maxLineFrom size (width s) cps) /\
  consistent (cache s').
Proof.
  intros Hsz Hcps. revert s.
  induction Hcps as [|c cps Hc Hcps IH]; intros s Hst Hh; cbn zeta.
  - cbn. unfold newlines. cbn. rewrite Z.mul_0_r, Z.add_0_r, u32_small by lia.
    repeat split; [lia | exact Hst].
  - cbn [foldl maxLineFrom]. rewrite newlines_cons.
    destruct (Z.eqb_spec c 10) as [->|Hne].
    + rewrite measure_newline.
      destruct (IH {| width := 0; height := u32 (height s + size);
                      maxWidth := Z.max (width s) (maxWidth s);
                      cache := cache s |} Hst (u32_range _))
        as (Eh & Em & Ec).
      cbn [width height maxWidth cache] in Eh, Em.
      rewrite Eh, Em, u32_add_u32. split; [f_equal; lia|]. split; [lia | exact Ec].
    + destruct (measure_glyph mono size c s Hne Hc Hsz Hst) as (Ew & Eh & Em & Ec).
      destruct (IH (getTextDimensions_body mono size c s) Ec ltac:(rewrite Eh; exact Hh))
        as (Eh' & Em' & Ec').
      rewrite Eh', Em', Eh, Em, Ew. split; [f_equal; lia|]. split; [reflexivity | exact Ec'].
Qed.

Lemma maxLineFrom_lines size w cps :
  0 <= w ->
  maxLineFrom size w cps
  = match lines cps with
    | l :: ls => Z.max (lineWidthFrom size w l)
                       (foldr Z.max 0 (lineWidth size <$> ls))
    | [] => w
    end.
Proof.
  revert w. induction cps as [|c cps IH]; intros w Hw.
  - cbn. lia.
  - cbn [maxLineFrom lines]. destruct (c =? 10).
    + rewrite (IH 0) by lia. cbn [lineWidthFrom foldl].
      destruct (lines cps) as [|l ls]; cbn; [lia | reflexivity].
    + rewrite IH by apply F32Facts.to_u32_nonneg.
      destruct (lines cps) as [|l ls]; cbn.
      * pose proof (F32Facts.to_u32_nonneg
                      (f32.add (f32.of_Z w) (advance size c))). lia.
      * reflexivity.
Qed.

Lemma maxLineFrom_0 size cps :
  maxLineFrom size 0 cps = foldr Z.max 0 (lineWidth size <$> lines cps).
Proof.
  rewrite maxLineFrom_lines by lia.
  destruct (lines cps); reflexivity.
Qed.

Section WithConfig.
Context {cfg : Config}.

Lemma draw_newline mono x size color s :
  currX (drawString_body mono x size color 10 s) = x /\
  fonts (out (drawString_body mono x size color 10 s)) = fonts (out s).
Proof. split; reflexivity. Qed.

Lemma draw_glyph mono x size color c s :
  c <> 10 -> 0 <= c < 2 ^ 31 -> 0 <= size < 2 ^ 32 ->
  consistent (fonts (out s)) ->
  currX (drawString_body mono x size color c s)
  = f32.to_s32 (f32.add (f32.of_Z (currX s)) (advance size c)) /\
  consistent (fonts (out (drawString_body mono x size color c s))).
Proof.
  intros Hc Hr Hsz Hst. unfold drawString_body.
  apply Z.eqb_neq in Hc. rewrite Hc.
  destruct (GlyphCacheFacts.getOrCreateGlyph_consistent c mono size
              (fonts (out s)) Hr Hsz Hst) as [Hobj Hst'].
  destruct (FontManager.getOrCreateGlyph c mono size (fonts (out s))) as [glyph fonts'].
  cbn in *. rewrite Hobj. split; [reflexivity | exact Hst'].
Qed.

(** The two loops side by side, [drawString] started at [x = 0]: while
    the cursor stays in [0, 2 ^ 31 - 1), the running width is the
    cursor. *)
Lemma measure_draw_fold mono size color cps e p :
  0 <= size < 2 ^ 32 -> Forall (fun c => 0 <= c < 2 ^ 31) cps ->
  consistent (cache e) -> consistent (fonts (out p)) ->
  width e = currX p ->
  (forall j, (j <= length cps)%nat ->
     0 <= currX (foldl (fun s cp => drawString_body mono 0 size color cp s) p
                       (take j cps)) < 2 ^ 31 - 1) ->
  width (foldl (fun s cp => getTextDimensions_body mono size cp s) e cps)
  = currX (foldl (fun s cp => drawString_body mono 0 size color cp s) p cps).
Proof.
  intros Hsz Hcps. revert e p.
  induction Hcps as [|c cps Hc Hcps IH]; intros e p He Hp Hw Hrange; [exact Hw|].
  cbn [foldl]. apply IH.
  - destruct (Z.eq_dec c 10) as [->|Hne].
    + rewrite measure_newline. exact He.
    + apply (measure_glyph mono size c e Hne Hc Hsz He).
  - destruct (Z.eq_dec c 10) as [->|Hne].
    + exact Hp.
    + apply (draw_glyph mono 0 size color c p Hne Hc Hsz Hp).
  - pose proof (Hrange 1%nat ltac:(cbn; lia)) as H1.
    change (take 1 (c :: cps)) with (c :: take 0 cps) in H1.
    rewrite take_0 in H1. cbn [foldl] in H1.
    destruct (Z.eq_dec c 10) as [->|Hne].
    + rewrite measure_newline. reflexivity.
    + destruct (measure_glyph mono size c e Hne Hc Hsz He) as (-> & _).
      destruct (draw_glyph mono 0 size color c p Hne Hc Hsz Hp) as (Ed & _).
      rewrite Ed in H1 |- *. rewrite Hw.
      apply F32Facts.to_u32_to_s32. exact H1.
  - intros j Hj. apply (Hrange (S j)). cbn. lia.
Qed.

End WithConfig.
End WithFont.
End TextFacts.

(** C3, as the code has it.  With a glyph cache that holds what the face
    rasterises, [getTextDimensions(s, mono, size)] returns the height
    [size + size * n] in [u32], [n] being the number of newline code
    points of the decoded prefix of [s] (the plain sum when it fits), and
    the width that is the greatest per-line width, a line's width being
    its glyph advances added one by one in [float] and cut to an integer
    after each glyph.  Run next to [drawString] started at [x = 0], the
    running width equals the cursor after every iteration for as long as
    the cursor has stayed in [0, 2 ^ 31 - 1); both loops decode the same
    prefix and end within as many iterations as the text has bytes. *)
Theorem getTextDimensions_measures {cfg : Config} {font : FontEngine}
    (text : string) (mono : bool) (size : Z) (st : FontManager.state)
    (color : Color.t) (y : Z) (rst : Renderer.state) :
  0 <= size < 2 ^ 32 ->
  GlyphCache.consistent st -> GlyphCache.consistent (Renderer.fonts rst) ->
  let cps := TextMeasure.decoded text in
  let dims := fst (Renderer.getTextDimensions text mono size st) in
  snd dims = u32 (size + size * TextMeasure.newlines cps) /\
  (size + size * TextMeasure.newlines cps < 2 ^ 32 ->
   snd dims = size + size * TextMeasure.newlines cps) /\
  fst dims
  = foldr Z.max 0 (TextMeasure.lineWidth size <$> TextMeasure.lines cps) /\
  (forall k : nat,
     (forall j : nat, (j <= k)%nat ->
        0 <= Renderer.currX (TextMeasure.penAfter j text mono 0 y size color rst)
          < 2 ^ 31 - 1) ->
     Renderer.width (TextMeasure.extentAfter k text mono size st)
     = Renderer.currX (TextMeasure.penAfter k text mono 0 y size color rst)) /\
  (forall k : nat,
     (length (list_byte_of_string text) <= k)%nat ->
     TextMeasure.penAfter k text mono 0 y size color rst
     = Renderer.drawString_pen text mono 0 y size color rst /\
     fst dims
     = Z.max (Renderer.width (TextMeasure.extentAfter k text mono size st))
             (Renderer.maxWidth (TextMeasure.extentAfter k text mono size st))).
Proof.
  intros Hsz Hst Hrst cps dims.
  assert (Hdims : dims
    = (Z.max (Renderer.width
                (TextMeasure.extentAfter (length (list_byte_of_string text))
                   text mono size st))
             (Renderer.maxWidth
                (TextMeasure.extentAfter (length (list_byte_of_string text))
                   text mono size st)),
       Renderer.height
         (TextMeasure.extentAfter (length (list_byte_of_string text))
            text mono size st))).
  { subst dims. unfold Renderer.getTextDimensions, TextMeasure.extentAfter.
    cbv zeta. cbn [fst]. rewrite TextFacts.gtb_max. reflexivity. }
  destruct (TextFacts.measure_fold mono size cps
              {| Renderer.width := 0; Renderer.height := size;
                 Renderer.maxWidth := 0; Renderer.cache := st |}
              Hsz (TextLoopFacts.decoded_upto_range _ _) Hst Hsz)
    as (Eh & Em & _).
  cbn [Renderer.width Renderer.height Renderer.maxWidth] in Eh, Em.
  assert (Hnl : 0 <= TextMeasure.newlines cps) by (unfold TextMeasure.newlines; lia).
  assert (Hmax : 0 <= TextMeasure.maxLineFrom size 0 cps).
  { rewrite TextFacts.maxLineFrom_lines by lia.
    destruct (TextMeasure.lines cps) as [|l ls]; [lia|].
    pose proof (TextFacts.lineWidthFrom_nonneg size 0 l ltac:(lia)). lia. }
  assert (Hfst : fst dims
    = foldr Z.max 0 (TextMeasure.lineWidth size <$> TextMeasure.lines cps)).
  { rewrite Hdims. cbn [fst]. unfold TextMeasure.extentAfter.
    rewrite TextLoopFacts.text_loop_fold. fold (TextMeasure.decoded text). fold cps.
    rewrite Em, <- TextFacts.maxLineFrom_0. lia. }
  assert (Hsnd : snd dims = u32 (size + size * TextMeasure.newlines cps)).
  { rewrite Hdims. cbn [snd]. unfold TextMeasure.extentAfter.
    rewrite TextLoopFacts.text_loop_fold. exact Eh. }
  split; [exact Hsnd|].
  split; [intros Hfit; rewrite Hsnd; apply u32_small; nia|].
  split; [exact Hfst|].
  split.
  - intros k Hrange. unfold TextMeasure.extentAfter, TextMeasure.penAfter in *.
    rewrite !TextLoopFacts.text_loop_fold.
    apply TextFacts.measure_draw_fold;
      [exact Hsz | apply TextLoopFacts.decoded_upto_range | exact Hst | exact Hrst
      | reflexivity |].
    intros j Hj.
    pose proof (TextLoopFacts.decoded_upto_length k (list_byte_of_string text)) as Hlen.
    rewrite <- (TextLoopFacts.decoded_upto_take j k) by lia.
    rewrite <- TextLoopFacts.text_loop_fold. apply Hrange. lia.
  - intros k Hk. split.
    + unfold TextMeasure.penAfter, Renderer.drawString_pen.
      apply TextLoopFacts.text_loop_enough, Hk.
    + rewrite Hdims. cbn [fst]. unfold TextMeasure.extentAfter.
      rewrite (TextLoopFacts.text_loop_enough _ k) by exact Hk. reflexivity.
Qed.

Lemma getTextDimensions_measures_witness :
  let dims :=
    fst (Renderer.getTextDimensions (font := Examples.halfFont)
           Examples.twoLines false 10 FontManager.empty) in
  snd dims = u32 (10 + 10 * TextMeasure.newlines (TextMeasure.decoded Examples.twoLines)) /\
  fst dims
  = foldr Z.max 0
      (TextMeasure.lineWidth (font := Examples.halfFont) 10
         <$> TextMeasure.lines (TextMeasure.decoded Examples.twoLines)) /\
  Renderer.width
    (TextMeasure.extentAfter (font := Examples.halfFont) 4 Examples.twoLines
       false 10 FontManager.empty)
  = Renderer.currX
      (TextMeasure.penAfter (cfg := Examples.cfg2x2) (font := Examples.halfFont)
         4 Examples.twoLines false 0 0 10 style.ColorText Examples.blankScreen).
Proof.
  destruct (getTextDimensions_measures (cfg := Examples.cfg2x2)
              (font := Examples.halfFont) Examples.twoLines false 10
              FontManager.empty style.ColorText 0 Examples.blankScreen)
    as (Hh & _ & Hw & Hsim & _).
  - lia.
  - apply GlyphCacheFacts.empty_consistent.
  - apply GlyphCacheFacts.empty_consistent.
  - split; [exact Hh|]. split; [exact Hw|].
    apply Hsim. intros j Hj.
    destruct j as [|[|[|[|[|j]]]]]; try lia; vm_compute; split; congruence.
Defined.

(** C3 as it is worded fails: for the one-glyph text [A] with an advance
    of 5.5 pixels, [getTextDimensions] returns the width 5, while
    [drawString] started at [x = -10] leaves its cursor at -4, a
    displacement of 6. *)
Lemma drawString_cursor_differs :
  fst (fst (Renderer.getTextDimensions (font := Examples.halfFont)
              "A" false 10 FontManager.empty)) = 5 /\
  Renderer.currX
    (Renderer.drawString_pen (cfg := Examples.cfg2x2) (font := Examples.halfFont)
       "A" false (-10) 0 10 style.ColorText Examples.blankScreen) = -4 /\
  -4 - -10 = 6 /\
  TextMeasure.advance (font := Examples.halfFont) 10 65
  = S754_finite false 11534336 (-21).
Proof. vm_compute. repeat split. Qed.

(** ** Further properties of the pixel primitives *)

Module LoopFacts.

(** An invariant carried through a counted loop whose body does not
    fault while the invariant holds. *)
Lemma for_range_inv {S : Type} (P : Z -> S -> Prop) lo hi
    (body : Z -> S -> option S) s :
  P lo s ->
  (forall i s, lo <= i < hi -> P i s ->
     exists s', body i s = Some s' /\ P (i + 1) s') ->
  exists s', for_range lo hi body s = Some s' /\ P (Z.max lo hi) s'.
Proof.
  unfold for_range. remember (Z.to_nat (hi - lo)) as n eqn:Hn.
  revert lo s Hn. induction n as [|n IH]; intros lo s Hn H0 Hstep.
  - rewrite seqZ_nil by lia. exists s. split; [reflexivity|].
    replace (Z.max lo hi) with lo by lia. exact H0.
  - rewrite seqZ_cons by lia. cbn [foldl mbind option_bind].
    destruct (Hstep lo s ltac:(lia) H0) as (s1 & E1 & H1). rewrite E1.
    replace (Z.pred (hi - lo)) with (hi - Z.succ lo) by lia.
    destruct (IH (Z.succ lo) s1 ltac:(lia)) as (s' & E' & H').
    + replace (Z.succ lo) with (lo + 1) by lia. exact H1.
    + intros i s2 Hi. apply Hstep. lia.
    + exists s'. split; [exact E'|].
      replace (Z.max lo hi) with (Z.max (Z.succ lo) hi) by lia. exact H'.
Qed.

End LoopFacts.

Module PixelFacts2.
Import PixelSpec.

Section WithConfig.
Context {cfg : Config}.

Lemma offset_inj x y x' y' :
  0 <= x < FramebufferWidth -> 0 <= y -> 0 <= x' < FramebufferWidth -> 0 <= y' ->
  offset x y = offset x' y' -> x = x' /\ y = y'.
Proof.
  unfold offset. intros Hx Hy Hx' Hy' E.
  apply Z2Nat.inj in E; [|nia|nia].
  assert (y = y') by (destruct (Z.lt_trichotomy y y') as [?|[?|?]]; nia).
  subst y'. lia.
Qed.

Lemma offset_lt x y (fb : Surface.t) :
  wellSized fb -> 0 <= x < FramebufferWidth -> 0 <= y < FramebufferHeight ->
  (offset x y < length fb)%nat.
Proof. unfold wellSized, offset. intros Hfb Hx Hy. nia. Qed.

(** Every index of a well-sized surface is the offset of a pixel. *)
Lemma offset_cover i (fb : Surface.t) :
  wellSized fb -> (i < length fb)%nat ->
  exists x y, 0 <= x < FramebufferWidth /\ 0 <= y < FramebufferHeight /\
              offset x y = i.
Proof.
  unfold wellSized, offset. intros Hfb Hi.
  pose proof FramebufferWidth_u16. pose proof FramebufferHeight_u16.
  assert (0 < FramebufferWidth).
  { destruct (Z.eq_dec FramebufferWidth 0) as [E|E]; [rewrite E in Hfb; lia | lia]. }
  exists (Z.of_nat i mod FramebufferWidth), (Z.of_nat i / FramebufferWidth).
  assert (0 <= Z.of_nat i mod FramebufferWidth < FramebufferWidth)
    by (apply Z.mod_pos_bound; lia).
  assert (Hdm : Z.of_nat i = FramebufferWidth * (Z.of_nat i / FramebufferWidth)
                + Z.of_nat i mod FramebufferWidth) by (apply Z.div_mod; lia).
  split; [lia|]. split.
  - split; [apply Z.div_pos; lia|].
    apply Z.div_lt_upper_bound; [lia|]. nia.
  - rewrite (Z.mul_comm _ FramebufferWidth), <- Hdm. lia.
Qed.

Lemma setPixelBlend_transparent x y color (fb : Surface.t) :
  Color.a color = 0 -> setPixelBlend x y color fb = Some fb.
Proof.
  intros Ha. unfold setPixelBlend. rewrite Ha. cbn [Z.eqb].
  rewrite orb_true_r. reflexivity.
Qed.

(** [setPixelBlend] on a well-sized surface: the cell addressed, if there
    is one, is altered by [blendPixel]; nothing faults. *)
Lemma setPixelBlend_alter x y color (fb : Surface.t) :
  0 <= x -> 0 <= y -> wellSized fb ->
  setPixelBlend x y color fb
  = Some (if (x <? FramebufferWidth) && (y <? FramebufferHeight)
          then alter (blendPixel color) (offset x y) fb
          else fb).
Proof.
  intros Hx Hy Hfb.
  destruct (Z.ltb_spec x FramebufferWidth) as [Hxw|Hxw];
    [destruct (Z.ltb_spec y FramebufferHeight) as [Hyh|Hyh]|]; cbn [andb].
  - destruct (Z.eq_dec (Color.a color) 0) as [Ha|Ha].
    + rewrite setPixelBlend_transparent by exact Ha. f_equal. symmetry.
      apply list_alter_id. intros c. unfold blendPixel. rewrite Ha. reflexivity.
    + destruct (setPixelBlend_in_bounds x y color fb) as (dst & Hdst & ->);
        [lia | lia | exact Hfb | exact Ha |].
      f_equal. apply list_eq. intros i. fold (offset x y) in Hdst |- *.
      rewrite list_lookup_insert, list_lookup_alter, Hdst.
      apply lookup_lt_Some in Hdst as Hlt.
      unfold blendPixel. apply Z.eqb_neq in Ha. rewrite Ha.
      destruct (decide (offset x y = i)) as [E|Hne].
      * subst i. rewrite decide_True by (split; [reflexivity | exact Hlt]). reflexivity.
      * rewrite decide_False by (intros [? _]; contradiction). reflexivity.
  - unfold setPixelBlend. rewrite out_of_bounds_test by lia. reflexivity.
  - unfold setPixelBlend. rewrite out_of_bounds_test by lia. reflexivity.
Qed.

Lemma blendPixel_alpha color dst : Color.a (blendPixel color dst) = Color.a dst.
Proof.
  unfold blendPixel. destruct (Color.a color =? 0); [reflexivity|].
  pose proof (ColorFacts.a_range color) as Hra.
  apply (ColorFacts.make_fields _ _ _ _
    (blendChannel_range _ _ _ (ColorFacts.r_range dst) (ColorFacts.r_range color) Hra)
    (blendChannel_range _ _ _ (ColorFacts.g_range dst) (ColorFacts.g_range color) Hra)
    (blendChannel_range _ _ _ (ColorFacts.b_range dst) (ColorFacts.b_range color) Hra)
    (ColorFacts.a_range dst)).
Qed.


Lemma alphaPlane_wellSized (fb fb' : Surface.t) :
  alphaPlane fb' = alphaPlane fb -> wellSized fb -> wellSized fb'.
Proof.
  unfold alphaPlane, wellSized. intros E Hfb.
  apply (f_equal length) in E. rewrite !length_fmap in E. lia.
Qed.

End WithConfig.
End PixelFacts2.

Module RectFacts.
Import PixelSpec.

Lemma pick_compose (a b : bool) (f : Z -> Z) (o : option Z) :
  a && b = false ->
  (if a then f else id) <$> ((if b then f else id) <$> o)
  = (if a || b then f else id) <$> o.
Proof. destruct a, b, o; intros E; try discriminate; reflexivity. Qed.

Lemma pick_eq (a b : bool) (f : Z -> Z) (o : option Z) :
  a = b -> (if a then f else id) <$> o = (if b then f else id) <$> o.
Proof. intros ->. reflexivity. Qed.

Ltac flags :=
  apply Bool.eq_iff_eq_true;
  rewrite ?andb_true_iff, ?orb_true_iff, ?andb_true_iff, ?Z.leb_le,
    ?Z.ltb_lt, ?Z.eqb_eq;
  lia.

Ltac flags_false :=
  apply Bool.not_true_iff_false;
  rewrite ?andb_true_iff, ?orb_true_iff, ?andb_true_iff, ?Z.leb_le,
    ?Z.ltb_lt, ?Z.eqb_eq;
  lia.

Section WithConfig.
Context {cfg : Config}.

(** One row of [drawRect]: the inner loop. *)
Lemma drawRect_row yi lo hi color (fb : Surface.t) :
  0 <= yi < FramebufferHeight -> 0 <= lo -> hi <= FramebufferWidth ->
  wellSized fb ->
  exists fb',
    for_range lo hi (fun xi => setPixelBlend (u32 xi) (u32 yi) color) fb
    = Some fb' /\
    wellSized fb' /\
    forall xi' yi',
      0 <= xi' < FramebufferWidth -> 0 <= yi' < FramebufferHeight ->
      fb' !! offset xi' yi'
      = (if (yi' =? yi) && (lo <=? xi') && (xi' <? hi)
         then blendPixel color else id) <$> fb !! offset xi' yi'.
Proof.
  intros Hyi Hlo Hhi Hfb.
  pose proof FramebufferWidth_u16 as HW. pose proof FramebufferHeight_u16 as HH.
  destruct (LoopFacts.for_range_inv
    (fun j s =>
       wellSized s /\
       forall xi' yi',
         0 <= xi' < FramebufferWidth -> 0 <= yi' < FramebufferHeight ->
         s !! offset xi' yi'
         = (if (yi' =? yi) && (lo <=? xi') && (xi' <? j)
            then blendPixel color else id) <$> fb !! offset xi' yi')
    lo hi (fun xi => setPixelBlend (u32 xi) (u32 yi) color) fb)
    as (fb' & E & Hw & Hcells).
  - split; [exact Hfb|]. intros xi' yi' Hx' Hy'.
    replace ((yi' =? yi) && (lo <=? xi') && (xi' <? lo)) with false
      by (symmetry; flags_false).
    destruct (fb !! offset xi' yi'); reflexivity.
  - intros j s Hj [Hs Hcells].
    rewrite (u32_small j), (u32_small yi) by lia.
    rewrite PixelFacts2.setPixelBlend_alter by (lia || exact Hs).
    replace ((j <? FramebufferWidth) && (yi <? FramebufferHeight)) with true
      by (symmetry; apply andb_true_iff; split; apply Z.ltb_lt; lia).
    eexists. split; [reflexivity|]. split.
    + unfold wellSized in *. rewrite length_alter. exact Hs.
    + intros xi' yi' Hx' Hy'. rewrite list_lookup_alter.
      destruct (decide (offset j yi = offset xi' yi')) as [Eo|Hne].
      * destruct (PixelFacts2.offset_inj j yi xi' yi') as [<- <-]; [lia..|exact Eo|].
        rewrite (Hcells j yi) by lia.
        replace ((yi =? yi) && (lo <=? j) && (j <? j)) with false
          by (symmetry; flags_false).
        assert (Et : (yi =? yi) && (lo <=? j) && (j <? j + 1) = true).
        { rewrite Z.eqb_refl. apply andb_true_iff.
          split; [apply Z.leb_le | apply Z.ltb_lt]; lia. }
        rewrite Et.
        destruct (fb !! offset j yi); reflexivity.
      * rewrite (Hcells xi' yi') by lia. apply pick_eq.
        assert (~ (xi' = j /\ yi' = yi)) by (intros [-> ->]; apply Hne; reflexivity).
        flags.
  - exists fb'. split; [exact E|]. split; [exact Hw|].
    intros xi' yi' Hx' Hy'. rewrite (Hcells xi' yi') by lia.
    apply pick_eq. flags.
Qed.

End WithConfig.
End RectFacts.

Module SurfaceFacts.
Import PixelSpec.

Section WithConfig.
Context {cfg : Config}.

(** Two well-sized surfaces that agree on every pixel are equal. *)
Lemma cells_eq (fb fb' : Surface.t) :
  wellSized fb -> wellSized fb' ->
  (forall xi yi, 0 <= xi < FramebufferWidth -> 0 <= yi < FramebufferHeight ->
     fb' !! offset xi yi = fb !! offset xi yi) ->
  fb' = fb.
Proof.
  intros Hfb Hfb' Hcells. apply list_eq. intros i.
  destruct (decide (i < length fb)%nat) as [Hi|Hi].
  - destruct (PixelFacts2.offset_cover i fb Hfb Hi) as (x & y & Hx & Hy & <-).
    apply Hcells; assumption.
  - unfold wellSized in *.
    rewrite (proj2 (lookup_ge_None fb i)), (proj2 (lookup_ge_None fb' i)) by lia.
    reflexivity.
Qed.

(** A surface whose pixels are those of [fb] with some of them blended
    has the alpha plane of [fb]. *)
Lemma cells_alpha color (sel : Z -> Z -> bool) (fb fb' : Surface.t) :
  wellSized fb -> wellSized fb' ->
  (forall xi yi, 0 <= xi < FramebufferWidth -> 0 <= yi < FramebufferHeight ->
     fb' !! offset xi yi
     = (if sel xi yi then blendPixel color else id) <$> fb !! offset xi yi) ->
  alphaPlane fb' = alphaPlane fb.
Proof.
  intros Hfb Hfb' Hcells. unfold alphaPlane. apply list_eq. intros i.
  rewrite !list_lookup_fmap.
  destruct (decide (i < length fb)%nat) as [Hi|Hi].
  - destruct (PixelFacts2.offset_cover i fb Hfb Hi) as (x & y & Hx & Hy & <-).
    rewrite (Hcells x y Hx Hy).
    destruct (fb !! offset x y) as [c|]; [|reflexivity]. cbn.
    destruct (sel x y); [rewrite PixelFacts2.blendPixel_alpha|]; reflexivity.
  - unfold wellSized in *.
    rewrite (proj2 (lookup_ge_None fb i)), (proj2 (lookup_ge_None fb' i)) by lia.
    reflexivity.
Qed.

End WithConfig.
End SurfaceFacts.

Module RectCells.

(** The two loops of [drawRect]. *)
Lemma drawRect_cells {cfg : Config}
    (x y w h : Z) (color : Color.t) (fb : Surface.t) :
  PixelSpec.wellSized fb ->
  exists fb',
    drawRect x y w h color fb = Some fb' /\
    length fb' = length fb /\
    PixelSpec.alphaPlane fb' = PixelSpec.alphaPlane fb /\
    forall xi yi,
      0 <= xi < FramebufferWidth -> 0 <= yi < FramebufferHeight ->
      fb' !! PixelSpec.offset xi yi
      = (if PixelSpec.inRect x y w h xi yi
         then PixelSpec.blendPixel color else id)
          <$> fb !! PixelSpec.offset xi yi.
Proof.
  intros Hfb. unfold drawRect.
  set (xs := Z.max 0 x). set (ys := Z.max 0 y).
  set (xe := Z.min FramebufferWidth (s32 (x + w))).
  set (ye := Z.min FramebufferHeight (s32 (y + h))).
  destruct (LoopFacts.for_range_inv
    (fun i s =>
       PixelSpec.wellSized s /\
       forall xi' yi',
         0 <= xi' < FramebufferWidth -> 0 <= yi' < FramebufferHeight ->
         s !! PixelSpec.offset xi' yi'
         = (if (ys <=? yi') && (yi' <? i) && ((xs <=? xi') && (xi' <? xe))
            then PixelSpec.blendPixel color else id)
             <$> fb !! PixelSpec.offset xi' yi')
    ys ye
    (fun yi => for_range xs xe (fun xi => setPixelBlend (u32 xi) (u32 yi) color))
    fb) as (fb' & E & Hw & Hcells).
  - split; [exact Hfb|]. intros xi' yi' Hx' Hy'.
    replace ((ys <=? yi') && (yi' <? ys) && ((xs <=? xi') && (xi' <? xe)))
      with false by (symmetry; RectFacts.flags_false).
    destruct (fb !! PixelSpec.offset xi' yi'); reflexivity.
  - intros i s Hi [Hs Hcells].
    destruct (RectFacts.drawRect_row i xs xe color s) as (s' & Es & Hs' & Hrow);
      [subst ys ye; lia | subst xs; lia | subst xe; lia | exact Hs |].
    exists s'. split; [exact Es|]. split; [exact Hs'|].
    intros xi' yi' Hx' Hy'.
    rewrite (Hrow xi' yi'), (Hcells xi' yi') by lia.
    rewrite RectFacts.pick_compose by RectFacts.flags_false.
    apply RectFacts.pick_eq. RectFacts.flags.
  - assert (Hfin : forall xi yi,
      0 <= xi < FramebufferWidth -> 0 <= yi < FramebufferHeight ->
      fb' !! PixelSpec.offset xi yi
      = (if PixelSpec.inRect x y w h xi yi
         then PixelSpec.blendPixel color else id)
          <$> fb !! PixelSpec.offset xi yi).
    { intros xi yi Hxi Hyi. rewrite (Hcells xi yi) by lia.
      apply RectFacts.pick_eq. unfold PixelSpec.inRect.
      fold xs ys xe ye. RectFacts.flags. }
    exists fb'. split; [exact E|]. split.
    { unfold PixelSpec.wellSized in *. lia. }
    split; [|exact Hfin].
    apply (SurfaceFacts.cells_alpha color (PixelSpec.inRect x y w h));
      assumption.
Qed.

End RectCells.

(** X1. On a surface with one cell per pixel, [drawRect(x, y, w, h, c)]
    completes without a fault and blends [c] into exactly the pixels of
    the rectangle clipped to the surface, columns [max(0, x)] up to
    [min(width, x + w)] and rows [max(0, y)] up to [min(height, y + h)]
    (the sums as [s32]); every other pixel, the surface's size and every
    pixel's alpha are as before. *)
Theorem drawRect_blends_clipped_rectangle {cfg : Config}
    (x y w h : Z) (color : Color.t) (fb : Surface.t) :
  PixelSpec.wellSized fb ->
  exists fb',
    drawRect x y w h color fb = Some fb' /\
    length fb' = length fb /\
    PixelSpec.alphaPlane fb' = PixelSpec.alphaPlane fb /\
    forall xi yi,
      0 <= xi < FramebufferWidth -> 0 <= yi < FramebufferHeight ->
      fb' !! PixelSpec.offset xi yi
      = (if PixelSpec.inRect x y w h xi yi
         then PixelSpec.blendPixel color else id)
          <$> fb !! PixelSpec.offset xi yi.
Proof. apply RectCells.drawRect_cells. Qed.

Lemma drawRect_blends_clipped_rectangle_witness :
  exists fb',
    drawRect (cfg := Examples.cfg2x2) (-1) 1 2 5 0xF00F Examples.black4 = Some fb' /\
    fb' !! PixelSpec.offset (cfg := Examples.cfg2x2) 0 1 = Some 0x000E /\
    fb' !! PixelSpec.offset (cfg := Examples.cfg2x2) 1 1 = Some 0 /\
    fb' !! PixelSpec.offset (cfg := Examples.cfg2x2) 0 0 = Some 0.
Proof.
  destruct (drawRect_blends_clipped_rectangle (cfg := Examples.cfg2x2)
              (-1) 1 2 5 0xF00F Examples.black4)
    as (fb' & E & _ & _ & Hcells); [reflexivity|].
  exists fb'. split; [exact E|].
  rewrite (Hcells 0 1), (Hcells 1 1), (Hcells 0 0) by (cbn; lia).
  repeat split.
Defined.

(** X2. [drawRect] leaves a well-sized surface exactly as it was when the
    colour is fully transparent, when the width or the height is not
    positive, or when the rectangle lies wholly outside the surface
    (the sums [x + w] and [y + h] being representable in [s32]). *)
Theorem drawRect_nothing_to_draw {cfg : Config}
    (x y w h : Z) (color : Color.t) (fb : Surface.t) :
  PixelSpec.wellSized fb ->
  - 2 ^ 31 <= x + w < 2 ^ 31 -> - 2 ^ 31 <= y + h < 2 ^ 31 ->
  Color.a color = 0 \/ w <= 0 \/ h <= 0 \/
  FramebufferWidth <= x \/ FramebufferHeight <= y \/ x + w <= 0 \/ y + h <= 0 ->
  drawRect x y w h color fb = Some fb.
Proof.
  intros Hfb Hxw Hyh Hcase.
  destruct (RectCells.drawRect_cells x y w h color fb Hfb)
    as (fb' & E & Hlen & _ & Hcells).
  assert (Hw' : PixelSpec.wellSized fb')
    by (unfold PixelSpec.wellSized in *; lia).
  rewrite E. f_equal. apply SurfaceFacts.cells_eq; [exact Hfb | exact Hw' |].
  intros xi yi Hxi Hyi. rewrite (Hcells xi yi Hxi Hyi).
  destruct Hcase as [Ha|Hgeom].
  - assert (Eid : forall c, PixelSpec.blendPixel color c = c).
    { intros c. unfold PixelSpec.blendPixel. rewrite Ha. reflexivity. }
    destruct (fb !! PixelSpec.offset xi yi) as [c|]; [|destruct (PixelSpec.inRect _ _ _ _ _ _); reflexivity].
    cbn. destruct (PixelSpec.inRect x y w h xi yi); [rewrite Eid|]; reflexivity.
  - replace (PixelSpec.inRect x y w h xi yi) with false.
    { destruct (fb !! PixelSpec.offset xi yi); reflexivity. }
    symmetry. unfold PixelSpec.inRect.
    assert (Ex : s32 (x + w) = x + w) by (unfold s32; Z.div_mod_to_equations; lia).
    assert (Ey : s32 (y + h) = y + h) by (unfold s32; Z.div_mod_to_equations; lia).
    rewrite Ex, Ey. RectFacts.flags_false.
Qed.

Lemma drawRect_nothing_to_draw_witness :
  drawRect (cfg := Examples.cfg2x2) 0 0 0 5 0xFFFF Examples.black4
  = Some Examples.black4.
Proof.
  apply (drawRect_nothing_to_draw (cfg := Examples.cfg2x2) 0 0 0 5 0xFFFF
           Examples.black4); [reflexivity | lia | lia |].
  right. left. lia.
Defined.

(** X3. At a pixel of a well-sized surface [setPixel] stores the colour
    as it is, alpha included, in that pixel's cell and in no other, and
    keeps the surface's size. *)
Theorem setPixel_overwrites_one_cell {cfg : Config}
    (x y : Z) (color : Color.t) (fb : Surface.t) :
  0 <= x < FramebufferWidth -> 0 <= y < FramebufferHeight ->
  PixelSpec.wellSized fb ->
  exists fb',
    setPixel x y color fb = Some fb' /\
    length fb' = length fb /\
    fb' !! PixelSpec.offset x y = Some color /\
    forall xi yi,
      0 <= xi < FramebufferWidth -> 0 <= yi < FramebufferHeight ->
      (xi, yi) <> (x, y) ->
      fb' !! PixelSpec.offset xi yi = fb !! PixelSpec.offset xi yi.
Proof.
  intros Hx Hy Hfb.
  destruct (pixel_offset x y Hx Hy) as [Hoff Hrange].
  pose proof (PixelFacts2.offset_lt x y fb Hfb Hx Hy) as Hlt.
  unfold setPixel. rewrite in_bounds_test by assumption.
  rewrite Hoff. unfold Surface.store.
  replace ((0 <=? y * FramebufferWidth + x)
           && (y * FramebufferWidth + x <? Z.of_nat (length fb))) with true.
  2: { symmetry. apply andb_true_iff. unfold PixelSpec.wellSized in Hfb.
       split; [apply Z.leb_le | apply Z.ltb_lt]; lia. }
  fold (PixelSpec.offset x y).
  eexists. split; [reflexivity|]. split; [apply length_insert|]. split.
  - apply list_lookup_insert_eq, Hlt.
  - intros xi yi Hxi Hyi Hne. apply list_lookup_insert_ne.
    intros E. apply Hne.
    destruct (PixelFacts2.offset_inj x y xi yi) as [-> ->]; [lia..|exact E|].
    reflexivity.
Qed.

Lemma setPixel_overwrites_one_cell_witness :
  exists fb',
    setPixel (cfg := Examples.cfg2x2) 1 0 0x1234 Examples.black4 = Some fb' /\
    fb' !! PixelSpec.offset (cfg := Examples.cfg2x2) 1 0 = Some 0x1234 /\
    fb' !! PixelSpec.offset (cfg := Examples.cfg2x2) 0 0 = Some 0.
Proof.
  destruct (setPixel_overwrites_one_cell (cfg := Examples.cfg2x2) 1 0 0x1234
              Examples.black4) as (fb' & E & _ & Hc & Ho);
    [cbn; lia | cbn; lia | reflexivity |].
  exists fb'. split; [exact E|]. split; [exact Hc|].
  rewrite (Ho 0 0) by (cbn; lia || discriminate). reflexivity.
Defined.

Module BlendFacts.

Lemma blendChannel_between dst src alpha :
  0 <= dst < 16 -> 0 <= src < 16 -> 0 <= alpha < 16 ->
  Z.min dst src - 1 <= blendChannel dst src alpha <= Z.max dst src /\
  blendChannel dst src alpha <= 14.
Proof.
  intros Hd Hs Ha. rewrite blendChannel_eq by lia.
  rewrite Z.shiftr_div_pow2 by lia. change (2 ^ 4) with 16.
  assert (H1 : 15 * Z.min dst src <= dst * (15 - alpha) + src * alpha) by nia.
  assert (H2 : dst * (15 - alpha) + src * alpha <= 15 * Z.max dst src) by nia.
  Z.div_mod_to_equations. lia.
Qed.

End BlendFacts.

(** X4. A blend never leaves the range spanned by its inputs by more than
    one step down: each of r, g, b that [setPixelBlend] writes lies
    between [min(dst, src) - 1] and [max(dst, src)], and is at most 14, so
    no blend ever produces a channel at full intensity. *)
Theorem setPixelBlend_stays_between {cfg : Config}
    (x y : Z) (color : Color.t) (fb : Surface.t) :
  0 <= x < FramebufferWidth -> 0 <= y < FramebufferHeight ->
  PixelSpec.wellSized fb -> Color.a color <> 0 ->
  exists dst px,
    fb !! PixelSpec.offset x y = Some dst /\
    setPixelBlend x y color fb = Some (<[PixelSpec.offset x y := px]> fb) /\
    (Z.min (Color.r dst) (Color.r color) - 1 <= Color.r px
       <= Z.max (Color.r dst) (Color.r color)) /\
    (Z.min (Color.g dst) (Color.g color) - 1 <= Color.g px
       <= Z.max (Color.g dst) (Color.g color)) /\
    (Z.min (Color.b dst) (Color.b color) - 1 <= Color.b px
       <= Z.max (Color.b dst) (Color.b color)) /\
    Color.r px <= 14 /\ Color.g px <= 14 /\ Color.b px <= 14.
Proof.
  intros Hx Hy Hfb Ha.
  destruct (setPixelBlend_in_bounds x y color fb Hx Hy Hfb Ha) as (dst & Hdst & Hres).
  eexists dst, _. split; [exact Hdst|]. split; [exact Hres|].
  pose proof (ColorFacts.a_range color) as Hra.
  pose proof (ColorFacts.make_fields _ _ _ _
    (blendChannel_range _ _ _ (ColorFacts.r_range dst) (ColorFacts.r_range color) Hra)
    (blendChannel_range _ _ _ (ColorFacts.g_range dst) (ColorFacts.g_range color) Hra)
    (blendChannel_range _ _ _ (ColorFacts.b_range dst) (ColorFacts.b_range color) Hra)
    (ColorFacts.a_range dst)) as (Hr & Hg & Hb & _).
  rewrite Hr, Hg, Hb.
  pose proof (BlendFacts.blendChannel_between _ _ _
                (ColorFacts.r_range dst) (ColorFacts.r_range color) Hra).
  pose proof (BlendFacts.blendChannel_between _ _ _
                (ColorFacts.g_range dst) (ColorFacts.g_range color) Hra).
  pose proof (BlendFacts.blendChannel_between _ _ _
                (ColorFacts.b_range dst) (ColorFacts.b_range color) Hra).
  lia.
Qed.

Lemma setPixelBlend_stays_between_witness :
  exists dst px,
    Examples.black4 !! PixelSpec.offset (cfg := Examples.cfg2x2) 1 1 = Some dst /\
    setPixelBlend (cfg := Examples.cfg2x2) 1 1 0x8F5A Examples.black4
    = Some (<[PixelSpec.offset (cfg := Examples.cfg2x2) 1 1 := px]> Examples.black4) /\
    Color.r px <= 14.
Proof.
  destruct (setPixelBlend_stays_between (cfg := Examples.cfg2x2) 1 1 0x8F5A
              Examples.black4)
    as (dst & px & Hd & Hs & _ & _ & _ & Hr & _);
    [cbn; lia | cbn; lia | reflexivity | vm_compute; discriminate |].
  exists dst, px. repeat split; assumption.
Defined.

(** X29. Packing and unpacking a colour are inverse to each other: the
    four-component constructor keeps the low four bits of each component
    and yields a 16-bit word whose fields are those four nibbles, and
    building a colour from the fields of a 16-bit word gives the word
    back. *)
Theorem color_pack_unpack :
  (forall r g b a,
     0 <= Color.make r g b a < 2 ^ 16 /\
     Color.r (Color.make r g b a) = r mod 16 /\
     Color.g (Color.make r g b a) = g mod 16 /\
     Color.b (Color.make r g b a) = b mod 16 /\
     Color.a (Color.make r g b a) = a mod 16) /\
  (forall c,
     0 <= c < 2 ^ 16 ->
     Color.make (Color.r c) (Color.g c) (Color.b c) (Color.a c) = c).
Proof.
  split.
  - intros r g b a.
    rewrite ColorFacts.r_mod, ColorFacts.g_mod, ColorFacts.b_mod,
      ColorFacts.a_mod, ColorFacts.make_sum.
    pose proof (Z.mod_pos_bound r 16 ltac:(lia)).
    pose proof (Z.mod_pos_bound g 16 ltac:(lia)).
    pose proof (Z.mod_pos_bound b 16 ltac:(lia)).
    pose proof (Z.mod_pos_bound a 16 ltac:(lia)).
    generalize dependent (r mod 16). generalize dependent (g mod 16).
    generalize dependent (b mod 16). generalize dependent (a mod 16).
    intros. repeat split; try lia; Z.div_mod_to_equations; lia.
  - intros c Hc.
    rewrite ColorFacts.make_sum, ColorFacts.r_mod, ColorFacts.g_mod,
      ColorFacts.b_mod, ColorFacts.a_mod.
    rewrite !Z.mod_mod by lia.
    Z.div_mod_to_equations. lia.
Qed.

Lemma color_pack_unpack_witness :
  Color.make (Color.r 0x8F5A) (Color.g 0x8F5A) (Color.b 0x8F5A) (Color.a 0x8F5A)
  = 0x8F5A /\
  Color.r (Color.make 0x1A 5 0xF 8) = 0xA.
Proof.
  split.
  - apply (proj2 color_pack_unpack 0x8F5A). lia.
  - destruct (proj1 color_pack_unpack 0x1A 5 0xF 8) as (_ & Hr & _).
    exact Hr.
Defined.

(** ** Further properties of drawing *)

Module DrawFacts.
Import PixelSpec DrawSpec Renderer.

Section WithConfig.
Context {cfg : Config} {font : FontEngine}.














End WithConfig.
End DrawFacts.

(** The glyphs of the example faces fit. *)
Module ExampleFacts.



End ExampleFacts.

(** Glyph arrays that hold their boxes. *)
Module GlyphFitFacts.
Import DrawSpec Renderer.


Section WithConfig.
Context {cfg : Config} {font : FontEngine}.






End WithConfig.
End GlyphFitFacts.





Module FaintFacts.
Import Renderer.

Section WithConfig.
Context {cfg : Config} {font : FontEngine}.

(** The alpha a glyph pixel is blended with, for a draw colour whose
    alpha is 0 or 1: always 0. *)
Lemma scaled_alpha_zero color coverage :
  Color.a color <= 1 ->
  Color.a (Color.set_a color
             (Z.shiftr (u8 (Color.a color) * Z.shiftr (u8 coverage) 4) 4)) = 0.
Proof.
  intros Ha. pose proof (ColorFacts.a_range color) as Hr.
  assert (Hc : 0 <= u8 coverage < 256) by (unfold u8; apply Z.mod_pos_bound; lia).
  rewrite (u8_small (Color.a color)) by lia.
  assert (E : Z.shiftr (Color.a color * Z.shiftr (u8 coverage) 4) 4 = 0).
  { rewrite !Z.shiftr_div_pow2 by lia. change (2 ^ 4) with 16.
    assert (0 <= u8 coverage / 16 <= 15) by (Z.div_mod_to_equations; lia).
    apply Z.div_small. nia. }
  rewrite E. unfold Color.set_a.
  apply (ColorFacts.make_fields _ _ _ 0 (ColorFacts.r_range color)
           (ColorFacts.g_range color) (ColorFacts.b_range color)). lia.
Qed.

Lemma blitGlyph_faint glyph bmp currX y fontSize color (fb : Surface.t) :
  Color.a color <= 1 ->
  blitGlyph glyph bmp currX y fontSize color fb = Some fb.
Proof.
  intros Ha. unfold blitGlyph.
  destruct (LoopFacts.for_range_inv (fun _ s => s = fb)
    0 (FontManager.height glyph)
    (fun gy =>
       for_range 0 (FontManager.width glyph) (fun gx fb0 =>
         let alpha :=
           u8 (default 0 (bmp !! Z.to_nat
                 (u32 (u32 (gy * FontManager.width glyph) + gx)))) in
         if 0 <? alpha then
           let c := Color.set_a color
                      (Z.shiftr (u8 (Color.a color) * Z.shiftr alpha 4) 4) in
           setPixelBlend (u32 (currX + gx + FontManager.xOffset glyph))
                         (u32 (y + gy + FontManager.yOffset glyph + fontSize))
                         c fb0
         else Some fb0)) fb) as (fb' & E & ->); [reflexivity | | exact E].
  intros gy s _ ->.
  destruct (LoopFacts.for_range_inv (fun _ s => s = fb)
    0 (FontManager.width glyph)
    (fun gx fb0 =>
       let alpha :=
         u8 (default 0 (bmp !! Z.to_nat
               (u32 (u32 (gy * FontManager.width glyph) + gx)))) in
       if 0 <? alpha then
         let c := Color.set_a color
                    (Z.shiftr (u8 (Color.a color) * Z.shiftr alpha 4) 4) in
         setPixelBlend (u32 (currX + gx + FontManager.xOffset glyph))
                       (u32 (y + gy + FontManager.yOffset glyph + fontSize))
                       c fb0
       else Some fb0) fb) as (s' & E' & ->); [reflexivity | | eauto].
  intros gx s _ ->. cbv zeta. exists fb. split; [|reflexivity].
  destruct (0 <? _); [|reflexivity].
  apply PixelFacts2.setPixelBlend_transparent, scaled_alpha_zero, Ha.
Qed.

Lemma drawString_body_faint mono x size color cp s :
  Color.a color <= 1 ->
  fb (out (drawString_body mono x size color cp s)) = fb (out s).
Proof.
  intros Ha. unfold drawString_body.
  destruct (cp =? 10); [reflexivity|].
  destruct (FontManager.getOrCreateGlyph cp mono size (fonts (out s)))
    as [glyph fonts'].
  cbn [out fb].
  destruct (FontManager.glyphBmp (FontManager.obj glyph)) as [bmp|]; [|reflexivity].
  destruct (fb (out s)) as [fb0|]; [|reflexivity]. cbn.
  apply blitGlyph_faint, Ha.
Qed.

End WithConfig.
End FaintFacts.

(** X7. Text drawn in a colour whose alpha is 0 or 1 is invisible:
    [drawString] leaves the surface exactly as it was, because the alpha
    each glyph pixel is blended with, [(a * (coverage >> 4)) >> 4], is
    then 0 for every coverage. *)
Theorem drawString_faint_is_invisible {cfg : Config} {font : FontEngine}
    (text : string) (mono : bool) (x y size : Z) (color : Color.t)
    (st : Renderer.state) :
  Color.a color <= 1 ->
  Renderer.fb (Renderer.drawString text mono x y size color st) = Renderer.fb st.
Proof.
  intros Ha. unfold Renderer.drawString, Renderer.drawString_pen.
  rewrite TextLoopFacts.text_loop_fold.
  generalize (TextMeasure.decoded_upto (length (list_byte_of_string text))
                (list_byte_of_string text)).
  intros cps.
  assert (Hgen : forall s,
            Renderer.fb (Renderer.out (foldl (fun s cp =>
              Renderer.drawString_body mono x size color cp s) s cps))
            = Renderer.fb (Renderer.out s)).
  { induction cps as [|c cps IH]; intros s; [reflexivity|].
    cbn [foldl]. rewrite IH. apply FaintFacts.drawString_body_faint, Ha. }
  apply Hgen.
Qed.

Lemma drawString_faint_is_invisible_witness :
  Renderer.fb (Renderer.drawString (cfg := Examples.cfg2x2)
                 (font := Examples.blockFont) "A" false 0 0 1 0x1FFF
                 Examples.blankScreen)
  = Some Examples.black4 /\
  Renderer.fb (Renderer.drawString (cfg := Examples.cfg2x2)
                 (font := Examples.blockFont) "A" false 0 0 1 0xFFFF
                 Examples.blankScreen)
  = Some [0x0DDD; 0; 0; 0].
Proof.
  split.
  - apply (drawString_faint_is_invisible (cfg := Examples.cfg2x2)
             (font := Examples.blockFont) "A" false 0 0 1 0x1FFF
             Examples.blankScreen).
    vm_compute. discriminate.
  - vm_compute. reflexivity.
Defined.

(** ** Further properties of the decoder *)

Module Utf8Facts.
Import hlp Utf8Spec.

Lemma is_cont_cont c : 0 <= c < 256 -> is_cont c = cont c.
Proof.
  intros Hc.
  assert (Hall : forallb (fun c => Bool.eqb (is_cont c) (cont c)) (seqZ 0 256) = true)
    by (vm_compute; reflexivity).
  rewrite forallb_forall in Hall.
  apply Bool.eqb_prop, Hall, list_elem_of_In, elem_of_seqZ. lia.
Qed.

Lemma cont_range c : cont c = true -> 0x80 <= c < 0xC0.
Proof.
  unfold cont. intros H. apply andb_true_iff in H as [H1 H2].
  apply Z.leb_le in H1. apply Z.ltb_lt in H2. lia.
Qed.

Lemma lor_mul_add hi lo k :
  0 <= k -> 0 <= lo < 2 ^ k -> Z.lor (Z.shiftl hi k) lo = hi * 2 ^ k + lo.
Proof.
  intros Hk Hlo. rewrite Z.lor_comm, lor_shiftl_add by lia. lia.
Qed.

Lemma lor_pack hi lo k :
  0 <= k -> 0 <= lo < 2 ^ k -> Z.lor (hi * 2 ^ k) lo = hi * 2 ^ k + lo.
Proof.
  intros Hk Hlo. rewrite <- (lor_mul_add hi lo k) by lia.
  rewrite Z.shiftl_mul_pow2 by lia. reflexivity.
Qed.

Lemma land_low c k : 0 <= k -> Z.land c (Z.ones k) = c mod 2 ^ k.
Proof. intros. apply Z.land_ones. lia. Qed.

(** The bit-level decoder and its arithmetic reading agree. *)
Lemma decode_utf8_decode p : decode_utf8 p = decode p.
Proof.
  unfold decode_utf8, decode. cbv zeta.
  pose proof (DecodeFacts.byte_at_range p 0) as H0.
  pose proof (DecodeFacts.byte_at_range p 1) as H1.
  pose proof (DecodeFacts.byte_at_range p 2) as H2.
  pose proof (DecodeFacts.byte_at_range p 3) as H3.
  rewrite !is_cont_cont by assumption.
  set (b0 := byte_at p 0) in *. set (b1 := byte_at p 1) in *.
  set (b2 := byte_at p 2) in *. set (b3 := byte_at p 3) in *.
  destruct (Z.ltb_spec b0 0x80) as [L1|L1]; [reflexivity|].
  destruct (Z.ltb_spec b0 0xC2) as [L2|L2].
  { replace (0xC2 <=? b0) with false by (symmetry; apply Z.leb_gt; lia).
    replace (0xE0 <=? b0) with false by (symmetry; apply Z.leb_gt; lia).
    replace (0xF0 <=? b0) with false by (symmetry; apply Z.leb_gt; lia).
    reflexivity. }
  replace (0xC2 <=? b0) with true by (symmetry; apply Z.leb_le; lia).
  destruct (Z.ltb_spec b0 0xE0) as [L3|L3]; cbn [andb].
  { destruct (cont b1) eqn:C1; cbn [negb].
    - apply cont_range in C1. f_equal. f_equal.
      change 0x1F with (Z.ones 5). change 0x3F with (Z.ones 6).
      rewrite !land_low by lia. rewrite lor_mul_add.
      + change (2 ^ 5) with 32. change (2 ^ 6) with 64.
        Z.div_mod_to_equations. lia.
      + lia.
      + apply Z.mod_pos_bound. lia.
    - replace (0xE0 <=? b0) with false by (symmetry; apply Z.leb_gt; lia).
      replace (0xF0 <=? b0) with false by (symmetry; apply Z.leb_gt; lia).
      reflexivity. }
  replace (0xE0 <=? b0) with true by (symmetry; apply Z.leb_le; lia).
  destruct (Z.ltb_spec b0 0xF0) as [L4|L4]; cbn [andb].
  { destruct (cont b1) eqn:C1; cbn [negb orb andb].
    2: { replace (0xF0 <=? b0) with false by (symmetry; apply Z.leb_gt; lia).
         reflexivity. }
    destruct (cont b2) eqn:C2; cbn [negb orb andb].
    2: { replace (0xF0 <=? b0) with false by (symmetry; apply Z.leb_gt; lia).
         reflexivity. }
    apply cont_range in C1. apply cont_range in C2. f_equal. f_equal.
    change 0x0F with (Z.ones 4). change 0x3F with (Z.ones 6).
    rewrite !land_low by lia.
    change (2 ^ 4) with 16. change (2 ^ 6) with 64.
    assert (E0 : b0 mod 16 = b0 - 224) by (Z.div_mod_to_equations; lia).
    assert (E1 : b1 mod 64 = b1 - 128) by (Z.div_mod_to_equations; lia).
    assert (E2 : b2 mod 64 = b2 - 128) by (Z.div_mod_to_equations; lia).
    rewrite E0, E1, E2.
    rewrite (Z.lor_comm (Z.shiftl (b0 - 224) 12)).
    rewrite (lor_shiftl_add (Z.shiftl (b1 - 128) 6) (b0 - 224) 12)
      by (rewrite ?Z.shiftl_mul_pow2 by lia; lia).
    rewrite Z.shiftl_mul_pow2 by lia.
    replace ((b1 - 128) * 2 ^ 6 + (b0 - 224) * 2 ^ 12)
      with (((b1 - 128) + (b0 - 224) * 64) * 2 ^ 6) by lia.
    rewrite <- Z.shiftl_mul_pow2 by lia.
    rewrite lor_mul_add by lia. lia. }
  replace (0xF0 <=? b0) with true by (symmetry; apply Z.leb_le; lia).
  destruct (Z.ltb_spec b0 0xF5) as [L5|L5]; cbn [andb]; [|reflexivity].
  destruct (cont b1) eqn:C1; cbn [negb orb andb]; [|reflexivity].
  destruct (cont b2) eqn:C2; cbn [negb orb andb]; [|reflexivity].
  destruct (cont b3) eqn:C3; cbn [negb orb andb]; [|reflexivity].
  apply cont_range in C1. apply cont_range in C2. apply cont_range in C3.
  f_equal. f_equal.
  change 0x07 with (Z.ones 3). change 0x3F with (Z.ones 6).
  rewrite !land_low by lia.
  change (2 ^ 3) with 8. change (2 ^ 6) with 64.
  assert (E0 : b0 mod 8 = b0 - 240) by (Z.div_mod_to_equations; lia).
  assert (E1 : b1 mod 64 = b1 - 128) by (Z.div_mod_to_equations; lia).
  assert (E2 : b2 mod 64 = b2 - 128) by (Z.div_mod_to_equations; lia).
  assert (E3 : b3 mod 64 = b3 - 128) by (Z.div_mod_to_equations; lia).
  rewrite E0, E1, E2, E3.
  rewrite !Z.shiftl_mul_pow2 by lia.
  rewrite (lor_pack (b0 - 240) ((b1 - 128) * 2 ^ 12) 18) by lia.
  replace ((b0 - 240) * 2 ^ 18 + (b1 - 128) * 2 ^ 12)
    with (((b0 - 240) * 64 + (b1 - 128)) * 2 ^ 12) by lia.
  rewrite (lor_pack _ ((b2 - 128) * 2 ^ 6) 12) by lia.
  replace (((b0 - 240) * 64 + (b1 - 128)) * 2 ^ 12 + (b2 - 128) * 2 ^ 6)
    with ((((b0 - 240) * 64 + (b1 - 128)) * 64 + (b2 - 128)) * 2 ^ 6) by lia.
  rewrite (lor_pack _ (b3 - 128) 6) by lia.
  lia.
Qed.

End Utf8Facts.

Module Utf8Cases.
Import hlp Utf8Spec.

Lemma byte_at_beyond p k : (length p <= k)%nat -> byte_at p k = 0.
Proof.
  intros Hk. unfold byte_at. rewrite (proj2 (lookup_ge_None p k) Hk). reflexivity.
Qed.

(** The cases of a successful decode. *)
Lemma decode_Some p cp len :
  decode p = Some (cp, len) ->
  let b0 := byte_at p 0 in
  let b1 := byte_at p 1 in
  let b2 := byte_at p 2 in
  let b3 := byte_at p 3 in
  (len = 1 /\ b0 < 0x80 /\ cp = b0) \/
  (len = 2 /\ 0xC2 <= b0 < 0xE0 /\ 0x80 <= b1 < 0xC0 /\
   cp = (b0 - 0xC0) * 64 + (b1 - 0x80)) \/
  (len = 3 /\ 0xE0 <= b0 < 0xF0 /\ 0x80 <= b1 < 0xC0 /\ 0x80 <= b2 < 0xC0 /\
   cp = (b0 - 0xE0) * 4096 + (b1 - 0x80) * 64 + (b2 - 0x80)) \/
  (len = 4 /\ 0xF0 <= b0 < 0xF5 /\ 0x80 <= b1 < 0xC0 /\ 0x80 <= b2 < 0xC0 /\
   0x80 <= b3 < 0xC0 /\
   cp = (b0 - 0xF0) * 262144 + (b1 - 0x80) * 4096 + (b2 - 0x80) * 64
        + (b3 - 0x80)).
Proof.
  unfold decode. cbv zeta.
  repeat match goal with
         | |- context [if ?c then _ else _] => destruct c eqn:?
         end; intros E; try discriminate; injection E as <- <-;
    repeat match goal with
           | H : _ && _ = true |- _ => apply andb_true_iff in H as [? ?]
           | H : cont _ = true |- _ => apply Utf8Facts.cont_range in H
           | H : (_ <=? _) = true |- _ => apply Z.leb_le in H
           | H : (_ <? _) = true |- _ => apply Z.ltb_lt in H
           end.
  - left. lia.
  - right. left. lia.
  - right. right. left. lia.
  - right. right. right. lia.
Qed.

End Utf8Cases.

(** X8. [decode_utf8] computes what UTF-8 decoding is in arithmetic: the
    lead byte selects a length of 1 to 4 (leads 0x80..0xC1 and 0xF5..0xFF
    are refused), each further byte must lie in 0x80..0xBF, and the value
    is the lead's payload followed by six bits of every continuation
    byte. *)
Theorem decode_utf8_reads_payload (p : list byte) :
  hlp.decode_utf8 p = Utf8Spec.decode p.
Proof. apply Utf8Facts.decode_utf8_decode. Qed.

(** X9. Called on a byte that is not NUL, a successful [decode_utf8]
    consumes only bytes that are not NUL: the sequence it reports lies
    inside the string, so the text loops never step over the
    terminator. *)
Theorem decode_utf8_stays_inside (p : list byte) (cp len : Z) :
  hlp.byte_at p 0 <> 0 ->
  hlp.decode_utf8 p = Some (cp, len) ->
  (forall k : nat, (k < Z.to_nat len)%nat -> hlp.byte_at p k <> 0) /\
  (Z.to_nat len <= length p)%nat.
Proof.
  intros H0 E. rewrite Utf8Facts.decode_utf8_decode in E.
  pose proof (Utf8Cases.decode_Some p cp len E) as Hc. cbv zeta in Hc.
  assert (Hk : forall k : nat, (k < Z.to_nat len)%nat -> hlp.byte_at p k <> 0).
  { intros k Hlt.
    destruct Hc as [Hc|[Hc|[Hc|Hc]]];
      destruct k as [|[|[|[|k]]]]; try lia; try exact H0. }
  split; [exact Hk|].
  destruct (decide (Z.to_nat len <= length p)%nat) as [Hle|Hgt]; [exact Hle|].
  exfalso. apply (Hk (length p)); [lia|].
  apply Utf8Cases.byte_at_beyond. lia.
Qed.

Lemma decode_utf8_stays_inside_witness :
  hlp.decode_utf8 [Byte.xc3; Byte.xa9; Byte.x41] = Some (0xE9, 2) /\
  hlp.byte_at [Byte.xc3; Byte.xa9; Byte.x41] 1 <> 0 /\
  (Z.to_nat 2 <= length [Byte.xc3; Byte.xa9; Byte.x41])%nat.
Proof.
  destruct (decode_utf8_stays_inside [Byte.xc3; Byte.xa9; Byte.x41] 0xE9 2)
    as [Hk Hlen]; [vm_compute; discriminate | reflexivity |].
  split; [reflexivity|]. split; [apply (Hk 1%nat); cbn; lia | exact Hlen].
Defined.

(** X10. What [decode_utf8] returns by length: one byte gives a value
    below 0x80, two bytes a value in 0x80..0x7FF (never an overlong
    form), three bytes a value below 0x10000 and four bytes a value below
    0x140000. *)
Theorem decode_utf8_value_ranges (p : list byte) (cp len : Z) :
  hlp.decode_utf8 p = Some (cp, len) ->
  (len = 1 /\ 0 <= cp < 0x80) \/
  (len = 2 /\ 0x80 <= cp < 0x800) \/
  (len = 3 /\ 0 <= cp < 0x10000) \/
  (len = 4 /\ 0 <= cp < 0x140000).
Proof.
  intros E. rewrite Utf8Facts.decode_utf8_decode in E.
  pose proof (Utf8Cases.decode_Some p cp len E) as Hc. cbv zeta in Hc.
  pose proof (DecodeFacts.byte_at_range p 0).
  destruct Hc as [Hc|[Hc|[Hc|Hc]]]; [left | right; left | right; right; left
                                     | right; right; right]; lia.
Qed.

Lemma decode_utf8_value_ranges_witness :
  hlp.decode_utf8 [Byte.xc3; Byte.xa9] = Some (0xE9, 2) /\ 0x80 <= 0xE9 < 0x800.
Proof.
  destruct (decode_utf8_value_ranges [Byte.xc3; Byte.xa9] 0xE9 2 eq_refl)
    as [[H _]|[[_ H]|[[H _]|[H _]]]]; try discriminate.
  split; [reflexivity | exact H].
Defined.

(** X11. The three-byte and four-byte forms are taken at face value: a
    lead 0xE0 + a (a < 16) followed by continuation bytes 0x80 + b and
    0x80 + c decodes to a * 4096 + b * 64 + c whatever a, b and c are, so
    overlong forms (a newline written E0 80 8A) and surrogates are
    accepted; a lead 0xF0 + a (a < 5) with three continuation bytes
    decodes to values up to 0x13FFFF, beyond the last code point. *)
Theorem decode_utf8_accepts_any_payload (p : list byte) (a b c d : Z) :
  0 <= b < 64 -> 0 <= c < 64 -> 0 <= d < 64 ->
  hlp.byte_at p 1 = 0x80 + b -> hlp.byte_at p 2 = 0x80 + c ->
  (0 <= a < 16 -> hlp.byte_at p 0 = 0xE0 + a ->
   hlp.decode_utf8 p = Some (a * 4096 + b * 64 + c, 3)) /\
  (0 <= a < 5 -> hlp.byte_at p 0 = 0xF0 + a -> hlp.byte_at p 3 = 0x80 + d ->
   hlp.decode_utf8 p = Some (a * 262144 + b * 4096 + c * 64 + d, 4)).
Proof.
  intros Hb Hc Hd E1 E2. rewrite Utf8Facts.decode_utf8_decode.
  unfold Utf8Spec.decode, Utf8Spec.cont. cbv zeta. rewrite E1, E2. split.
  - intros Ha E0. rewrite E0.
    replace (0xE0 + a <? 0x80) with false by (symmetry; apply Z.ltb_ge; lia).
    replace (0xC2 <=? 0xE0 + a) with true by (symmetry; apply Z.leb_le; lia).
    replace (0xE0 + a <? 0xE0) with false by (symmetry; apply Z.ltb_ge; lia).
    replace (0xE0 <=? 0xE0 + a) with true by (symmetry; apply Z.leb_le; lia).
    replace (0xE0 + a <? 0xF0) with true by (symmetry; apply Z.ltb_lt; lia).
    replace (0x80 <=? 0x80 + b) with true by (symmetry; apply Z.leb_le; lia).
    replace (0x80 + b <? 0xC0) with true by (symmetry; apply Z.ltb_lt; lia).
    replace (0x80 <=? 0x80 + c) with true by (symmetry; apply Z.leb_le; lia).
    replace (0x80 + c <? 0xC0) with true by (symmetry; apply Z.ltb_lt; lia).
    cbn [andb]. do 2 f_equal. lia.
  - intros Ha E0 E3. rewrite E0, E3.
    replace (0xF0 + a <? 0x80) with false by (symmetry; apply Z.ltb_ge; lia).
    replace (0xC2 <=? 0xF0 + a) with true by (symmetry; apply Z.leb_le; lia).
    replace (0xF0 + a <? 0xE0) with false by (symmetry; apply Z.ltb_ge; lia).
    replace (0xE0 <=? 0xF0 + a) with true by (symmetry; apply Z.leb_le; lia).
    replace (0xF0 + a <? 0xF0) with false by (symmetry; apply Z.ltb_ge; lia).
    replace (0xF0 <=? 0xF0 + a) with true by (symmetry; apply Z.leb_le; lia).
    replace (0xF0 + a <? 0xF5) with true by (symmetry; apply Z.ltb_lt; lia).
    replace (0x80 <=? 0x80 + b) with true by (symmetry; apply Z.leb_le; lia).
    replace (0x80 + b <? 0xC0) with true by (symmetry; apply Z.ltb_lt; lia).
    replace (0x80 <=? 0x80 + c) with true by (symmetry; apply Z.leb_le; lia).
    replace (0x80 + c <? 0xC0) with true by (symmetry; apply Z.ltb_lt; lia).
    replace (0x80 <=? 0x80 + d) with true by (symmetry; apply Z.leb_le; lia).
    replace (0x80 + d <? 0xC0) with true by (symmetry; apply Z.ltb_lt; lia).
    cbn [andb]. do 2 f_equal. lia.
Qed.

Lemma decode_utf8_accepts_any_payload_witness :
  hlp.decode_utf8 [Byte.xe0; Byte.x80; Byte.x8a] = Some (10, 3) /\
  hlp.decode_utf8 [Byte.xf4; Byte.x90; Byte.x80; Byte.x80] = Some (0x110000, 4).
Proof.
  split.
  - apply (proj1 (decode_utf8_accepts_any_payload
                    [Byte.xe0; Byte.x80; Byte.x8a] 0 0 10 0
                    ltac:(lia) ltac:(lia) ltac:(lia) eq_refl eq_refl));
      [lia | reflexivity].
  - apply (proj2 (decode_utf8_accepts_any_payload
                    [Byte.xf4; Byte.x90; Byte.x80; Byte.x80] 4 16 0 0
                    ltac:(lia) ltac:(lia) ltac:(lia) eq_refl eq_refl));
      [lia | reflexivity | reflexivity].
Defined.

(** ** Further properties of the glyph cache *)

Module GlyphCacheMore.
Import FontManager GlyphCache.

#[local] Arguments cacheKey : simpl never.
#[local] Arguments makeGlyph : simpl never.

Lemma testbit_one n : Z.testbit 1 n = (n =? 0).
Proof.
  destruct (Z.eqb_spec n 0) as [->|Hn]; [reflexivity|].
  destruct (Z.lt_ge_cases n 0); [apply Z.testbit_neg_r; lia|].
  apply Z.bits_above_log2; cbn; lia.
Qed.

Lemma lor_bit63 z : Z.testbit z 63 = true -> Z.lor z (Z.shiftl 1 63) = z.
Proof.
  intros Hz. apply Z.bits_inj'. intros n Hn.
  rewrite Z.lor_spec, Z.shiftl_spec, testbit_one by lia.
  destruct (Z.eqb_spec (n - 63) 0) as [E|E].
  - replace n with 63 by lia. rewrite Hz. reflexivity.
  - apply orb_false_r.
Qed.

Lemma cacheKey_flag_lost c sz :
  2 ^ 31 <= c < 2 ^ 32 -> cacheKey c false sz = cacheKey c true sz.
Proof.
  intros Hc. unfold cacheKey. symmetry. apply lor_bit63.
  rewrite Z.lor_spec. apply orb_true_iff. left.
  unfold u64. rewrite Z.shiftl_mul_pow2, Z.mod_small by lia.
  rewrite <- Z.shiftl_mul_pow2, Z.shiftl_spec by lia.
  apply Z.testbit_true; [lia|].
  change (63 - 32) with 31.
  replace (c / 2 ^ 31) with 1; [reflexivity|].
  apply Z.div_unique with (r := c - 2 ^ 31); lia.
Qed.

Section WithFont.
Context {font : FontEngine}.

Lemma getOrCreateGlyph_size c m sz st :
  size (s_glyphCache st) = next_addr st ->
  size (s_glyphCache (snd (getOrCreateGlyph c m sz st)))
  = next_addr (snd (getOrCreateGlyph c m sz st)) /\
  (next_addr st <= next_addr (snd (getOrCreateGlyph c m sz st)))%nat.
Proof.
  intros Hs. unfold getOrCreateGlyph.
  destruct (s_glyphCache st !! cacheKey c m sz) eqn:E; cbn; [lia|].
  rewrite map_size_insert_None by exact E. lia.
Qed.

Lemma requests_size rs st :
  size (s_glyphCache st) = next_addr st ->
  size (s_glyphCache (requests rs st)) = next_addr (requests rs st) /\
  (next_addr st <= next_addr (requests rs st))%nat.
Proof.
  revert st. induction rs as [|[[c m] sz] rs IH]; intros st Hs.
  - split; [exact Hs | reflexivity].
  - destruct (getOrCreateGlyph_size c m sz st Hs) as [Hs1 Hle].
    destruct (IH _ Hs1) as [Hs2 Hle2].
    split; [exact Hs2 | exact (Nat.le_trans _ _ _ Hle Hle2)].
Qed.

End WithFont.
End GlyphCacheMore.

(** X12. The glyph cache only grows.  After any calls [pre], further
    calls [rs] leave every entry in place with the pointer it had; the
    number of entries equals the number of glyphs allocated, entry by
    entry at distinct addresses, and never decreases. *)
Theorem glyph_cache_only_grows {font : FontEngine}
    (pre rs : list GlyphCache.request) :
  let st := GlyphCache.requests pre FontManager.empty in
  let st' := GlyphCache.requests rs st in
  (forall k p,
     FontManager.s_glyphCache st !! k = Some p ->
     FontManager.s_glyphCache st' !! k = Some p) /\
  size (FontManager.s_glyphCache st') = FontManager.next_addr st' /\
  (size (FontManager.s_glyphCache st) <= size (FontManager.s_glyphCache st'))%nat /\
  (forall k1 k2 p1 p2,
     FontManager.s_glyphCache st' !! k1 = Some p1 ->
     FontManager.s_glyphCache st' !! k2 = Some p2 ->
     FontManager.addr p1 = FontManager.addr p2 -> k1 = k2).
Proof.
  intros st st'.
  destruct (GlyphCacheMore.requests_size pre FontManager.empty eq_refl) as [Hs _].
  destruct (GlyphCacheMore.requests_size rs st Hs) as [Hs' Hle].
  split; [intros k p; apply GlyphCacheFacts.requests_keeps|].
  split; [exact Hs'|]. split.
  - subst st st'. rewrite Hs, Hs'. exact Hle.
  - apply GlyphCache.wf_inj.
    apply GlyphCacheFacts.requests_wf, GlyphCacheFacts.requests_wf,
      GlyphCacheFacts.empty_wf.
Qed.

(** X13. The cache is a faithful memo.  After any calls whose characters
    are below [2 ^ 31] and whose sizes are [u32], a call for a character
    and a size returns the glyph the font engine gives for that character
    at that size, whether it was cached or not; the monospace flag selects
    the entry but has no effect on the glyph. *)
Theorem glyph_cache_is_faithful {font : FontEngine}
    (pre : list GlyphCache.request) (c : Z) (m : bool) (sz : Z) :
  Forall (fun '(c, _, sz) => 0 <= c < 2 ^ 31 /\ 0 <= sz < 2 ^ 32) pre ->
  0 <= c < 2 ^ 31 -> 0 <= sz < 2 ^ 32 ->
  let st := GlyphCache.requests pre FontManager.empty in
  FontManager.obj (fst (FontManager.getOrCreateGlyph c m sz st))
  = FontManager.makeGlyph c sz /\
  FontManager.obj (fst (FontManager.getOrCreateGlyph c (negb m) sz st))
  = FontManager.obj (fst (FontManager.getOrCreateGlyph c m sz st)).
Proof.
  intros Hpre Hc Hsz st.
  assert (Hst : GlyphCache.consistent st)
    by (apply GlyphCacheFacts.requests_consistent;
        [exact Hpre | apply GlyphCacheFacts.empty_consistent]).
  destruct (GlyphCacheFacts.getOrCreateGlyph_consistent c m sz st Hc Hsz Hst) as [E1 _].
  destruct (GlyphCacheFacts.getOrCreateGlyph_consistent c (negb m) sz st Hc Hsz Hst)
    as [E2 _].
  split; [exact E1 | congruence].
Qed.

Lemma glyph_cache_is_faithful_witness :
  let st := GlyphCache.requests (font := Examples.halfFont)
              [(66, false, 12); (65, true, 12)] FontManager.empty in
  FontManager.obj (fst (FontManager.getOrCreateGlyph (font := Examples.halfFont)
                          65 true 12 st))
  = FontManager.makeGlyph (font := Examples.halfFont) 65 12.
Proof.
  refine (proj1 (glyph_cache_is_faithful (font := Examples.halfFont)
                   [(66, false, 12); (65, true, 12)] 65 true 12 _ _ _)).
  - repeat constructor; lia.
  - lia.
  - lia.
Defined.

(** X14. For a character with bit 31 set the monospace flag is lost: it
    lands on bit 63 of the key, which the character already occupies, so
    a monospace request finds the entry of the plain request for the same
    character and size, returns that pointer and adds nothing. *)
Theorem monospace_flag_lost_above_bit31 {font : FontEngine}
    (c sz : Z) (st : FontManager.state) :
  2 ^ 31 <= c < 2 ^ 32 ->
  FontManager.cacheKey c false sz = FontManager.cacheKey c true sz /\
  let first := FontManager.getOrCreateGlyph c false sz st in
  FontManager.getOrCreateGlyph c true sz (snd first) = first.
Proof.
  intros Hc.
  pose proof (GlyphCacheMore.cacheKey_flag_lost c sz Hc) as Ek.
  split; [exact Ek|]. cbv zeta.
  pose proof (GlyphCacheFacts.getOrCreateGlyph_cached c false sz st) as Hcached.
  rewrite Ek in Hcached.
  rewrite (GlyphCacheFacts.getOrCreateGlyph_hit c true sz _ _ Hcached).
  destruct (FontManager.getOrCreateGlyph c false sz st); reflexivity.
Qed.

Lemma monospace_flag_lost_above_bit31_witness :
  FontManager.cacheKey 0x80000041 false 12 = FontManager.cacheKey 0x80000041 true 12 /\
  FontManager.getOrCreateGlyph (font := Examples.halfFont) 0x80000041 true 12
    (snd (FontManager.getOrCreateGlyph (font := Examples.halfFont)
            0x80000041 false 12 FontManager.empty))
  = FontManager.getOrCreateGlyph (font := Examples.halfFont)
      0x80000041 false 12 FontManager.empty.
Proof.
  apply (monospace_flag_lost_above_bit31 (font := Examples.halfFont)
           0x80000041 12 FontManager.empty). lia.
Defined.

(** ** Further properties of measuring and drawing text *)

Module TextCacheFacts.
Import Renderer TextMeasure GlyphCache.

Section WithFont.
Context {font : FontEngine}.

Lemma measure_body_keeps mono size c s k p :
  FontManager.s_glyphCache (cache s) !! k = Some p ->
  FontManager.s_glyphCache (cache (getTextDimensions_body mono size c s)) !! k
  = Some p.
Proof.
  intros Hk. unfold getTextDimensions_body.
  destruct (c =? 10); [exact Hk|].
  pose proof (GlyphCacheFacts.getOrCreateGlyph_keeps c mono size (cache s) k p Hk) as H.
  destruct (FontManager.getOrCreateGlyph c mono size (cache s)). exact H.
Qed.

Lemma measure_fold_keeps mono size cps s k p :
  FontManager.s_glyphCache (cache s) !! k = Some p ->
  FontManager.s_glyphCache
    (cache (foldl (fun s cp => getTextDimensions_body mono size cp s) s cps)) !! k
  = Some p.
Proof.
  revert s. induction cps as [|c cps IH]; intros s Hk; [exact Hk|].
  cbn [foldl]. apply IH, measure_body_keeps, Hk.
Qed.

(** Measuring again on a cache that already holds everything the first
    measurement cached: the same numbers, and no change to the cache. *)
Lemma measure_fold_warm mono size cps s s2 :
  (forall k p,
     FontManager.s_glyphCache
       (cache (foldl (fun s cp => getTextDimensions_body mono size cp s) s cps)) !! k
     = Some p ->
     FontManager.s_glyphCache (cache s2) !! k = Some p) ->
  width s2 = width s -> height s2 = height s -> maxWidth s2 = maxWidth s ->
  let r := foldl (fun s cp => getTextDimensions_body mono size cp s) s cps in
  let r2 := foldl (fun s cp => getTextDimensions_body mono size cp s) s2 cps in
  width r2 = width r /\ height r2 = height r /\ maxWidth r2 = maxWidth r /\
  cache r2 = cache s2.
Proof.
  revert s s2. induction cps as [|c cps IH]; intros s s2 Hsub Hw Hh Hm; cbv zeta.
  - cbn. repeat split; assumption.
  - cbn [foldl] in *.
    destruct (Z.eqb_spec c 10) as [->|Hne].
    + rewrite !TextFacts.measure_newline in *.
      destruct (IH _ {| width := 0; height := u32 (height s2 + size);
                        maxWidth := Z.max (width s2) (maxWidth s2);
                        cache := cache s2 |} Hsub)
        as (E1 & E2 & E3 & E4); cbn; try congruence.
      repeat split; assumption.
    + unfold getTextDimensions_body in Hsub |- *.
      apply Z.eqb_neq in Hne. rewrite Hne in Hsub |- *.
      pose proof (GlyphCacheFacts.getOrCreateGlyph_cached c mono size (cache s))
        as Hcached.
      destruct (FontManager.getOrCreateGlyph c mono size (cache s))
        as [glyph fonts'] eqn:Eg.
      cbn [fst snd] in Hcached.
      assert (Hin2 : FontManager.s_glyphCache (cache s2)
                       !! FontManager.cacheKey c mono size = Some glyph).
      { apply Hsub. apply measure_fold_keeps. exact Hcached. }
      rewrite (GlyphCacheFacts.getOrCreateGlyph_hit c mono size _ _ Hin2).
      destruct (IH _ {| width := f32.to_u32 (f32.add (f32.of_Z (width s2))
                                   (FontManager.xAdvance (FontManager.obj glyph)));
                        height := height s2; maxWidth := maxWidth s2;
                        cache := cache s2 |} Hsub)
        as (E1 & E2 & E3 & E4); cbn; try congruence.
      repeat split; assumption.
Qed.

Section WithConfig.
Context {cfg : Config}.

(** Drawing and measuring ask the cache for the same glyphs. *)
Lemma draw_measure_cache mono x size color cps e p :
  cache e = fonts (out p) ->
  cache (foldl (fun s cp => getTextDimensions_body mono size cp s) e cps)
  = fonts (out (foldl (fun s cp => drawString_body mono x size color cp s) p cps)).
Proof.
  revert e p. induction cps as [|c cps IH]; intros e p E; [exact E|].
  cbn [foldl]. apply IH.
  unfold getTextDimensions_body, drawString_body.
  destruct (c =? 10); [exact E|]. rewrite E.
  destruct (FontManager.getOrCreateGlyph c mono size (fonts (out p))).
  reflexivity.
Qed.

Lemma s32_add_s32 a b : s32 (s32 a + b) = s32 (a + b).
Proof.
  unfold s32. f_equal.
  replace ((a + 2 ^ 31) mod 2 ^ 32 - 2 ^ 31 + b + 2 ^ 31)
    with ((a + 2 ^ 31) mod 2 ^ 32 + b) by lia.
  rewrite Z.add_mod_idemp_l by lia. f_equal. lia.
Qed.

Lemma draw_fold_penY mono x size color cps p :
  s32 (penY (foldl (fun s cp => drawString_body mono x size color cp s) p cps))
  = s32 (penY p + size * newlines cps).
Proof.
  revert p. induction cps as [|c cps IH]; intros p.
  - cbn [foldl]. change (newlines []) with 0.
    rewrite Z.mul_0_r, Z.add_0_r. reflexivity.
  - cbn [foldl]. rewrite IH, TextFacts.newlines_cons.
    unfold drawString_body.
    destruct (Z.eqb_spec c 10) as [->|Hne].
    + cbn [penY]. rewrite s32_add_s32. f_equal; lia.
    + destruct (FontManager.getOrCreateGlyph c mono size (fonts (out p))).
      cbn [penY]. f_equal; lia.
Qed.

Lemma draw_fold_penY_s32 mono x size color cps p :
  s32 (penY p) = penY p ->
  s32 (penY (foldl (fun s cp => drawString_body mono x size color cp s) p cps))
  = penY (foldl (fun s cp => drawString_body mono x size color cp s) p cps).
Proof.
  revert p. induction cps as [|c cps IH]; intros p Hp; [exact Hp|].
  cbn [foldl]. apply IH. unfold drawString_body.
  destruct (c =? 10).
  - cbn [penY]. rewrite <- (Z.add_0_r (s32 (penY p + size))) at 1.
    rewrite s32_add_s32, Z.add_0_r. reflexivity.
  - destruct (FontManager.getOrCreateGlyph c mono size (fonts (out p))).
    exact Hp.
Qed.

End WithConfig.
End WithFont.
End TextCacheFacts.

Module MeasureAgain.

Lemma measure_again {font : FontEngine}
    (text : string) (mono : bool) (size : Z) (st : FontManager.state) :
  let first := Renderer.getTextDimensions text mono size st in
  Renderer.getTextDimensions text mono size (snd first) = first.
Proof.
  cbv zeta. unfold Renderer.getTextDimensions. cbv zeta. cbn [snd].
  rewrite !TextLoopFacts.text_loop_fold.
  set (cps := TextMeasure.decoded_upto _ _).
  destruct (TextCacheFacts.measure_fold_warm mono size cps
              {| Renderer.width := 0; Renderer.height := size;
                 Renderer.maxWidth := 0; Renderer.cache := st |}
              {| Renderer.width := 0; Renderer.height := size;
                 Renderer.maxWidth := 0;
                 Renderer.cache :=
                   Renderer.cache
                     (foldl (fun s cp =>
                        Renderer.getTextDimensions_body mono size cp s)
                        {| Renderer.width := 0; Renderer.height := size;
                           Renderer.maxWidth := 0; Renderer.cache := st |} cps) |})
    as (Ew & Eh & Em & Ec); try reflexivity.
  { intros k p Hk. exact Hk. }
  cbn [Renderer.cache] in Ec. rewrite Ew, Eh, Em, Ec. reflexivity.
Qed.

End MeasureAgain.

(** X15. Measuring the same text again changes nothing: run on the cache
    a first [getTextDimensions] left, a second one returns the same width
    and height and leaves the cache as it found it (every glyph is a
    hit). *)
Theorem getTextDimensions_again_is_stable {font : FontEngine}
    (text : string) (mono : bool) (size : Z) (st : FontManager.state) :
  let first := Renderer.getTextDimensions text mono size st in
  Renderer.getTextDimensions text mono size (snd first) = first.
Proof. apply MeasureAgain.measure_again. Qed.

(** X16. [drawString] and [getTextDimensions] leave the glyph cache in
    the same state, so measuring a text first makes drawing it find every
    glyph in the cache: drawing then leaves the cache unchanged. *)
Theorem drawString_caches_what_measuring_caches
    {cfg : Config} {font : FontEngine}
    (text : string) (mono : bool) (x y size : Z) (color : Color.t)
    (st : Renderer.state) :
  Renderer.fonts (Renderer.drawString text mono x y size color st)
  = snd (Renderer.getTextDimensions text mono size (Renderer.fonts st)) /\
  let warm := snd (Renderer.getTextDimensions text mono size (Renderer.fonts st)) in
  Renderer.fonts
    (Renderer.drawString text mono x y size color
       {| Renderer.fb := Renderer.fb st; Renderer.fonts := warm |})
  = warm.
Proof.
  assert (Hsame : forall st0 : Renderer.state,
    Renderer.fonts (Renderer.drawString text mono x y size color st0)
    = snd (Renderer.getTextDimensions text mono size (Renderer.fonts st0))).
  { intros st0.
    unfold Renderer.drawString, Renderer.drawString_pen, Renderer.getTextDimensions.
    cbv zeta. cbn [snd]. rewrite !TextLoopFacts.text_loop_fold.
    symmetry. apply TextCacheFacts.draw_measure_cache. reflexivity. }
  split; [apply Hsame|]. cbv zeta. rewrite Hsame. cbn [Renderer.fonts].
  exact (f_equal snd (MeasureAgain.measure_again text mono size (Renderer.fonts st))).
Qed.

(** X17. [drawString] moves its line origin down by exactly [fontSize]
    for every newline of the decoded prefix, in [s32], and has its cursor
    back at the start [x] whenever the prefix ends in a newline. *)
Theorem drawString_line_origin {cfg : Config} {font : FontEngine}
    (text : string) (mono : bool) (x y size : Z) (color : Color.t)
    (st : Renderer.state) :
  - 2 ^ 31 <= y < 2 ^ 31 ->
  let pen := Renderer.drawString_pen text mono x y size color st in
  Renderer.penY pen
  = s32 (y + size * TextMeasure.newlines (TextMeasure.decoded text)) /\
  (last (TextMeasure.decoded text) = Some 10 -> Renderer.currX pen = x).
Proof.
  intros Hy pen. subst pen. unfold Renderer.drawString_pen.
  rewrite TextLoopFacts.text_loop_fold. fold (TextMeasure.decoded text).
  split.
  - rewrite <- (TextCacheFacts.draw_fold_penY_s32 mono x size color).
    + apply TextCacheFacts.draw_fold_penY.
    + cbn [Renderer.penY]. unfold s32.
      rewrite Z.mod_small by lia. lia.
  - intros Hlast. apply last_Some in Hlast as [cps' ->].
    rewrite foldl_app. reflexivity.
Qed.

Lemma drawString_line_origin_witness :
  Renderer.penY
    (Renderer.drawString_pen (cfg := Examples.cfg2x2) (font := Examples.halfFont)
       Examples.twoLines false 3 7 10 style.ColorText Examples.blankScreen)
  = s32 (7 + 10 * TextMeasure.newlines (TextMeasure.decoded Examples.twoLines)) /\
  s32 (7 + 10 * TextMeasure.newlines (TextMeasure.decoded Examples.twoLines)) = 17.
Proof.
  split; [|reflexivity].
  apply (drawString_line_origin (cfg := Examples.cfg2x2)
           (font := Examples.halfFont) Examples.twoLines false 3 7 10
           style.ColorText Examples.blankScreen). lia.
Defined.

(** ** Further properties of layout *)

Module ElementInd.
Import elm.

(** Induction over element trees, through the items of a list and the
    content of a frame. *)
Lemma Element_tree_ind (P : Element -> Prop) :
  (forall b o d, P (Leaf b o d)) ->
  (forall b items s, Forall P items -> P (List b items s)) ->
  (forall b t s, P (OverlayFrame b t s None)) ->
  (forall b t s c, P c -> P (OverlayFrame b t s (Some c))) ->
  forall e, P e.
Proof.
  intros HLeaf HList HNone HSome.
  fix IH 1. intros [b o d|b items s|b t s [c|]].
  - apply HLeaf.
  - apply HList. induction items as [|item items IHitems]; constructor.
    + apply IH.
    + exact IHitems.
  - apply HSome, IH.
  - apply HNone.
Qed.

End ElementInd.

Module LayoutMore.
Import elm Layout Focus.

Lemma setBoundaries_idem x y w h b :
  setBoundaries x y w h (setBoundaries x y w h b) = setBoundaries x y w h b.
Proof. reflexivity. Qed.

Lemma u16_idem z : u16 (u16 z) = u16 z.
Proof. unfold u16. apply Z.mod_mod. lia. Qed.

(** Laying an element out twice in the same rectangle is laying it out
    once. *)
Lemma layout_idem e : forall x y w h,
  layout (layout e x y w h) x y w h = layout e x y w h.
Proof.
  induction e as [b o d|b items s IH|b t s|b t s c IH]
    using ElementInd.Element_tree_ind; intros x y w h.
  - reflexivity.
  - rewrite !LayoutFacts.layout_List. cbn [base]. f_equal.
    generalize (u16 (y - s)). induction IH as [|item items Hitem _ IHitems];
      intros currY; [reflexivity|].
    cbn [layoutItems]. cbv zeta.
    assert (E1 : layout (layout item x currY w (u16 (getHeight item))) x currY w
                   (u16 (getHeight (layout item x currY w (u16 (getHeight item)))))
                 = layout item x currY w (u16 (getHeight item))).
    { rewrite LayoutFacts.getHeight_layout. apply Hitem. }
    rewrite E1. f_equal. apply IHitems.
  - reflexivity.
  - rewrite !LayoutFacts.layout_OverlayFrame. f_equal. f_equal. apply IH.
Qed.

(** The children of a laid-out element are the children it had, each laid
    out in some rectangle. *)
Lemma child_layout i e x y w h :
  child i (layout e x y w h) = None /\ child i e = None \/
  exists c x' y' w' h',
    child i e = Some c /\
    child i (layout e x y w h) = Some (layout c x' y' w' h').
Proof.
  destruct e as [b o d|b items s|b t s [c|]].
  - left. split; reflexivity.
  - rewrite LayoutFacts.layout_List. cbn [child].
    destruct (items !! i) as [c|] eqn:Ei.
    + right. exists c. eexists _, _, _, _. split; [reflexivity|].
      apply LayoutFacts.layoutItems_lookup, Ei.
    + left. split; [|reflexivity].
      apply lookup_ge_None. rewrite LayoutFacts.length_layoutItems.
      apply lookup_ge_None, Ei.
  - destruct i as [|i].
    + right. exists c. eexists _, _, _, _. split; reflexivity.
    + left. split; reflexivity.
  - left. destruct i; split; reflexivity.
Qed.

Lemma isFocused_layout e x y w h : isFocused (layout e x y w h) = isFocused e.
Proof. unfold isFocused. rewrite LayoutFacts.base_layout. reflexivity. Qed.

Lemma layout_keeps_nodes p : forall e x y w h,
  isFocused_at p (layout e x y w h) = isFocused_at p e /\
  (is_Some (node_at p (layout e x y w h)) <-> is_Some (node_at p e)).
Proof.
  induction p as [|i p IH]; intros e x y w h.
  - split; [apply isFocused_layout|].
    cbn. split; intros _; eexists; reflexivity.
  - rewrite !FocusFacts.isFocused_at_cons, !FocusFacts.node_at_cons.
    destruct (child_layout i e x y w h)
      as [[-> ->]|(c & x' & y' & w' & h' & -> & ->)].
    + split; reflexivity.
    + cbn. apply IH.
Qed.

End LayoutMore.

(** X18. [List::layout] for any number of items: item [i] is given the
    list's [x] and width, its own height, and the position [y] minus the
    scroll offset plus the heights of the items before it, in [u16]; the
    list keeps as many items as it had. *)
Theorem list_layout_places_every_item (b : elm.ElementBase)
    (items : list elm.Element) (s x y w h : Z) (i : nat) (c : elm.Element) :
  items !! i = Some c ->
  exists items' c',
    elm.layout (elm.List b items s) x y w h
    = elm.List (elm.setBoundaries x y w h b) items' s /\
    length items' = length items /\
    items' !! i = Some c' /\
    elm.getX c' = x /\
    elm.getY c' = u16 (y - s + Layout.heightsBefore i items) /\
    elm.getWidth c' = w /\
    elm.m_height (elm.base c') = u16 (elm.getHeight c).
Proof.
  intros Hi. eexists _, _. split; [apply LayoutFacts.layout_List|].
  split; [apply LayoutFacts.length_layoutItems|].
  split; [apply LayoutFacts.layoutItems_lookup, Hi|].
  unfold elm.getX, elm.getY, elm.getWidth.
  rewrite LayoutFacts.base_layout. repeat split.
Qed.

Lemma list_layout_places_every_item_witness :
  exists items' c',
    elm.layout (elm.List elm.Element_new
                  [Examples.item; Examples.item; Examples.item; Examples.item] 30)
               20 100 1240 570
    = elm.List (elm.setBoundaries 20 100 1240 570 elm.Element_new) items' 30 /\
    items' !! 3%nat = Some c' /\
    elm.getY c' = 280.
Proof.
  destruct (list_layout_places_every_item elm.Element_new
              [Examples.item; Examples.item; Examples.item; Examples.item]
              30 20 100 1240 570 3 Examples.item eq_refl)
    as (items' & c' & Hl & _ & Hi & _ & Hy & _).
  exists items', c'. split; [exact Hl|]. split; [exact Hi|].
  rewrite Hy. reflexivity.
Defined.

(** X19. Layout is idempotent: laying a tree out a second time in the
    same rectangle changes nothing. *)
Theorem layout_twice_is_layout_once (e : elm.Element) (x y w h : Z) :
  elm.layout (elm.layout e x y w h) x y w h = elm.layout e x y w h.
Proof. apply LayoutMore.layout_idem. Qed.

(** X20. Layout changes bounds only: a pointer designates a node of the
    laid-out tree exactly when it designated one before, and every node
    keeps its focus flag, so the screen's focus survives a layout. *)
Theorem layout_keeps_focus (e : elm.Element) (x y w h : Z) (p : elm.ptr) :
  elm.isFocused_at p (elm.layout e x y w h) = elm.isFocused_at p e /\
  (is_Some (elm.node_at p (elm.layout e x y w h))
   <-> is_Some (elm.node_at p e)).
Proof. apply LayoutMore.layout_keeps_nodes. Qed.

(** X21. [OverlayFrame::layout] gives its content the frame's rectangle
    moved by (20, 100) and shrunk by 40 in width and 150 in height, all in
    [u16]: a frame narrower than 40 or lower than 150 hands its content a
    width or height that has wrapped around to more than 65000. *)
Theorem overlay_frame_margins (b : elm.ElementBase) (t s : string)
    (c : elm.Element) (x y w h : Z) :
  0 <= x < 2 ^ 16 -> 0 <= y < 2 ^ 16 -> 0 <= w < 2 ^ 16 -> 0 <= h < 2 ^ 16 ->
  exists c',
    elm.layout (elm.OverlayFrame b t s (Some c)) x y w h
    = elm.OverlayFrame (elm.setBoundaries x y w h b) t s (Some c') /\
    elm.getX c' = (x + 20) mod 2 ^ 16 /\
    elm.getY c' = (y + 100) mod 2 ^ 16 /\
    elm.getWidth c' = (if w <? 40 then w + 65496 else w - 40) /\
    elm.m_height (elm.base c') = (if h <? 150 then h + 65386 else h - 150).
Proof.
  intros Hx Hy Hw Hh. eexists. split; [apply LayoutFacts.layout_OverlayFrame|].
  unfold elm.getX, elm.getY, elm.getWidth.
  rewrite LayoutFacts.base_layout. cbn. unfold u16.
  repeat split.
  - destruct (Z.ltb_spec w 40); Z.div_mod_to_equations; lia.
  - destruct (Z.ltb_spec h 150); Z.div_mod_to_equations; lia.
Qed.

Lemma overlay_frame_margins_witness :
  exists c',
    elm.layout (elm.OverlayFrame elm.Element_new "T" "S" (Some Examples.item))
               0 0 30 100
    = elm.OverlayFrame (elm.setBoundaries 0 0 30 100 elm.Element_new) "T" "S"
        (Some c') /\
    elm.getWidth c' = 65526 /\ elm.m_height (elm.base c') = 65486.
Proof.
  destruct (overlay_frame_margins elm.Element_new "T" "S" Examples.item 0 0 30 100)
    as (c' & Hl & _ & _ & Hw & Hh); [lia..|].
  exists c'. split; [exact Hl|]. split; [exact Hw | exact Hh].
Defined.

(** ** Further properties of screens and of the navigation stack *)

(** X23. [requestFocus(nullptr)] clears the focus: on a screen that
    started with no element focused, after any [requestFocus] calls, a
    call with a null element leaves no element of the tree focused and no
    focused element recorded. *)
Theorem requestFocus_null_clears (g0 : Gui.t)
    (rs : list (option elm.ptr * FocusDirection.t)) (d : FocusDirection.t) :
  (forall root, Gui.m_root g0 = Some root -> Focus.allUnfocused root = true) ->
  let g := Gui.requestFocus None d (Focus.requests rs g0) in
  Gui.getFocusedElement g = None /\
  forall root p, Gui.m_root g = Some root -> elm.isFocused_at p root = false.
Proof.
  intros Hstart g. split; [reflexivity|].
  assert (H0 : Focus.tracked g0).
  { intros root q Hroot Hq.
    rewrite (FocusFacts.allUnfocused_at q root (Hstart root Hroot)) in Hq.
    discriminate. }
  destruct (FocusFacts.requestFocus_tracked None d (Focus.requests rs g0)
              (FocusFacts.requests_tracked rs g0 H0)) as [Hg _].
  intros root p Hroot.
  destruct (elm.isFocused_at p root) eqn:Hp; [|reflexivity].
  specialize (Hg root p Hroot Hp). discriminate.
Qed.

Lemma requestFocus_null_clears_witness :
  let g0 := Gui.updateGui (cfg := Examples.cfg1280x720) Examples.titleGui in
  let g := Gui.requestFocus None FocusDirection.None
             (Focus.requests [(Some [0%nat; 1%nat], FocusDirection.Down)] g0) in
  exists root,
    Gui.m_root g = Some root /\
    elm.isFocused_at [0%nat; 1%nat] root = false.
Proof.
  intros g0 g.
  destruct (Gui.m_root g) as [root|] eqn:Hroot; [|vm_compute in Hroot; discriminate].
  exists root. split; [reflexivity|].
  refine (proj2 (requestFocus_null_clears g0
                   [(Some [0%nat; 1%nat], FocusDirection.Down)]
                   FocusDirection.None _) root [0%nat; 1%nat] Hroot).
  intros r Hr. vm_compute in Hr. injection Hr as <-. vm_compute. reflexivity.
Defined.

Module OwnershipFacts.
Import Overlay Ownership.

Lemma drain_owned stack : forall (store : gmap nat Gui.t) (closing : bool),
  NoDup stack ->
  (forall gui, gui ∈ stack -> is_Some (store !! gui)) ->
  exists store',
    drain (length stack)
      {| m_guiStack := stack; guis := store; m_shouldClose := closing |}
    = Some {| m_guiStack := []; guis := store'; m_shouldClose := closing |} /\
    forall gui, store' !! gui = if decide (gui ∈ stack) then None else store !! gui.
Proof.
  induction stack as [|top rest IH]; intros store closing Hnd Hlive.
  - exists store. split; [reflexivity|]. intros gui.
    rewrite decide_False by apply not_elem_of_nil. reflexivity.
  - apply NoDup_cons in Hnd as [Hfresh Hnd].
    destruct (Hlive top ltac:(left)) as [g Hg].
    cbn [length drain m_guiStack].
    rewrite bool_decide_eq_false_2 by discriminate.
    rewrite (OverlayFacts.dropTop_cons top rest _ g) by (reflexivity || exact Hg).
    cbn [mbind option_bind guis m_shouldClose].
    destruct (IH (delete top store) closing Hnd) as (store' & E & Hstore').
    { intros gui Hin. rewrite lookup_delete_ne by (intros ->; contradiction).
      apply Hlive. right. exact Hin. }
    exists store'. split; [exact E|]. intros gui. rewrite Hstore'.
    destruct (decide (gui ∈ rest)) as [Hin|Hnin];
      destruct (decide (gui ∈ top :: rest)) as [Hin2|Hnin2]; try reflexivity.
    + exfalso. apply Hnin2. right. exact Hin.
    + apply elem_of_cons in Hin2 as [->|Hin2]; [apply lookup_delete_eq | contradiction].
    + apply lookup_delete_ne. intros ->. apply Hnin2. left.
Qed.

End OwnershipFacts.

(** X24. The stack keeps owning its screens.  When no address is stacked
    twice and every stacked address holds a live screen, pushing a live
    screen that is not on the stack keeps it so, and [changeGui] with such
    a screen completes without a fault and keeps it so. *)
Theorem navigation_keeps_ownership (o : Overlay.t) (gui : nat) :
  Ownership.owned o ->
  gui ∉ Overlay.m_guiStack o -> is_Some (Overlay.guis o !! gui) ->
  Ownership.owned (Overlay.pushGui gui o) /\
  exists o', Overlay.changeGui gui o = Some o' /\ Ownership.owned o'.
Proof.
  intros [Hnd Hlive] Hfresh Hgui. split.
  - split; cbn.
    + apply NoDup_cons. split; assumption.
    + intros g Hin. apply elem_of_cons in Hin as [->|Hin]; [exact Hgui|].
      apply Hlive, Hin.
  - unfold Overlay.changeGui.
    destruct (Overlay.m_guiStack o) as [|top rest] eqn:Hstack.
    + rewrite bool_decide_eq_true_2 by reflexivity. eexists. split; [reflexivity|].
      split; cbn; rewrite Hstack.
      * apply NoDup_singleton.
      * intros g Hin. apply list_elem_of_singleton in Hin as ->. exact Hgui.
    + rewrite bool_decide_eq_false_2 by discriminate.
      destruct (Hlive top ltac:(left)) as [gt Hgt].
      rewrite (OverlayFacts.dropTop_cons top rest o gt Hstack Hgt).
      eexists. split; [reflexivity|].
      apply NoDup_cons in Hnd as [Htop Hnd].
      assert (Hne : gui <> top) by (intros ->; apply Hfresh; left).
      split; cbn.
      * apply NoDup_cons. split; [|exact Hnd].
        intros Hin. apply Hfresh. right. exact Hin.
      * intros g Hin. apply elem_of_cons in Hin as [->|Hin].
        -- rewrite lookup_delete_ne by congruence. exact Hgui.
        -- rewrite lookup_delete_ne by (intros ->; contradiction).
           apply Hlive. right. exact Hin.
Qed.

Lemma navigation_keeps_ownership_witness :
  exists o',
    Overlay.changeGui 8 Examples.oneScreen = Some o' /\
    Overlay.m_guiStack o' = [8%nat] /\
    Overlay.guis o' !! 7%nat = None.
Proof.
  destruct (navigation_keeps_ownership Examples.oneScreen 8) as [_ (o' & E & _)].
  - split.
    + apply (bool_decide_eq_true_1 (NoDup (Overlay.m_guiStack Examples.oneScreen))).
      vm_compute. reflexivity.
    + intros g Hin. apply list_elem_of_singleton in Hin as ->.
      vm_compute. eexists. reflexivity.
  - apply (bool_decide_eq_true_1 (8%nat ∉ Overlay.m_guiStack Examples.oneScreen)).
    vm_compute. reflexivity.
  - vm_compute. eexists. reflexivity.
  - exists o'. split; [exact E|].
    vm_compute in E. injection E as <-. split; reflexivity.
Defined.

(** X25. The destructor drains the stack.  On a stack that owns its
    screens [~Overlay()] completes without a fault, leaves the stack
    empty, destroys exactly the stacked screens and leaves every other
    screen in the store alone. *)
Theorem destroy_drains_the_stack (o : Overlay.t) :
  Ownership.owned o ->
  exists o',
    Overlay.destroy o = Some o' /\
    Overlay.m_guiStack o' = [] /\
    forall gui,
      Overlay.guis o' !! gui
      = if decide (gui ∈ Overlay.m_guiStack o) then None
        else Overlay.guis o !! gui.
Proof.
  intros [Hnd Hlive]. destruct o as [stack store closing]. cbn in *.
  destruct (OwnershipFacts.drain_owned stack store closing Hnd Hlive)
    as (store' & E & Hstore').
  eexists. split; [exact E|]. split; [reflexivity | exact Hstore'].
Qed.

Lemma destroy_drains_the_stack_witness :
  exists o',
    Overlay.destroy Examples.oneScreen = Some o' /\
    Overlay.m_guiStack o' = [] /\
    Overlay.guis o' !! 7%nat = None /\
    Overlay.guis o' !! 8%nat = Some (Gui.new None).
Proof.
  destruct (destroy_drains_the_stack Examples.oneScreen) as (o' & E & Hs & Hg).
  - split.
    + apply (bool_decide_eq_true_1 (NoDup (Overlay.m_guiStack Examples.oneScreen))).
      vm_compute. reflexivity.
    + intros g Hin. apply list_elem_of_singleton in Hin as ->.
      vm_compute. eexists. reflexivity.
  - exists o'. split; [exact E|]. split; [exact Hs|].
    rewrite (Hg 7%nat), (Hg 8%nat). split; reflexivity.
Defined.

(** X26. Nothing stops a screen from being pushed twice, and then the
    stack no longer owns its screens: after [pushGui(g)] twice,
    [changeGui(c)] destroys [g] while the entry beneath still names it,
    and the destructor later faults on that entry (a second [delete] of
    the same screen). *)
Theorem pushing_a_screen_twice_dangles (o : Overlay.t) (gui c : nat)
    (g gc : Gui.t) :
  Overlay.guis o !! gui = Some g -> Overlay.guis o !! c = Some gc -> c <> gui ->
  exists o',
    Overlay.changeGui c (Overlay.pushGui gui (Overlay.pushGui gui o)) = Some o' /\
    Overlay.m_guiStack o' = c :: gui :: Overlay.m_guiStack o /\
    Overlay.guis o' !! gui = None /\
    Overlay.destroy o' = None.
Proof.
  intros Hg Hc Hne.
  exists {| Overlay.m_guiStack := c :: gui :: Overlay.m_guiStack o;
            Overlay.guis := delete gui (Overlay.guis o);
            Overlay.m_shouldClose := Overlay.m_shouldClose o |}.
  split.
  { unfold Overlay.changeGui.
    rewrite bool_decide_eq_false_2 by discriminate.
    rewrite (OverlayFacts.dropTop_cons gui (gui :: Overlay.m_guiStack o) _ g)
      by (reflexivity || exact Hg).
    reflexivity. }
  split; [reflexivity|]. split; [apply lookup_delete_eq|].
  unfold Overlay.destroy.
  change (length (Overlay.m_guiStack _))
    with (S (S (length (Overlay.m_guiStack o)))).
  cbn [Overlay.drain].
  rewrite bool_decide_eq_false_2 by discriminate.
  rewrite (OverlayFacts.dropTop_cons c (gui :: Overlay.m_guiStack o) _ gc);
    [|reflexivity|].
  - cbn [mbind option_bind].
    rewrite bool_decide_eq_false_2 by discriminate.
    unfold Overlay.dropTop, Overlay.top, Overlay.delete_gui.
    cbn [Overlay.m_guiStack Overlay.guis head mbind option_bind].
    rewrite lookup_delete_ne by congruence. rewrite lookup_delete_eq. reflexivity.
  - cbn [Overlay.guis]. rewrite lookup_delete_ne by congruence. exact Hc.
Qed.

Lemma pushing_a_screen_twice_dangles_witness :
  exists o',
    Overlay.changeGui 9
      (Overlay.pushGui 8 (Overlay.pushGui 8 Examples.oneScreen)) = Some o' /\
    Overlay.m_guiStack o' = [9%nat; 8%nat; 7%nat] /\
    Overlay.guis o' !! 8%nat = None /\
    Overlay.destroy o' = None.
Proof.
  apply (pushing_a_screen_twice_dangles Examples.oneScreen 8 9
           (Gui.new None) (Gui.new None)); [reflexivity | reflexivity | lia].
Defined.

Module FrameFacts.
Import Overlay.



Section WithConfig.
Context {cfg : Config} {font : FontEngine}.

(** Clearing: the rectangle of the whole surface blends every pixel. *)
Lemma clear_surface (color : Color.t) (next : Surface.t) :
  PixelSpec.wellSized next ->
  drawRect 0 0 FramebufferWidth FramebufferHeight color next
  = Some (DrawSpec.cleared color next).
Proof.
  intros Hnext.
  destruct (RectCells.drawRect_cells 0 0 FramebufferWidth FramebufferHeight
              color next Hnext) as (fb1 & E1 & Hlen1 & _ & Hcells).
  rewrite E1. f_equal.
  assert (Hc : PixelSpec.wellSized (DrawSpec.cleared color next)).
  { unfold PixelSpec.wellSized, DrawSpec.cleared in *. rewrite length_fmap.
    exact Hnext. }
  apply (SurfaceFacts.cells_eq (DrawSpec.cleared color next) fb1 Hc).
  { unfold PixelSpec.wellSized in *. lia. }
  intros xi yi Hx Hy. rewrite (Hcells xi yi Hx Hy).
  unfold DrawSpec.cleared. rewrite list_lookup_fmap.
  pose proof FramebufferWidth_u16 as HW. pose proof FramebufferHeight_u16 as HH.
  assert (Ein : PixelSpec.inRect 0 0 FramebufferWidth FramebufferHeight xi yi
                = true).
  { unfold PixelSpec.inRect, s32.
    rewrite !Z.add_0_l.
    rewrite (Z.mod_small (FramebufferWidth + 2 ^ 31)) by lia.
    rewrite (Z.mod_small (FramebufferHeight + 2 ^ 31)) by lia.
    repeat (apply andb_true_iff; split);
      first [apply Z.leb_le | apply Z.ltb_lt]; lia. }
  rewrite Ein. reflexivity.
Qed.


End WithConfig.
End FrameFacts.





(** X28. A frame on an empty stack.  When [loadInitialGui] offers no
    screen, [loop] does nothing at all: the stack, the store and the
    renderer are as before and no buffer is acquired.  When it offers a
    screen, that screen is pushed and is the only stack entry afterwards,
    it is built, and the frame presents the buffer the host handed out
    with the frame background blended into every pixel and the calls of
    the screen's [draw] run on that. *)
Theorem loop_on_an_empty_stack {cfg : Config} {font : FontEngine}
    (next : Surface.t) (o : Overlay.t) (rst : Renderer.state) :
  Overlay.m_guiStack o = [] ->
  Overlay.loop None next o rst = Some (o, rst) /\
  forall (a : nat) (g : Gui.t),
    PixelSpec.wellSized next ->
    Overlay.loop (Some (a, g)) next o rst
    = Some ({| Overlay.m_guiStack := [a];
               Overlay.guis := <[a := Gui.updateGui g]> (Overlay.guis o);
               Overlay.m_shouldClose := Overlay.m_shouldClose o |},
            Renderer.run (Gui.draw (Gui.updateGui g))
              {| Renderer.fb :=
                   Some (DrawSpec.cleared style.ColorFrameBackground next);
                 Renderer.fonts := Renderer.fonts rst |}).
Proof.
  intros Hstack. split.
  - unfold Overlay.loop. rewrite bool_decide_eq_true_2 by exact Hstack. reflexivity.
  - intros a g Hnext.
    unfold Overlay.loop. rewrite bool_decide_eq_true_2 by exact Hstack.
    unfold Overlay.top, Overlay.pushGui, Overlay.push.
    cbn [Overlay.m_guiStack Overlay.guis Overlay.m_shouldClose head mbind option_bind].
    rewrite lookup_insert_eq.
    cbn [mbind option_bind Renderer.fb Renderer.fonts].
    rewrite (FrameFacts.clear_surface _ next Hnext).
    rewrite insert_insert_eq, Hstack. reflexivity.
Qed.

Lemma loop_on_an_empty_stack_witness :
  Overlay.loop (cfg := Examples.cfg2x2) (font := Examples.blockFont)
    None Examples.grey4 Examples.noScreen Examples.blankScreen
  = Some (Examples.noScreen, Examples.blankScreen) /\
  exists rst',
    Overlay.loop (cfg := Examples.cfg2x2) (font := Examples.blockFont)
      (Some (8%nat, Examples.sketchGui)) Examples.grey4 Examples.noScreen
      Examples.blankScreen
    = Some ({| Overlay.m_guiStack := [8%nat];
               Overlay.guis :=
                 <[8%nat := Gui.updateGui (cfg := Examples.cfg2x2)
                              Examples.sketchGui]>
                   (Overlay.guis Examples.noScreen);
               Overlay.m_shouldClose := false |}, rst') /\
    Renderer.fb rst' = Some [0xFCE0; 0x8DDD; 0x0999; 0xF000].
Proof.
  destruct (loop_on_an_empty_stack (cfg := Examples.cfg2x2)
              (font := Examples.blockFont) Examples.grey4 Examples.noScreen
              Examples.blankScreen eq_refl) as (E0 & E1).
  split; [exact E0|].
  eexists. split; [exact (E1 8%nat Examples.sketchGui eq_refl)|]. reflexivity.
Defined.
